(** * Hatchet: markup parser, attachment extractor and theme colours

    A shallow embedding of [src/helpers/html.ts], [src/helpers/image.ts] and
    [src/theme.ts], and of the branch names, caches and elapsed times of
    [src/helpers/fizzy.ts], [src/helpers/github.ts], the card tile and
    [chrome-extension/content.js].  JavaScript strings are sequences of UTF-16 code units, so
    a string is a [list N]; indices and lengths are [nat]; a search that
    answers [-1] or [null] in the source answers [None] here. *)

From Stdlib Require Import String Ascii.
From Stdlib Require Import List NArith ZArith Bool Arith Lia.
From Stdlib Require Import Floats.
From Stdlib Require Import DecimalNat.
Import ListNotations.

Open Scope string_scope.
Open Scope list_scope.
Open Scope nat_scope.
Set Warnings "-inexact-float".

(* ================================================================== *)
(** * Part I: definitions *)
(* ================================================================== *)

(** ** JavaScript strings *)

Module JsString.

Definition char := N.
Definition jsstring := list char.

(** A source literal written in ASCII, as code units. *)
Fixpoint js (s : string) : jsstring :=
  match s with
  | EmptyString => []
  | String a s' => N_of_ascii a :: js s'
  end.

Definition char_eqb (a b : char) : bool := N.eqb a b.

Fixpoint str_eqb (a b : jsstring) : bool :=
  match a, b with
  | [], [] => true
  | x :: a', y :: b' => char_eqb x y && str_eqb a' b'
  | _, _ => false
  end.

(** [s.startsWith(p)] *)
Fixpoint startsWith (p s : jsstring) : bool :=
  match p with
  | [] => true
  | x :: p' =>
      match s with
      | [] => false
      | y :: s' => char_eqb x y && startsWith p' s'
      end
  end.

Fixpoint indexOfFrom (needle : jsstring) (idx : nat) (s : jsstring) : option nat :=
  if startsWith needle s then Some idx
  else match s with
       | [] => None
       | _ :: s' => indexOfFrom needle (S idx) s'
       end.

(** [hay.indexOf(needle, pos)] for [pos >= 0]; [None] is the source's [-1]. *)
Definition indexOf (hay needle : jsstring) (pos : nat) : option nat :=
  indexOfFrom needle (Nat.min pos (length hay)) (skipn pos hay).

(** [s.includes(needle)] *)
Definition includes (s needle : jsstring) : bool :=
  match indexOf s needle 0 with Some _ => true | None => false end.

(** [s.slice(from)] and [s.slice(from, to)] for non-negative arguments. *)
Definition sliceFrom (s : jsstring) (from : nat) : jsstring := skipn from s.
Definition slice (s : jsstring) (from to : nat) : jsstring :=
  firstn (to - from) (skipn from s).

(** ASCII letters; the code units the parser's tag names are made of. *)
Definition asciiUpper (c : char) : char :=
  if ((97 <=? c) && (c <=? 122))%N then (c - 32)%N else c.
Definition asciiLower (c : char) : char :=
  if ((65 <=? c) && (c <=? 90))%N then (c + 32)%N else c.

(** [String.prototype.toLowerCase] restricted to the ASCII letters: it is
    the run-time function on every string whose upper-case letters are all
    ASCII.  The parser below takes the run-time function as a parameter and
    this one instantiates it on concrete markup. *)
Definition asciiToLowerCase (s : jsstring) : jsstring := map asciiLower s.

(** WhiteSpace and LineTerminator code units: what [\s] matches and what
    [trim] strips. *)
Definition whiteSpaceRanges : list (N * N) :=
  [ (9, 13); (32, 32); (160, 160); (5760, 5760); (8192, 8202);
    (8232, 8233); (8239, 8239); (8287, 8287); (12288, 12288);
    (65279, 65279) ]%N.

Definition inRanges (rs : list (N * N)) (c : char) : bool :=
  existsb (fun r => (fst r <=? c)%N && (c <=? snd r)%N) rs.

Definition isWhiteSpace (c : char) : bool := inRanges whiteSpaceRanges c.

Fixpoint trimStart (s : jsstring) : jsstring :=
  match s with
  | c :: s' => if isWhiteSpace c then trimStart s' else s
  | [] => []
  end.

(** [s.trim()] *)
Definition trim (s : jsstring) : jsstring :=
  rev (trimStart (rev (trimStart s))).

(** Decimal digits of a non-negative integer, as [String(n)] prints it. *)
Fixpoint digitsOfUint (d : Decimal.uint) : jsstring :=
  match d with
  | Decimal.Nil => []
  | Decimal.D0 d' => 48%N :: digitsOfUint d'
  | Decimal.D1 d' => 49%N :: digitsOfUint d'
  | Decimal.D2 d' => 50%N :: digitsOfUint d'
  | Decimal.D3 d' => 51%N :: digitsOfUint d'
  | Decimal.D4 d' => 52%N :: digitsOfUint d'
  | Decimal.D5 d' => 53%N :: digitsOfUint d'
  | Decimal.D6 d' => 54%N :: digitsOfUint d'
  | Decimal.D7 d' => 55%N :: digitsOfUint d'
  | Decimal.D8 d' => 56%N :: digitsOfUint d'
  | Decimal.D9 d' => 57%N :: digitsOfUint d'
  end.

Definition numberToString (n : nat) : jsstring := digitsOfUint (Nat.to_uint n).

End JsString.

(** ** Regular expressions

    Every regular expression of the three source files is a sequence of
    character classes, each under a greedy quantifier, some of them capture
    groups, with an optional [^] in front and [$] behind.  [matchItems] is
    the backtracking matcher of that fragment: each item first takes the
    longest run it can and gives characters back one at a time. *)

Module Regex.
Import JsString.

Record CharClass := { negated : bool; ranges : list (N * N) }.

(** Membership, with the [i] flag's canonicalisation: all classes here hold
    ASCII only, and no code unit outside ASCII canonicalises into ASCII. *)
Definition classMatches (ignoreCase : bool) (cl : CharClass) (c : char) : bool :=
  xorb (negated cl)
       (inRanges (ranges cl) c
        || (ignoreCase
            && (inRanges (ranges cl) (asciiUpper c)
                || inRanges (ranges cl) (asciiLower c)))).

Record Item := {
  cls : CharClass;
  minRep : nat;
  maxRep : option nat;
  captured : bool
}.

Record RegExp := {
  anchorStart : bool;
  items : list Item;
  anchorEnd : bool;
  ignoreCase : bool
}.

Record Match := {
  index : nat;            (* match.index *)
  whole : jsstring;       (* match[0] *)
  groups : list jsstring  (* match[1], match[2], ... *)
}.

(** Item constructors, named after the syntax they stand for. *)
Definition only (c : char) : CharClass := {| negated := false; ranges := [(c, c)] |}.
Definition noneOf (cs : list char) : CharClass :=
  {| negated := true; ranges := map (fun c => (c, c)) cs |}.
Definition oneOf (cs : list char) : CharClass :=
  {| negated := false; ranges := map (fun c => (c, c)) cs |}.
Definition wordRanges : list (N * N) := [(48, 57); (65, 90); (95, 95); (97, 122)]%N.
Definition digitClass : CharClass := {| negated := false; ranges := [(48, 57)]%N |}.
Definition spaceClass : CharClass := {| negated := false; ranges := whiteSpaceRanges |}.

Definition one (cl : CharClass) : Item :=
  {| cls := cl; minRep := 1; maxRep := Some 1; captured := false |}.
Definition opt (cl : CharClass) : Item :=
  {| cls := cl; minRep := 0; maxRep := Some 1; captured := false |}.
Definition star (cl : CharClass) : Item :=
  {| cls := cl; minRep := 0; maxRep := None; captured := false |}.
Definition plus (cl : CharClass) : Item :=
  {| cls := cl; minRep := 1; maxRep := None; captured := false |}.
Definition exactly (n : nat) (cl : CharClass) : Item :=
  {| cls := cl; minRep := n; maxRep := Some n; captured := false |}.
Definition group (it : Item) : Item :=
  {| cls := cls it; minRep := minRep it; maxRep := maxRep it; captured := true |}.
(** A literal stretch of pattern text. *)
Definition lit (s : jsstring) : list Item := map (fun c => one (only c)) s.

Fixpoint longestRun (p : char -> bool) (limit : option nat) (s : jsstring) : nat :=
  match s with
  | c :: s' =>
      if p c then
        match limit with
        | Some 0 => 0
        | Some (S l) => S (longestRun p (Some l) s')
        | None => S (longestRun p None s')
        end
      else 0
  | [] => 0
  end.

(** Try [k], [k-1], ... down to [lo]. *)
Fixpoint backtrack {A : Type} (k lo : nat) (attempt : nat -> option A) : option A :=
  if k <? lo then None
  else match attempt k with
       | Some r => Some r
       | None =>
           match k with
           | 0 => None
           | S k' => backtrack k' lo attempt
           end
       end.

(** A match of the items at the very start of [s]: the number of code units
    matched and the captures. *)
Fixpoint matchItems (ic : bool) (its : list Item) (atEnd : bool) (s : jsstring)
  : option (nat * list jsstring) :=
  match its with
  | [] =>
      if atEnd
      then match s with [] => Some (0, []) | _ :: _ => None end
      else Some (0, [])
  | it :: its' =>
      backtrack (longestRun (classMatches ic (cls it)) (maxRep it) s) (minRep it)
        (fun k =>
           match matchItems ic its' atEnd (skipn k s) with
           | Some (n, gs) =>
               Some (k + n, if captured it then firstn k s :: gs else gs)
           | None => None
           end)
  end.

Definition matchHere (re : RegExp) (s : jsstring) : option (nat * list jsstring) :=
  matchItems (ignoreCase re) (items re) (anchorEnd re) s.

Fixpoint searchFrom (re : RegExp) (idx : nat) (s : jsstring) : option Match :=
  match matchHere re s with
  | Some (n, gs) => Some {| index := idx; whole := firstn n s; groups := gs |}
  | None =>
      if anchorStart re then None
      else match s with
           | [] => None
           | _ :: s' => searchFrom re (S idx) s'
           end
  end.

(** [s.match(re)] and [re.exec(s)] for a regular expression without [g]:
    the leftmost match. *)
Definition exec (re : RegExp) (s : jsstring) : option Match := searchFrom re 0 s.

(** All matches of a [g] regular expression without [^], left to right,
    each search resuming where the previous match ended (one further on
    after an empty match): the results of [s.match(re)] and of the
    [while (re.exec(s))] loop.  [skip] counts the code units of the last
    match still to pass. *)
Fixpoint matchAllFrom (re : RegExp) (skip idx : nat) (s : jsstring) : list Match :=
  match skip with
  | S k =>
      match s with
      | [] => []
      | _ :: s' => matchAllFrom re k (S idx) s'
      end
  | 0 =>
      match matchHere re s with
      | Some (n, gs) =>
          {| index := idx; whole := firstn n s; groups := gs |}
          :: match s with
             | [] => []
             | _ :: s' => matchAllFrom re (pred n) (S idx) s'
             end
      | None =>
          match s with
          | [] => []
          | _ :: s' => matchAllFrom re 0 (S idx) s'
          end
      end
  end.

Definition matchAll (re : RegExp) (s : jsstring) : list Match := matchAllFrom re 0 0 s.

(** [s.replace(re, rep)] for a [g] regular expression without [^] and a
    replacement text without [$]. *)
Fixpoint replaceFrom (re : RegExp) (rep : jsstring) (skip : nat) (s : jsstring) : jsstring :=
  match skip with
  | S k =>
      match s with
      | [] => []
      | _ :: s' => replaceFrom re rep k s'
      end
  | 0 =>
      match matchHere re s with
      | Some (n, _) =>
          rep ++ match s with
                 | [] => []
                 | c :: s' =>
                     match n with
                     | 0 => c :: replaceFrom re rep 0 s'
                     | S n' => replaceFrom re rep n' s'
                     end
                 end
      | None =>
          match s with
          | [] => []
          | c :: s' => c :: replaceFrom re rep 0 s'
          end
      end
  end.

Definition replaceAll (re : RegExp) (rep s : jsstring) : jsstring := replaceFrom re rep 0 s.

(** Unanchored, case-sensitive pattern. *)
Definition pattern (its : list Item) : RegExp :=
  {| anchorStart := false; items := its; anchorEnd := false; ignoreCase := false |}.
(** Unanchored pattern under the [i] flag. *)
Definition patternI (its : list Item) : RegExp :=
  {| anchorStart := false; items := its; anchorEnd := false; ignoreCase := true |}.

(** The first capture of a match, [m[1]]. *)
Definition group1 (m : Match) : jsstring := nth 0 (groups m) [].

End Regex.

(** ** The markup parser, [src/helpers/html.ts] *)

Module Html.
Import JsString Regex.

(** Code units the patterns name. *)
Definition LT : char := 60%N.      (* < *)
Definition GT : char := 62%N.      (* > *)
Definition SLASH : char := 47%N.   (* / *)
Definition DQUOTE : char := 34%N.
Definition SQUOTE : char := 39%N.
Definition NEWLINE : char := 10%N.
Definition quotes : list char := [DQUOTE; SQUOTE].

Record StyleState := {
  bold : bool;
  italic : bool;
  strikethrough : bool;
  code : bool
}.

(** [ListContext.type]; the object's [counter] is mutable and is threaded
    through the parser as a [nat]. *)
Inductive ListType := ListUl | ListOl | ListNull.

(** What [TextNodeRenderable.fromString(text, { fg, attributes })] is given. *)
Record TextNode := {
  text : jsstring;
  fg : jsstring;
  attributes : option N
}.

(** What the parser takes from outside the file: the run-time's
    [toLowerCase], the attribute bits of [TextAttributes] and the values the
    [Theme] getters have during the call. *)
Record Env := {
  toLowerCase : jsstring -> jsstring;
  BOLD : N;
  ITALIC : N;
  STRIKETHROUGH : N;
  muted : jsstring;
  primary : jsstring;
  secondary : jsstring;
  accent : jsstring
}.

(** [/&lt;/g] and its like. *)
Definition entity (name : string) : RegExp := pattern (lit (js name)).

Definition decodeHtmlEntities (text : jsstring) : jsstring :=
  let t := replaceAll (entity "&lt;") (js "<") text in
  let t := replaceAll (entity "&gt;") (js ">") t in
  let t := replaceAll (entity "&amp;") (js "&") t in
  let t := replaceAll (entity "&quot;") [DQUOTE] t in
  let t := replaceAll (entity "&#39;") [SQUOTE] t in
  replaceAll (entity "&nbsp;") (js " ") t.

(** The pattern [name=Q([^Q]+)Q], where [Q] stands for the class of the
    double and the single quote. *)
Definition attributeRegex (name : string) : RegExp :=
  pattern (lit (js name) ++ lit (js "=")
           ++ [one (oneOf quotes); group (plus (noneOf quotes)); one (oneOf quotes)]).

(** [tagAttrs.match(re)], then [m ? m[1] : null]. *)
Definition attribute (name : string) (attrs : jsstring) : option jsstring :=
  match exec (attributeRegex name) attrs with
  | Some m => Some (group1 m)
  | None => None
  end.

Definition extractHref (attrs : jsstring) : option jsstring := attribute "href" attrs.

(** The pattern [^ ( [^<]* ) < ( \/? ) ( [\w-]+ ) ( [^>]* ) >], spaced out
    here to keep the comment well-formed. *)
Definition tagRegex : RegExp :=
  {| anchorStart := true;
     items := [ group (star (noneOf [LT]));
                one (only LT);
                group (opt (only SLASH));
                group (plus {| negated := false; ranges := wordRanges ++ [(45, 45)]%N |});
                group (star (noneOf [GT]));
                one (only GT) ];
     anchorEnd := false;
     ignoreCase := false |}.

(** [/\s+/g] *)
Definition spacesRegex : RegExp := pattern [plus spaceClass].

(** [new RegExp(`<${tagName}[^>]*>`, 'gi')]; a tag name is made of word
    characters and hyphens, none of them pattern syntax. *)
Definition openTagRegex (tagName : jsstring) : RegExp :=
  patternI (lit (js "<") ++ lit tagName ++ [star (noneOf [GT])] ++ lit (js ">")).

Definition closeTagOf (tagName : jsstring) : jsstring := js "</" ++ tagName ++ js ">".

Definition codeGreen : jsstring := js "#98c379".
Definition origin : jsstring := js "https://app.fizzy.do".

(** JavaScript truthiness of a [string | null]. *)
Definition truthy (v : option jsstring) : bool :=
  match v with
  | Some (_ :: _) => true
  | _ => false
  end.

(** [a || b] on [string | null] operands. *)
Definition orElse (a b : option jsstring) : option jsstring :=
  if truthy a then a else b.

(** [v?.startsWith(p)], with [undefined] read as false. *)
Definition optStartsWith (p : string) (v : option jsstring) : bool :=
  match v with
  | Some s => startsWith (js p) s
  | None => false
  end.

(** A run pushed with a colour only. *)
Definition literal (t fgc : jsstring) : TextNode :=
  {| text := t; fg := fgc; attributes := None |}.

(** How a recursive call treats the caller's [listContext]: passes the same
    object on, or makes a new one of the given type with counter 0. *)
Inductive ContextUse := SameContext | NewContext (t : ListType).

Record Descent := {
  subState : StyleState;
  subFg : jsstring;
  subContext : ContextUse
}.

(** One [case] of the [switch]: the counter after the case's own statements,
    the runs pushed before the body's, the recursive call on [innerHtml] if
    the case makes one, and the runs pushed after. *)
Record TagAction := {
  counterAfter : nat;
  before : list TextNode;
  descent : option Descent;
  after : list TextNode
}.

(** One pass through the [while] body. *)
Inductive Iteration :=
| Stop (nodes : list TextNode)
    (* no tag matched: the rest is text, [break] *)
| Next (nodes : list TextNode) (remaining : jsstring)
    (* [continue]: br, hr, a closing tag, or no matching close *)
| Enter (nodes : list TextNode) (tagName tagAttrs innerHtml remaining : jsstring).
    (* the [switch] is reached *)

Section Parser.
Variable env : Env.

Definition getAttributes (state : StyleState) : N :=
  let attrs := 0%N in
  let attrs := if bold state then N.lor attrs (BOLD env) else attrs in
  let attrs := if italic state then N.lor attrs (ITALIC env) else attrs in
  let attrs := if strikethrough state then N.lor attrs (STRIKETHROUGH env) else attrs in
  attrs.

(** A run of markup text under the ambient style. *)
Definition textNode (t : jsstring) (state : StyleState) (defaultFg : jsstring) : TextNode :=
  {| text := t;
     fg := if code state then codeGreen else defaultFg;
     attributes := Some (getAttributes state) |}.

(** The loop of [findMatchingClose].  The outer [None] is fuel run out,
    which the fuel [findMatchingClose] gives never meets (Part II); the inner
    [None] is the source's [-1]. *)
Fixpoint findLoop (fuel : nat) (html tagName : jsstring) (depth : Z) (pos : nat)
  : option (option nat) :=
  match fuel with
  | 0 => None
  | S fuel' =>
      if (0 <? depth)%Z && (pos <? length html) then
        match indexOf (toLowerCase env html) (toLowerCase env (closeTagOf tagName)) pos with
        | None => Some None
        | Some nextClose =>
            let segment := slice html pos nextClose in
            let opens := length (matchAll (openTagRegex tagName) segment) in
            let depth := (depth + (Z.of_nat opens - 1))%Z in
            if (depth =? 0)%Z then Some (Some nextClose)
            else findLoop fuel' html tagName depth (nextClose + length (closeTagOf tagName))
        end
      else Some None
  end.

Definition findMatchingClose (html tagName : jsstring) : option nat :=
  match findLoop (S (length html)) html tagName 1 0 with
  | Some r => r
  | None => None
  end.

Definition isTag (tagName : jsstring) (names : list string) : bool :=
  existsb (fun n => str_eqb tagName (js n)) names.

Definition setBold (s : StyleState) : StyleState :=
  {| bold := true; italic := italic s; strikethrough := strikethrough s; code := code s |}.
Definition setItalic (s : StyleState) : StyleState :=
  {| bold := bold s; italic := true; strikethrough := strikethrough s; code := code s |}.
Definition setStrikethrough (s : StyleState) : StyleState :=
  {| bold := bold s; italic := italic s; strikethrough := true; code := code s |}.
Definition setCode (s : StyleState) : StyleState :=
  {| bold := bold s; italic := italic s; strikethrough := strikethrough s; code := true |}.

Definition recurse (st : StyleState) (fgc : jsstring) (c : ContextUse) : option Descent :=
  Some {| subState := st; subFg := fgc; subContext := c |}.

(** The runs of the case [action-text-attachment]. *)
Definition attachmentNodes (tagAttrs defaultFg : jsstring) : list TextNode :=
  let url := attribute "url" tagAttrs in
  let filename := attribute "filename" tagAttrs in
  let caption := attribute "caption" tagAttrs in
  let contentType := attribute "content-type" tagAttrs in
  let displayName :=
    match orElse (orElse caption filename) (Some (js "attachment")) with
    | Some d => d
    | None => []
    end in
  let url :=
    if truthy url && optStartsWith "/" url
    then match url with Some u => Some (origin ++ u) | None => None end
    else url in
  let label icon :=
    [ literal [NEWLINE] defaultFg;
      literal [icon; 32%N] (accent env);
      literal (js "[" ++ displayName ++ js "]") (secondary env);
      literal [NEWLINE] defaultFg ] in
  if truthy url && optStartsWith "image/" contentType then []
  else if truthy url && optStartsWith "video/" contentType then label 61501%N
  else if truthy url then label 61638%N
  else [].

(** The [switch (tagName)]. *)
Definition tagAction (tagName tagAttrs : jsstring) (state : StyleState)
    (defaultFg : jsstring) (ltype : ListType) (counter : nat) : TagAction :=
  let nl := literal [NEWLINE] defaultFg in
  let act b d a := {| counterAfter := counter; before := b; descent := d; after := a |} in
  if isTag tagName ["b"; "strong"] then
    act [] (recurse (setBold state) defaultFg SameContext) []
  else if isTag tagName ["i"; "em"] then
    act [] (recurse (setItalic state) defaultFg SameContext) []
  else if isTag tagName ["s"; "strike"; "del"] then
    act [] (recurse (setStrikethrough state) defaultFg SameContext) []
  else if isTag tagName ["code"] then
    act [] (recurse (setCode state) defaultFg SameContext) []
  else if isTag tagName ["h1"] then
    act [nl] (recurse (setBold state) (primary env) SameContext) [nl]
  else if isTag tagName ["h2"] then
    act [nl] (recurse (setBold state) (secondary env) SameContext) [nl]
  else if isTag tagName ["h3"] then
    act [nl] (recurse (setBold state) (accent env) SameContext) [nl]
  else if isTag tagName ["p"] then
    act [] (recurse state defaultFg SameContext) [nl]
  else if isTag tagName ["li"] then
    match ltype with
    | ListOl =>
        {| counterAfter := S counter;
           before := [literal (numberToString (S counter) ++ js ". ") (accent env)];
           descent := recurse state defaultFg (NewContext ListNull);
           after := [nl] |}
    | _ =>
        act [literal [8226%N; 32%N] (accent env)]
            (recurse state defaultFg (NewContext ListNull)) [nl]
    end
  else if isTag tagName ["blockquote"] then
    act [literal [9474%N; 32%N] (muted env)]
        (recurse (setItalic state) (muted env) SameContext) [nl]
  else if isTag tagName ["a"] then
    let href := extractHref tagAttrs in
    act [literal (js "[") (muted env)]
        (recurse state (secondary env) SameContext)
        (literal (js "]") (muted env)
         :: match href with
            | Some h => if truthy href then [literal (js "(" ++ h ++ js ")") (muted env)] else []
            | None => []
            end)
  else if isTag tagName ["pre"] then
    act [nl] (recurse (setCode state) codeGreen SameContext) [nl]
  else if isTag tagName ["ul"] then
    act [] (recurse state defaultFg (NewContext ListUl)) []
  else if isTag tagName ["ol"] then
    act [] (recurse state defaultFg (NewContext ListOl)) []
  else if isTag tagName ["div"; "span"; "figure"; "figcaption"] then
    act [] (recurse state defaultFg SameContext) []
  else if isTag tagName ["action-text-attachment"] then
    act (attachmentNodes tagAttrs defaultFg) None []
  else if isTag tagName ["img"] then
    act [] None []
  else
    (* default: the call leaves [listContext] out, so the callee's default
       parameter makes a new [{ type: null, counter: 0 }] *)
    act [] (recurse state defaultFg (NewContext ListNull)) [].

(** The block that adds the text before the tag: what it pushes. *)
Definition segmentNodes (textBefore : jsstring) (state : StyleState) (defaultFg : jsstring)
  : list TextNode :=
  let isFormattingWhitespace :=
    str_eqb (trim textBefore) [] && includes textBefore [NEWLINE] in
  if (0 <? length textBefore) && negb isFormattingWhitespace then
    let text := if code state then textBefore
                else replaceAll spacesRegex (js " ") textBefore in
    [textNode text state defaultFg]
  else [].

(** The body of [while (remaining.length > 0)], up to the [switch]. *)
Definition iteration (remaining : jsstring) (state : StyleState) (defaultFg : jsstring)
  : Iteration :=
  match exec tagRegex remaining with
  | None =>
      let text := decodeHtmlEntities remaining in
      Stop (if 0 <? length text then [textNode text state defaultFg] else [])
  | Some tagMatch =>
      let textBefore := decodeHtmlEntities (nth 0 (groups tagMatch) []) in
      let nodes := segmentNodes textBefore state defaultFg in
      let isClosing := str_eqb (nth 1 (groups tagMatch) []) [SLASH] in
      let tagName := toLowerCase env (nth 2 (groups tagMatch) []) in
      let tagAttrs := nth 3 (groups tagMatch) [] in
      let remaining := sliceFrom remaining (length (whole tagMatch)) in
      if str_eqb tagName (js "br") then
        Next (nodes ++ [literal [NEWLINE] defaultFg]) remaining
      else if str_eqb tagName (js "hr") then
        Next (nodes ++ [literal [NEWLINE; 9472; 9472; 9472; NEWLINE]%N (muted env)]) remaining
      else if isClosing then Next nodes remaining
      else
        match findMatchingClose remaining tagName with
        | None => Next nodes remaining
        | Some closeIndex =>
            Enter nodes tagName tagAttrs
                  (slice remaining 0 closeIndex)
                  (sliceFrom remaining (closeIndex + length (closeTagOf tagName)))
        end
  end.

(** [parseHtmlContent]: the runs pushed and the final [listContext.counter].
    One unit of fuel per nesting of calls and loop passes; [None] is fuel
    exhausted. *)
Fixpoint parseFuel (fuel : nat) (html : jsstring) (state : StyleState)
    (defaultFg : jsstring) (ltype : ListType) (counter : nat)
  : option (list TextNode * nat) :=
  match fuel with
  | 0 => None
  | S fuel' =>
      match html with
      | [] => Some ([], counter)
      | _ :: _ =>
          match iteration html state defaultFg with
          | Stop nodes => Some (nodes, counter)
          | Next nodes remaining =>
              match parseFuel fuel' remaining state defaultFg ltype counter with
              | Some (rest, c) => Some (nodes ++ rest, c)
              | None => None
              end
          | Enter nodes tagName tagAttrs innerHtml remaining =>
              let act := tagAction tagName tagAttrs state defaultFg ltype counter in
              let body :=
                match descent act with
                | None => Some ([], counterAfter act)
                | Some d =>
                    match subContext d with
                    | SameContext =>
                        parseFuel fuel' innerHtml (subState d) (subFg d) ltype (counterAfter act)
                    | NewContext t =>
                        match parseFuel fuel' innerHtml (subState d) (subFg d) t 0 with
                        | Some (inner, _) => Some (inner, counterAfter act)
                        | None => None
                        end
                    end
                end in
              match body with
              | Some (inner, c1) =>
                  match parseFuel fuel' remaining state defaultFg ltype c1 with
                  | Some (rest, c2) =>
                      Some (nodes ++ before act ++ inner ++ after act ++ rest, c2)
                  | None => None
                  end
              | None => None
              end
          end
      end
  end.

(** The fuel [S (length html)] is always enough (proved below), so the
    [None] branch is never taken. *)
Definition parseHtmlContent (html : jsstring) (state : StyleState)
    (defaultFg : jsstring) (ltype : ListType) (counter : nat) : list TextNode * nat :=
  match parseFuel (S (length html)) html state defaultFg ltype counter with
  | Some r => r
  | None => ([], counter)
  end.

Definition initialState : StyleState :=
  {| bold := false; italic := false; strikethrough := false; code := false |}.

(** The runs [renderHtml] hands to the renderer:
    [parseHtmlContent(html, initialState, Theme.text)]. *)
Definition renderHtml (themeText html : jsstring) : list TextNode :=
  fst (parseHtmlContent html initialState themeText ListNull 0).

End Parser.

(** Concrete markup is run with ASCII lower-casing, the attribute bits of
    [@opentui/core] and the colours of the fallback palette. *)
Definition demoEnv : Env :=
  {| toLowerCase := asciiToLowerCase;
     BOLD := 1; ITALIC := 4; STRIKETHROUGH := 128;
     muted := js "#999999";
     primary := js "#ff5faf";
     secondary := js "#5f87ff";
     accent := js "#5fd7d7" |}.

Definition white : jsstring := js "#ffffff".

End Html.

(** ** The attachment extractor, [src/helpers/image.ts] *)

Module Image.
Import JsString Regex.
Import Html.

Record ImageInfo := {
  url : jsstring;
  alt : jsstring;
  width : option N;
  height : option N
}.

(** The pattern [<action-text-attachment[^>]+content-type=Q image\/ [^Q]+ Q [^>]* >]
    under the flags [gi], [Q] the class of the two quotes. *)
Definition attachmentRegex : RegExp :=
  patternI (lit (js "<action-text-attachment")
            ++ [plus (noneOf [GT])]
            ++ lit (js "content-type=")
            ++ [one (oneOf quotes)]
            ++ lit (js "image/")
            ++ [plus (noneOf quotes); one (oneOf quotes); star (noneOf [GT])]
            ++ lit (js ">")).

(** The pattern [<img[^>]+src=Q([^Q]+)Q [^>]* >] under the flags [gi]. *)
Definition imgRegex : RegExp :=
  patternI (lit (js "<img")
            ++ [plus (noneOf [GT])]
            ++ lit (js "src=")
            ++ [one (oneOf quotes); group (plus (noneOf quotes)); one (oneOf quotes);
                star (noneOf [GT])]
            ++ lit (js ">")).

(** The pattern [name=Q(\d+)Q]. *)
Definition numberRegex (name : string) : RegExp :=
  pattern (lit (js name) ++ lit (js "=")
           ++ [one (oneOf quotes); group (plus digitClass); one (oneOf quotes)]).

(** [parseInt] of a run of decimal digits. *)
Definition parseInt (s : jsstring) : N :=
  fold_left (fun acc c => (10 * acc + (c - 48))%N) s 0%N.

(** [m ? parseInt(m[1]) : undefined] *)
Definition dimension (name : string) (tag : jsstring) : option N :=
  match exec (numberRegex name) tag with
  | Some m => Some (parseInt (group1 m))
  | None => None
  end.

(** [m ? m[1] : "image"], the alternative the second argument. *)
Definition attributeOr (name : string) (tag fallback : jsstring) : jsstring :=
  match exec (attributeRegex name) tag with
  | Some m => group1 m
  | None => fallback
  end.

(** The rule both loops apply: a URL that starts with a slash gets the
    origin in front. *)
Definition absolute (u : jsstring) : jsstring :=
  if startsWith (js "/") u then origin ++ u else u.

(** The body of the first loop: what it pushes for one match. *)
Definition attachmentImage (m : Match) : list ImageInfo :=
  let tag := whole m in
  match exec (attributeRegex "url") tag with
  | Some urlMatch =>
      [ {| url := absolute (group1 urlMatch);
           alt := attributeOr "filename" tag (js "image");
           width := dimension "width" tag;
           height := dimension "height" tag |} ]
  | None => []
  end.

(** The test that guards the second loop's push. *)
Definition keepsImage (images : list ImageInfo) (src : jsstring) : bool :=
  negb (startsWith (js "/") src)
  || negb (existsb (fun img => includes (url img) (sliceFrom src 1)) images).

(** The body of the second loop: [images] after one match. *)
Definition plainImage (images : list ImageInfo) (m : Match) : list ImageInfo :=
  let tag := whole m in
  let src := group1 m in
  if keepsImage images src then
    images ++ [ {| url := absolute src;
                   alt := attributeOr "alt" tag (js "image");
                   width := dimension "width" tag;
                   height := dimension "height" tag |} ]
  else images.

Definition extractImageUrls (html : jsstring) : list ImageInfo :=
  let images := flat_map attachmentImage (matchAll attachmentRegex html) in
  fold_left plainImage (matchAll imgRegex html) images.

End Image.

(** ** Colours, [src/theme.ts] *)

Module Theme.
Import JsString Regex.

(** Colour channels are integer-valued numbers. *)
Record Rgb := { r : Z; g : Z; b : Z }.

(** [a-f\d] *)
Definition hexClass : CharClass :=
  {| negated := false; ranges := [(97, 102); (48, 57)]%N |}.

(** The pattern [^#?([a-f\d]{2})([a-f\d]{2})([a-f\d]{2})$] under the flag [i]. *)
Definition hexRegex : RegExp :=
  {| anchorStart := true;
     items := [ opt (only 35%N);
                group (exactly 2 hexClass);
                group (exactly 2 hexClass);
                group (exactly 2 hexClass) ];
     anchorEnd := true;
     ignoreCase := true |}.

Definition hexDigitValue (c : char) : option Z :=
  if ((48 <=? c) && (c <=? 57))%N then Some (Z.of_N c - 48)%Z
  else if ((97 <=? c) && (c <=? 102))%N then Some (Z.of_N c - 87)%Z
  else if ((65 <=? c) && (c <=? 70))%N then Some (Z.of_N c - 55)%Z
  else None.

Fixpoint parseHexFrom (acc : Z) (s : jsstring) : Z :=
  match s with
  | c :: s' =>
      match hexDigitValue c with
      | Some d => parseHexFrom (16 * acc + d)%Z s'
      | None => acc
      end
  | [] => acc
  end.

(** [parseInt(s, 16)] for [s] that starts with a hex digit, as every
    capture of [hexRegex] does. *)
Definition parseInt16 (s : jsstring) : Z := parseHexFrom 0 s.

Definition hexToRgb (hex : jsstring) : Rgb :=
  match exec hexRegex hex with
  | None => {| r := 0; g := 0; b := 0 |}
  | Some result =>
      {| r := parseInt16 (nth 0 (groups result) []);
         g := parseInt16 (nth 1 (groups result) []);
         b := parseInt16 (nth 2 (groups result) []) |}
  end.

(** An integer channel as an IEEE double, exact for the channels
    [hexToRgb] gives. *)
Definition toFloat (z : Z) : float := PrimFloat.of_uint63 (Uint63.of_Z z).

(** The source's expression, in its evaluation order, in binary64. *)
Definition luminance (c : Rgb) : float :=
  ((0.299 * toFloat (r c) + 0.587 * toFloat (g c)) + 0.114 * toFloat (b c)) / 255.

Definition isLightBackground (hex : jsstring) : bool :=
  (0.5 <? luminance (hexToRgb hex))%float.

Definition hexChar (d : N) : char := if (d <? 10)%N then (48 + d)%N else (87 + d)%N.

Fixpoint toHexDigits (fuel : nat) (n : N) (acc : jsstring) : jsstring :=
  match fuel with
  | 0 => acc
  | S fuel' =>
      let acc' := hexChar (n mod 16) :: acc in
      if (n / 16 =? 0)%N then acc' else toHexDigits fuel' (n / 16)%N acc'
  end.

(** [x.toString(16)] for an integer [x]. *)
Definition toString16 (x : Z) : jsstring :=
  let digits n := toHexDigits (S (N.to_nat (N.log2 n))) n [] in
  if (x <? 0)%Z then js "-" ++ digits (Z.to_N (- x)) else digits (Z.to_N x).

(** [s.padStart(2, '0')] *)
Definition padStart2 (s : jsstring) : jsstring :=
  repeat 48%N (2 - length s) ++ s.

(** [rgbToHex] on integer channels, where [Math.round] changes nothing. *)
Definition rgbToHex (r g b : Z) : jsstring :=
  js "#" ++ concat (map (fun x => padStart2 (toString16 x)) [r; g; b]).

Definition table (entries : list (string * string)) : list (jsstring * jsstring) :=
  map (fun e => (js (fst e), js (snd e))) entries.

Definition FIZZY_COLORS_LIGHT : list (jsstring * jsstring) :=
  table [ ("var(--color-card-1)", "#9a9a9f");
          ("var(--color-card-2)", "#b59a6e");
          ("var(--color-card-3)", "#c9a000");
          ("var(--color-card-4)", "#7db000");
          ("var(--color-card-5)", "#009eb3");
          ("var(--color-card-6)", "#8a6ed9");
          ("var(--color-card-7)", "#b94dc9");
          ("var(--color-card-8)", "#e45b9e");
          ("var(--color-card-default)", "#2b7dde");
          ("var(--color-card-complete)", "#5c5c66") ].

Definition FIZZY_COLORS_DARK : list (jsstring * jsstring) :=
  table [ ("var(--color-card-1)", "#8f8f97");
          ("var(--color-card-2)", "#a08f6e");
          ("var(--color-card-3)", "#a88900");
          ("var(--color-card-4)", "#6d9600");
          ("var(--color-card-5)", "#008fa0");
          ("var(--color-card-6)", "#7a5fd0");
          ("var(--color-card-7)", "#a446b0");
          ("var(--color-card-8)", "#c5508a");
          ("var(--color-card-default)", "#5a9eed");
          ("var(--color-card-complete)", "#d6d6db") ].

Definition FIZZY_DEFAULT_VAR : jsstring := js "var(--color-card-default)".

(** What [obj[key]] can be for an object literal whose own properties are
    strings: an own property, a member of [Object.prototype] reached
    through the prototype chain, or [undefined]. *)
Inductive Value :=
| Str (s : jsstring)
| Inherited (name : jsstring)
| Undefined.

(** The property names of [Object.prototype]. *)
Definition objectPrototypeKeys : list jsstring :=
  map js [ "constructor"; "hasOwnProperty"; "isPrototypeOf";
           "propertyIsEnumerable"; "toLocaleString"; "toString"; "valueOf";
           "__proto__"; "__defineGetter__"; "__defineSetter__";
           "__lookupGetter__"; "__lookupSetter__" ].

(** The own property of an object literal, if it has one under [key]. *)
Definition ownProperty (obj : list (jsstring * jsstring)) (key : jsstring)
  : option jsstring :=
  match find (fun e => str_eqb (fst e) key) obj with
  | Some e => Some (snd e)
  | None => None
  end.

(** [obj[key]] *)
Definition getProperty (obj : list (jsstring * jsstring)) (key : jsstring) : Value :=
  match ownProperty obj key with
  | Some v => Str v
  | None => if existsb (str_eqb key) objectPrototypeKeys then Inherited key else Undefined
  end.

(** [a ?? b] *)
Definition nullish (a b : Value) : Value :=
  match a with
  | Undefined => b
  | _ => a
  end.

(** [getFizzyColor]; [defaultBackground] is the module's variable of that
    name at the time of the call, read through [Theme.isLight], and
    [cssVar] is [None] for [undefined]. *)
Definition getFizzyColor (defaultBackground : jsstring) (cssVar : option jsstring) : Value :=
  let colors := if isLightBackground defaultBackground
                then FIZZY_COLORS_LIGHT else FIZZY_COLORS_DARK in
  match cssVar with
  | None | Some [] => getProperty colors FIZZY_DEFAULT_VAR
  | Some key => nullish (getProperty colors key) (getProperty colors FIZZY_DEFAULT_VAR)
  end.

End Theme.

(** ** The vocabulary of the properties

    Measures, predicates and the rules the properties of Part II are stated
    with. *)

Module RegexSpec.
Import JsString Regex.

(** The least number of code units a sequence of items can match. *)
Definition minLength (its : list Item) : nat :=
  fold_right (fun it acc => minRep it + acc) 0 its.

End RegexSpec.

Module HtmlSpec.
Import JsString Regex Html.

(** [remaining'] is what is left of [remaining] after a non-empty prefix
    was consumed. *)
Definition consumes (remaining remaining' : jsstring) : Prop :=
  exists consumed, consumed <> [] /\ remaining = consumed ++ remaining'.

(** One pass of the loop ends it, or consumes a non-empty prefix of what
    remained; the body it hands to a recursive call is shorter than what
    remained. *)
Definition progresses (remaining : jsstring) (it : Iteration) : Prop :=
  match it with
  | Stop _ => True
  | Next _ remaining' => consumes remaining remaining'
  | Enter _ _ _ innerHtml remaining' =>
      consumes remaining remaining' /\ length innerHtml < length remaining
  end.

(** The recursive call of a [switch] case on the tag's body, with what it
    does to the caller's counter: a call that passes [listContext] on
    leaves its counter where the body's items took it, a call with a new
    context leaves the caller's counter alone. *)
Definition parseBody (env : Env) (act : TagAction) (innerHtml : jsstring) (ltype : ListType)
  : list TextNode * nat :=
  match descent act with
  | None => ([], counterAfter act)
  | Some d =>
      match subContext d with
      | SameContext =>
          parseHtmlContent env innerHtml (subState d) (subFg d) ltype (counterAfter act)
      | NewContext t =>
          (fst (parseHtmlContent env innerHtml (subState d) (subFg d) t 0),
           counterAfter act)
      end
  end.

(** [parseHtmlContent] in terms of itself: one pass of the loop, then the
    rest of the loop. *)
Definition parseStep (env : Env) (html : jsstring) (state : StyleState) (defaultFg : jsstring)
    (ltype : ListType) (counter : nat) : list TextNode * nat :=
  match iteration env html state defaultFg with
  | Stop nodes => (nodes, counter)
  | Next nodes remaining =>
      let rest := parseHtmlContent env remaining state defaultFg ltype counter in
      (nodes ++ fst rest, snd rest)
  | Enter nodes tagName tagAttrs innerHtml remaining =>
      let act := tagAction env tagName tagAttrs state defaultFg ltype counter in
      let body := parseBody env act innerHtml ltype in
      let rest := parseHtmlContent env remaining state defaultFg ltype (snd body) in
      (nodes ++ before act ++ fst body ++ after act ++ fst rest, snd rest)
  end.

(** The texts of the runs, in order. *)
Definition texts (nodes : list TextNode) : list jsstring := map text nodes.

(** Text and attribute bits of the runs, in order. *)
Definition styledTexts (nodes : list TextNode) : list (jsstring * option N) :=
  map (fun n => (text n, attributes n)) nodes.

(** The names the [switch] has a case for. *)
Definition knownTags : list string :=
  [ "b"; "strong"; "i"; "em"; "s"; "strike"; "del"; "code"; "h1"; "h2"; "h3";
    "p"; "li"; "blockquote"; "a"; "pre"; "ul"; "ol"; "div"; "span"; "figure";
    "figcaption"; "action-text-attachment"; "img" ].

(** Every maximal run of white space replaced by one space; [inRun] says
    that the code unit before was white space. *)
Fixpoint collapseFrom (inRun : bool) (s : jsstring) : jsstring :=
  match s with
  | [] => []
  | c :: s' =>
      if isWhiteSpace c
      then if inRun then collapseFrom true s' else 32%N :: collapseFrom true s'
      else c :: collapseFrom false s'
  end.

Definition collapseWhiteSpace (s : jsstring) : jsstring := collapseFrom false s.

(** White space throughout; holding a newline. *)
Definition allWhiteSpace (s : jsstring) : bool := forallb isWhiteSpace s.
Definition hasNewline (s : jsstring) : bool := existsb (N.eqb NEWLINE) s.

(** The rule for the text before a tag: nothing for an empty segment and
    for white space that holds a newline, otherwise one run, with white
    space collapsed unless the code flag is set. *)
Definition segmentRule (env : Env) (segment : jsstring) (state : StyleState)
    (defaultFg : jsstring) : list TextNode :=
  match segment with
  | [] => []
  | _ :: _ =>
      if allWhiteSpace segment && hasNewline segment then []
      else if code state then [textNode env segment state defaultFg]
      else [textNode env (collapseWhiteSpace segment) state defaultFg]
  end.

(** The runs a pass of the loop pushes. *)
Definition pushed (it : Iteration) : list TextNode :=
  match it with
  | Stop nodes => nodes
  | Next nodes _ => nodes
  | Enter nodes _ _ _ _ => nodes
  end.

(** [q] occurs in [s] as a substring. *)
Definition occursIn (q s : jsstring) : Prop := exists a b, s = a ++ q ++ b.

(** The three escapes decoded last, and all six. *)
Definition lateEscapes : list jsstring := map js ["&quot;"; "&#39;"; "&nbsp;"].
Definition escapes : list jsstring := map js ["&lt;"; "&gt;"; "&amp;"] ++ lateEscapes.

(** [t] contains none of the texts [qs]. *)
Definition freeOf (qs : list jsstring) (t : jsstring) : Prop :=
  forall q, In q qs -> includes t q = false.

(** The link's parenthesized target and the attachment's bracketed label:
    attribute text as the markup has it, a piece of the markup itself; the
    label of an attachment without caption and file name is a fixed word. *)
Definition rawTarget (env : Env) (html : jsstring) (r : TextNode) : Prop :=
  exists href, occursIn href html
               /\ r = literal (js "(" ++ href ++ js ")") (muted env).
Definition rawLabel (env : Env) (html : jsstring) (r : TextNode) : Prop :=
  exists name, (occursIn name html \/ name = js "attachment")
               /\ r = literal (js "[" ++ name ++ js "]") (secondary env).

(** A run of decoded text: the late escapes are gone, and all six are
    unless the markup had an escaped ampersand. *)
Definition decoded (html : jsstring) (r : TextNode) : Prop :=
  freeOf lateEscapes (text r)
  /\ (includes html (js "&amp;") = false -> freeOf escapes (text r)).

(** What every run of the parser is. *)
Definition runOk (env : Env) (html : jsstring) (r : TextNode) : Prop :=
  rawTarget env html r \/ rawLabel env html r \/ decoded html r.

(** The six replacements, one after the other. *)
Definition decode1 (t : jsstring) := replaceAll (entity "&lt;") (js "<") t.
Definition decode2 (t : jsstring) := replaceAll (entity "&gt;") (js ">") (decode1 t).
Definition decode3 (t : jsstring) := replaceAll (entity "&amp;") (js "&") (decode2 t).
Definition decode4 (t : jsstring) := replaceAll (entity "&quot;") [DQUOTE] (decode3 t).
Definition decode5 (t : jsstring) := replaceAll (entity "&#39;") [SQUOTE] (decode4 t).

End HtmlSpec.

Module ImageSpec.
Import JsString Regex Html Image.





(** The name an attachment is shown under: the caption, the file name or
    the word attachment, the first of them that is not empty. *)
Definition displayName (tagAttrs : jsstring) : jsstring :=
  match attribute "caption" tagAttrs with
  | Some (c :: s) => c :: s
  | _ =>
      match attribute "filename" tagAttrs with
      | Some (c :: s) => c :: s
      | _ => js "attachment"
      end
  end.

End ImageSpec.

Module ThemeSpec.
Import JsString Regex Theme.

(** A hex digit of either case. *)
Definition isHexDigit (c : char) : bool :=
  ((48 <=? c) && (c <=? 57) || (97 <=? c) && (c <=? 102) || (65 <=? c) && (c <=? 70))%N.

(** The string without a leading hash sign. *)
Definition stripHash (hex : jsstring) : jsstring :=
  match hex with
  | x :: t => if N.eqb x 35%N then t else hex
  | [] => []
  end.

(** Six hex digits of either case, with or without a hash sign in front. *)
Definition wellFormedHex (hex : jsstring) : bool :=
  (length (stripHash hex) =? 6) && forallb isHexDigit (stripHash hex).

(** The form [rgbToHex] prints: hash sign and lower-case digits. *)
Definition canonical (hex : jsstring) : jsstring :=
  js "#" ++ asciiToLowerCase (stripHash hex).

(** The colour a malformed string reads as. *)
Definition black : Rgb := {| r := 0; g := 0; b := 0 |}.

(** The three pairs of six hex digits. *)
Definition sixDigits (s : jsstring) : option (list jsstring) :=
  match s with
  | [a; b; c; d; e; f] =>
      if forallb isHexDigit s then Some [[a; b]; [c; d]; [e; f]] else None
  | _ => None
  end.

(** Two hex digits: their value prints back as the two digits in lower
    case, which have the same value and are hex digits again. *)
Definition pairOk (x y : char) : bool :=
  if isHexDigit x && isHexDigit y then
    str_eqb (padStart2 (toString16 (parseInt16 [x; y]))) [asciiLower x; asciiLower y]
    && Z.eqb (parseInt16 [asciiLower x; asciiLower y]) (parseInt16 [x; y])
    && isHexDigit (asciiLower x) && isHexDigit (asciiLower y)
  else true.

(** The sub-table [getFizzyColor] reads: the light one when the default
    background is light, the dark one otherwise. *)
Definition selectedTable (defaultBackground : jsstring) : list (jsstring * jsstring) :=
  if isLightBackground defaultBackground then FIZZY_COLORS_LIGHT else FIZZY_COLORS_DARK.

(** The colour a sub-table has under [FIZZY_DEFAULT_VAR]. *)
Definition defaultColour (colors : list (jsstring * jsstring)) : jsstring :=
  match ownProperty colors FIZZY_DEFAULT_VAR with
  | Some v => v
  | None => []
  end.

(** The key names a property every object inherits. *)
Definition inheritedKey (key : jsstring) : bool :=
  existsb (str_eqb key) objectPrototypeKeys.

End ThemeSpec.

Set Warnings "-inexact-float".

(** ** Shades of a colour, [src/theme.ts]

    [lighten], [darken] and [mix] compute channels in binary64 and hand
    them to [rgbToHex], which rounds them and prints them in base 16. *)

Module Shades.
Import JsString Regex Html Theme.

(** What [Math.round(x)] can be.  The sign of a zero result is dropped:
    [toString] prints both zeros alike. *)
Inductive Rounded :=
| NotANumber
| Infinite (negative : bool)
| Whole (z : Z).

(** [Math.round(x)]: the nearest integer, a tie going to the one nearer
    to plus infinity.  A finite double is [m * 2^e], negated under [s];
    with [e < 0] its magnitude is [q + rest / 2^k] for [k = -e]. *)
Definition mathRound (x : float) : Rounded :=
  match Prim2SF x with
  | S754_nan => NotANumber
  | S754_infinity s => Infinite s
  | S754_zero _ => Whole 0
  | S754_finite s m e =>
      if (0 <=? e)%Z then
        let n := Z.shiftl (Zpos m) e in
        Whole (if s then - n else n)
      else
        let k := (- e)%Z in
        let q := Z.shiftr (Zpos m) k in
        let rest := (Zpos m - Z.shiftl q k)%Z in
        let unit := Z.shiftl 1 k in
        if s then Whole (- (if (unit <? 2 * rest)%Z then q + 1 else q))
        else Whole (if (unit <=? 2 * rest)%Z then q + 1 else q)
  end.

(** [v.toString(16)] for a rounded number; the digits of an integer are
    exact up to [2^53], beyond which the standard leaves them to the
    engine. *)
Definition numberToString16 (v : Rounded) : jsstring :=
  match v with
  | NotANumber => js "NaN"
  | Infinite false => js "Infinity"
  | Infinite true => js "-Infinity"
  | Whole z => toString16 z
  end.

(** [Math.min(a, b)] *)
Definition mathMin (a b : float) : float :=
  if PrimFloat.is_nan a || PrimFloat.is_nan b then nan
  else if (b <? a)%float then b
  else if (a <? b)%float then a
  else if (1 / b <? 0)%float then b else a.

(** [rgbToHex] on numbers. *)
Definition rgbToHex (r g b : float) : jsstring :=
  js "#" ++ concat (map (fun x => padStart2 (numberToString16 (mathRound x))) [r; g; b]).

(** The channel expressions of [lighten], [darken] and [mix]. *)
Definition lighterChannel (amount : float) (x : Z) : float :=
  mathMin 255 (toFloat x + (255 - toFloat x) * amount)%float.
Definition darkerChannel (amount : float) (x : Z) : float :=
  (toFloat x * amount)%float.
Definition mixedChannel (amount : float) (x y : Z) : float :=
  (toFloat x + (toFloat y - toFloat x) * amount)%float.

Definition lighten (hex : jsstring) (percent : float) : jsstring :=
  let c := hexToRgb hex in
  let amount := (percent / 100)%float in
  rgbToHex (lighterChannel amount (Theme.r c)) (lighterChannel amount (Theme.g c))
           (lighterChannel amount (Theme.b c)).

Definition darken (hex : jsstring) (percent : float) : jsstring :=
  let c := hexToRgb hex in
  let amount := (1 - percent / 100)%float in
  rgbToHex (darkerChannel amount (Theme.r c)) (darkerChannel amount (Theme.g c))
           (darkerChannel amount (Theme.b c)).

(** [mix] once its two arguments are read as colours. *)
Definition mixRgb (c1 c2 : Rgb) (percent : float) : jsstring :=
  let amount := (percent / 100)%float in
  rgbToHex (mixedChannel amount (Theme.r c1) (Theme.r c2))
           (mixedChannel amount (Theme.g c1) (Theme.g c2))
           (mixedChannel amount (Theme.b c1) (Theme.b c2)).

Definition mix (hex1 hex2 : jsstring) (percent : float) : jsstring :=
  mixRgb (hexToRgb hex1) (hexToRgb hex2) percent.

End Shades.

(** ** The palette and the [Theme] getters, [src/theme.ts] *)

Module Palette.
Import JsString Regex Html Theme Shades.

Definition FALLBACK_PALETTE : list jsstring :=
  map js [ "#1c1c1c"; "#ff5f5f"; "#5fd787"; "#ffff87"; "#5f87ff"; "#ff5faf";
           "#5fd7d7"; "#d0d0d0"; "#6c6c6c"; "#ff8787"; "#87ffaf"; "#ffffaf";
           "#87afff"; "#ff87d7"; "#87ffff"; "#ffffff" ].

(** The module's three variables. *)
Record State := {
  palette : list jsstring;
  defaultForeground : jsstring;
  defaultBackground : jsstring
}.

(** Their values when the module is loaded. *)
Definition loaded : State :=
  {| palette := FALLBACK_PALETTE;
     defaultForeground := js "#ffffff";
     defaultBackground := js "#000000" |}.

(** What [renderer.getPalette] resolves to: [null], or an object whose
    three members may each be missing and whose palette slots may be
    [null]. *)
Record Detected := {
  detectedPalette : option (list (option jsstring));
  detectedForeground : option jsstring;
  detectedBackground : option jsstring
}.

(** The outcome of the awaited call: it throws, or it answers. *)
Inductive Reply :=
| Thrown
| Answered (result : option Detected).

(** [cs.map((c, i) => c ?? FALLBACK_PALETTE[i])], [i] counted from [from]. *)
Fixpoint fillFrom (from : nat) (cs : list (option jsstring)) : list jsstring :=
  match cs with
  | [] => []
  | c :: cs' =>
      match c with
      | Some s => s
      | None => nth from FALLBACK_PALETTE []
      end :: fillFrom (S from) cs'
  end.

(** [detectPalette]: the state after the call. *)
Definition detectPalette (reply : Reply) (st : State) : State :=
  match reply with
  | Thrown => st
  | Answered None => st
  | Answered (Some result) =>
      {| palette :=
           match detectedPalette result with
           | Some p => if 16 <=? length p then fillFrom 0 (firstn 16 p) else palette st
           | None => palette st
           end;
         defaultForeground :=
           if truthy (detectedForeground result)
           then match detectedForeground result with Some f => f | None => [] end
           else defaultForeground st;
         defaultBackground :=
           if truthy (detectedBackground result)
           then match detectedBackground result with Some f => f | None => [] end
           else defaultBackground st |}
  end.

(** [array[index]] for an integer index. *)
Definition element (array : list jsstring) (index : Z) : option jsstring :=
  if (index <? 0)%Z then None else nth_error array (Z.to_nat index).

(** [color(index)] *)
Definition color (st : State) (index : Z) : jsstring :=
  match orElse (orElse (element (palette st) index) (element FALLBACK_PALETTE index))
               (Some (js "#ffffff")) with
  | Some c => c
  | None => []
  end.

(** The indices of [ANSI] the getters use. *)
Definition RED : Z := 1.
Definition GREEN : Z := 2.
Definition YELLOW : Z := 3.
Definition BLUE : Z := 4.
Definition MAGENTA : Z := 5.
Definition CYAN : Z := 6.
Definition BRIGHT_BLUE : Z := 12.
Definition BRIGHT_MAGENTA : Z := 13.
Definition BRIGHT_CYAN : Z := 14.

(** [isLightBackground(defaultBackground) ? darken(hex, percent)
                                          : lighten(hex, percent)] *)
Definition shifted (st : State) (hex : jsstring) (percent : float) : jsstring :=
  if isLightBackground (defaultBackground st)
  then darken hex percent else lighten hex percent.

(** The getters of [Theme], read in state [st]. *)
Definition isLight (st : State) : bool := isLightBackground (defaultBackground st).
Definition background (st : State) : jsstring := defaultBackground st.
Definition backgroundSubtle (st : State) : jsstring := shifted st (defaultBackground st) 5.
Definition backgroundMuted (st : State) : jsstring := shifted st (defaultBackground st) 12.
Definition text (st : State) : jsstring := defaultForeground st.
Definition textBright (st : State) : jsstring := shifted st (defaultForeground st) 10.
Definition muted (st : State) : jsstring :=
  mix (defaultForeground st) (defaultBackground st) 40.
Definition primary (st : State) : jsstring := color st MAGENTA.
Definition primaryBright (st : State) : jsstring := color st BRIGHT_MAGENTA.
Definition secondary (st : State) : jsstring := color st BLUE.
Definition secondaryBright (st : State) : jsstring := color st BRIGHT_BLUE.
Definition accent (st : State) : jsstring := color st CYAN.
Definition accentBright (st : State) : jsstring := color st BRIGHT_CYAN.
Definition success (st : State) : jsstring := color st GREEN.
Definition warning (st : State) : jsstring := color st YELLOW.
Definition error (st : State) : jsstring := color st RED.
Definition selected (st : State) : jsstring := shifted st (defaultBackground st) 15.
Definition selectedText (st : State) : jsstring := defaultForeground st.
Definition border (st : State) : jsstring :=
  mix (defaultForeground st) (defaultBackground st) 60.
Definition borderFocused (st : State) : jsstring := color st MAGENTA.

(** What [hexToRgb] reads from a value of [getFizzyColor]: the string of
    an own property; an inherited member prints as a function's source
    text or as [[object Object]], and [undefined] as its name, none of
    which [hexRegex] matches. *)
Definition valueToRgb (v : Value) : Rgb :=
  match v with
  | Str s => hexToRgb s
  | Inherited _ | Undefined => {| r := 0; g := 0; b := 0 |}
  end.

(** [getFizzyColorDimmed]: [mix(getFizzyColor(cssVar), Theme.background, 50)]. *)
Definition getFizzyColorDimmed (st : State) (cssVar : option jsstring) : jsstring :=
  mixRgb (valueToRgb (getFizzyColor (defaultBackground st) cssVar))
         (hexToRgb (background st)) 50.

End Palette.

(** Vocabulary of the properties of shades and palette. *)
Module ShadesSpec.
Import JsString Regex Html Theme ThemeSpec Shades Palette.

(** A whole percentage as a number. *)
Definition percentage (p : nat) : float := toFloat (Z.of_nat p).

(** A channel value [hexToRgb] can give. *)
Definition isByte (z : Z) : bool := ((0 <=? z) && (z <? 256))%Z.

Definition bytes (c : Rgb) : bool :=
  isByte (Theme.r c) && isByte (Theme.g c) && isByte (Theme.b c).

(** [P] on the [n] integers from [z] on, and on those from 0 below [n]. *)
Fixpoint uptoFrom (z : Z) (n : nat) (P : Z -> bool) : bool :=
  match n with
  | 0 => true
  | S k => P z && uptoFrom (Z.succ z) k P
  end.
Definition upto (n : nat) (P : Z -> bool) : bool := uptoFrom 0 n P.

(** The rounded channel is an integer from [lo] to [hi]. *)
Definition roundsWithin (lo hi : Z) (x : float) : bool :=
  match mathRound x with
  | Whole n => ((lo <=? n) && (n <=? hi))%Z
  | _ => false
  end.

(** The form [rgbToHex] prints a colour in: a hash sign and six hex
    digits, the letters among them in lower case. *)
Definition isLowerHexDigit (c : char) : bool :=
  ((48 <=? c) && (c <=? 57) || (97 <=? c) && (c <=? 102))%N.
Definition printedHex (s : jsstring) : bool :=
  match s with
  | h :: digits =>
      N.eqb h 35 && (length digits =? 6) && forallb isLowerHexDigit digits
  | [] => false
  end.

(** The integer a channel rounds to, 0 if it is none. *)
Definition rounded (x : float) : Z :=
  match mathRound x with
  | Whole n => n
  | _ => 0%Z
  end.

(** Channel by channel: [c'] lies between [c1] and [c2]. *)
Definition channelBetween (x y z : Z) : Prop :=
  (Z.min x z <= y <= Z.max x z)%Z.
Definition between (c1 c' c2 : Rgb) : Prop :=
  channelBetween (Theme.r c1) (Theme.r c') (Theme.r c2)
  /\ channelBetween (Theme.g c1) (Theme.g c') (Theme.g c2)
  /\ channelBetween (Theme.b c1) (Theme.b c') (Theme.b c2).

Definition white : Rgb := {| r := 255; g := 255; b := 255 |}.

(** The percentages [mix] is called with in the module, and its ends. *)
Definition mixPercents : list nat := [0; 40; 50; 60; 100].

(** The channel is the one its rounded shade comes back to. *)
Definition stays (shade : Z -> float) (x : Z) : bool := (rounded (shade x) =? x)%Z.

(** The shade [s] of the default background that a getter answers: a
    well-formed colour other than the background, towards black on a light
    background and towards white on a dark one. *)
Definition setsOff (st : State) (s : jsstring) : Prop :=
  let bg := hexToRgb (defaultBackground st) in
  wellFormedHex s = true
  /\ hexToRgb s <> bg
  /\ if isLight st then between {| r := 0; g := 0; b := 0 |} (hexToRgb s) bg
     else between bg (hexToRgb s) white.

(** The states the module can be in: the loaded one, and the one after a
    call of [detectPalette] from such a state. *)
Inductive reachable : State -> Prop :=
| reach_loaded : reachable loaded
| reach_detect (reply : Reply) (st : State) :
    reachable st -> reachable (detectPalette reply st).

(** A palette slot as [color] reads it: [None] when there is none or it is
    the empty string. *)
Definition slot (array : list jsstring) (index : Z) : option jsstring :=
  match element array index with
  | Some (x :: s) => Some (x :: s)
  | _ => None
  end.

(** The key [getFizzyColor] ends up reading the sub-table under: the
    requested one when the sub-table has it, the default key otherwise. *)
Definition keyRead (colors : list (jsstring * jsstring)) (cssVar : option jsstring)
  : jsstring :=
  match cssVar with
  | Some key =>
      match ownProperty colors key with
      | Some _ => key
      | None => FIZZY_DEFAULT_VAR
      end
  | None => FIZZY_DEFAULT_VAR
  end.

(** The request names no member that every object inherits. *)
Definition plainKey (cssVar : option jsstring) : Prop :=
  match cssVar with
  | Some key => inheritedKey key = false
  | None => True
  end.

End ShadesSpec.

(** Vocabulary of the properties of the tag pattern and of the runs. *)
Module TagScan.
Import JsString Regex Html HtmlSpec.

(** The longest prefix of [s] inside [p], and what is behind it. *)
Fixpoint leading (p : char -> bool) (s : jsstring) : jsstring :=
  match s with
  | c :: s' => if p c then c :: leading p s' else []
  | [] => []
  end.
Fixpoint behind (p : char -> bool) (s : jsstring) : jsstring :=
  match s with
  | c :: s' => if p c then behind p s' else s
  | [] => []
  end.

(** A code unit of a tag name: a word character or a hyphen. *)
Definition isNameChar (c : char) : bool := inRanges (wordRanges ++ [(45, 45)]%N) c.

Definition isNot (x : char) (c : char) : bool := negb (N.eqb x c).

(** The pieces of a tag match: the text before the tag, the slash of a
    closing tag, the name, the attribute text, and what follows the tag. *)
Record Tag := {
  lead : jsstring;
  slash : jsstring;
  name : jsstring;
  attrs : jsstring;
  rest : jsstring
}.

(** One pass over the string, without backtracking: the text up to the
    first [<], a slash if one follows, the longest name, the attribute text
    up to the first [>]. *)
Definition scanTag (s : jsstring) : option Tag :=
  match behind (isNot LT) s with
  | [] => None
  | _ :: afterLt =>
      let afterSlash :=
        match afterLt with
        | c :: t => if N.eqb SLASH c then t else afterLt
        | [] => []
        end in
      match leading isNameChar afterSlash with
      | [] => None
      | x :: n =>
          match behind (isNot GT) (behind isNameChar afterSlash) with
          | [] => None
          | _ :: r =>
              Some {| lead := leading (isNot LT) s;
                      slash := match afterLt with
                               | c :: _ => if N.eqb SLASH c then [SLASH] else []
                               | [] => []
                               end;
                      name := x :: n;
                      attrs := leading (isNot GT) (behind isNameChar afterSlash);
                      rest := r |}
          end
      end
  end.

(** The text of the tag itself, and the match the pattern answers. *)
Definition tagText (t : Tag) : jsstring :=
  LT :: slash t ++ name t ++ attrs t ++ [GT].
Definition matchOf (t : Tag) : Match :=
  {| index := 0;
     whole := lead t ++ tagText t;
     groups := [lead t; slash t; name t; attrs t] |}.

(** Markup that starts with the text [lead t] and the tag [t]. *)
Definition markup (t : Tag) : jsstring := lead t ++ tagText t ++ rest t.

(** The pieces are those of a tag: no [<] in the text before, a slash or
    none, a name of name characters, attribute text without [>] that does
    not go on with a name character. *)
Definition tagShaped (t : Tag) : Prop :=
  ~ In LT (lead t)
  /\ (slash t = [] \/ slash t = [SLASH])
  /\ name t <> [] /\ forallb isNameChar (name t) = true
  /\ ~ In GT (attrs t)
  /\ match attrs t with
     | c :: _ => isNameChar c = false
     | [] => True
     end.

(** The end of the tag pattern: attribute text, then [>]. *)
Definition closing : list Item := [group (star (noneOf [GT])); one (only GT)].

(** The state [st'] has every flag that [st] has. *)
Definition atLeast (st st' : StyleState) : Prop :=
  (bold st = true -> bold st' = true)
  /\ (italic st = true -> italic st' = true)
  /\ (strikethrough st = true -> strikethrough st' = true)
  /\ (code st = true -> code st' = true).

(** The texts the parser pushes as punctuation: the newline, the rule,
    the bullet, the bar of a quotation, the brackets of a link, the two
    icons, the number of a list item, the target of a link in parentheses
    and the name of an attachment in brackets. *)
Definition punctuation (t : jsstring) : Prop :=
  In t [ [NEWLINE]; [NEWLINE; 9472; 9472; 9472; NEWLINE]; [8226; 32]; [9474; 32];
         js "["; js "]"; [61501; 32]; [61638; 32] ]%N
  \/ (exists n, t = numberToString n ++ js ". ")
  \/ (exists h, t = js "(" ++ h ++ js ")")
  \/ (exists d, t = js "[" ++ d ++ js "]").

(** A run pushed while the ambient state is [st]: a run of punctuation,
    pushed with a colour only, or a run with attributes, which hold the
    bit of every flag [st] has, in the code colour if [st] has the code
    flag. *)
Definition carries (env : Env) (st : StyleState) (r : TextNode) : Prop :=
  (attributes r = None /\ punctuation (text r))
  \/ exists a, attributes r = Some a
               /\ (bold st = true -> N.lor (BOLD env) a = a)
               /\ (italic st = true -> N.lor (ITALIC env) a = a)
               /\ (strikethrough st = true -> N.lor (STRIKETHROUGH env) a = a)
               /\ (code st = true -> fg r = codeGreen).

(** The colours a run can have when the caller's default is [defaultFg]. *)
Definition palette (env : Env) (defaultFg : jsstring) : list jsstring :=
  [defaultFg; codeGreen; muted env; primary env; secondary env; accent env].

(** The runs one pass pushes for the text in front of a tag. *)
Definition leadNodes (env : Env) (t : Tag) (st : StyleState) (defaultFg : jsstring)
  : list TextNode :=
  segmentNodes env (decodeHtmlEntities (lead t)) st defaultFg.

(** The tag's name as the parser compares it. *)
Definition lowerName (env : Env) (t : Tag) : jsstring := toLowerCase env (name t).

(** The run of a line break and the run of a horizontal rule. *)
Definition lineBreak (defaultFg : jsstring) : TextNode := literal [NEWLINE] defaultFg.
Definition rule (env : Env) : TextNode :=
  literal [NEWLINE; 9472; 9472; 9472; NEWLINE]%N (muted env).

(** The parser's answer made of the runs [nodes] followed by the answer
    for [remaining]. *)
Definition thenParse (env : Env) (nodes : list TextNode) (remaining : jsstring)
    (st : StyleState) (defaultFg : jsstring) (ltype : ListType) (counter : nat)
  : list TextNode * nat :=
  let r := parseHtmlContent env remaining st defaultFg ltype counter in
  (nodes ++ fst r, snd r).

(** No closing tag of the name occurs in [remaining], as the scan of
    [findMatchingClose] compares them. *)
Definition neverClosed (env : Env) (tagName remaining : jsstring) : Prop :=
  ~ occursIn (toLowerCase env (closeTagOf tagName)) (toLowerCase env remaining).

End TagScan.

(** ** The placeholder's text, [createImagePlaceholder] in [src/helpers/image.ts] *)

Module Placeholder.
Import JsString.

(** [s.slice(0, to)] for an integer [to]: a negative [to] counts from the
    end. *)
Definition sliceTo (s : jsstring) (to : Z) : jsstring :=
  if (to <? 0)%Z then firstn (length s - Z.to_nat (- to)) s
  else firstn (Z.to_nat to) s.

(** The option [altText] with its default. *)
Definition altTextOr (altText : option jsstring) : jsstring :=
  match altText with
  | Some a => a
  | None => js "Image"
  end.

(** The constant [truncatedAlt] for a box [width] cells wide. *)
Definition truncatedAlt (altText : option jsstring) (width : Z) : jsstring :=
  let altText := altTextOr altText in
  if (width - 4 <? Z.of_nat (length altText))%Z
  then sliceTo altText (width - 7) ++ js "..."
  else altText.

End Placeholder.

(** ** The card page, [chrome-extension/content.js] *)

Module CardPage.
Import JsString Regex.

(** The patterns [\/cards\/\d+] of [isCardPage] and [\/cards\/(\d+)] of
    [getCardNumber]. *)
Definition cardTestRegex : RegExp :=
  pattern (lit (js "/cards/") ++ [plus digitClass]).
Definition cardPathRegex : RegExp :=
  pattern (lit (js "/cards/") ++ [group (plus digitClass)]).

(** [isCardPage] and [getCardNumber] for the path name [pathname]. *)
Definition isCardPage (pathname : jsstring) : bool :=
  match exec cardTestRegex pathname with
  | Some _ => true
  | None => false
  end.

Definition getCardNumber (pathname : jsstring) : option jsstring :=
  match exec cardPathRegex pathname with
  | Some m => Some (group1 m)
  | None => None
  end.

End CardPage.

(** ** Branch names of cards, [src/helpers/fizzy.ts] *)

Module Fizzy.
Import JsString Regex Html Image.

(** The class [^a-z0-9\s-]. *)
Definition notSlugClass : CharClass :=
  {| negated := true;
     ranges := [(97, 122); (48, 57)]%N ++ whiteSpaceRanges ++ [(45, 45)]%N |}.

(** [/[^a-z0-9\s-]/g] *)
Definition notSlugRegex : RegExp := pattern [one notSlugClass].

(** [/-+$/] *)
Definition trailingDashes : RegExp :=
  {| anchorStart := false;
     items := [plus (only 45%N)];
     anchorEnd := true;
     ignoreCase := false |}.

(** [s.replace(re, rep)] for a regular expression without [g]: the first
    match is replaced. *)
Definition replaceFirst (re : RegExp) (rep s : jsstring) : jsstring :=
  match exec re s with
  | Some m => firstn (index m) s ++ rep ++ skipn (index m + length (whole m)) s
  | None => s
  end.

(** The slug of a title; [toLowerCase] is the run-time's. *)
Definition slugOf (toLowerCase : jsstring -> jsstring) (title : jsstring) : jsstring :=
  replaceFirst trailingDashes []
    (slice (replaceAll spacesRegex (js "-")
              (replaceAll notSlugRegex [] (toLowerCase title))) 0 40).

(** [branchFromCard]; [title] is [card.title], [cardNumber] a card's
    number, a non-negative integer. *)
Definition branchFromCard (toLowerCase : jsstring -> jsstring) (title : jsstring)
    (cardNumber : nat) : jsstring :=
  let title := match title with [] => js "untitled" | _ :: _ => title end in
  js "card-" ++ numberToString cardNumber ++ js "-" ++ slugOf toLowerCase title.

(** The pattern [^card-(\d+)]. *)
Definition cardBranchRegex : RegExp :=
  {| anchorStart := true;
     items := lit (js "card-") ++ [group (plus digitClass)];
     anchorEnd := false;
     ignoreCase := false |}.

Definition parseCardFromBranch (branchName : jsstring) : option N :=
  match exec cardBranchRegex branchName with
  | Some m => Some (parseInt (group1 m))
  | None => None
  end.

End Fizzy.

(** ** The cache of card details, [src/helpers/fizzy.ts], and of pull
    requests, [src/helpers/github.ts] *)

Module DetailsCache.

Section Cache.
Variable Details : Type.

(** A [Map] from numbers to details: its entries in insertion order. *)
Definition Cache := list (N * Details).

Definition get (cache : Cache) (key : N) : option Details :=
  match find (fun e => N.eqb (fst e) key) cache with
  | Some e => Some (snd e)
  | None => None
  end.

Definition has (cache : Cache) (key : N) : bool :=
  match get cache key with
  | Some _ => true
  | None => false
  end.

(** [cache.set(key, value)]: the value of an entry is replaced where the
    entry is, a new entry goes to the end. *)
Fixpoint set (cache : Cache) (key : N) (value : Details) : Cache :=
  match cache with
  | [] => [(key, value)]
  | e :: cache' =>
      if N.eqb (fst e) key then (key, value) :: cache' else e :: set cache' key value
  end.

(** [fetchCardDetails] and [fetchPRDetails]: the answer and the cache
    after the call; [fetch] is what [fetchCard], or [fetchPR], answers at
    the time of the call, [None] for [null]. *)
Definition fetchDetails (fetch : N -> option Details) (cache : Cache) (number : N)
  : option Details * Cache :=
  if has cache number then (get cache number, cache)
  else
    match fetch number with
    | Some card => (Some card, set cache number card)
    | None => (None, cache)
    end.

(** [clearCardCache] and [clearPRCache] *)
Definition clear (cache : Cache) : Cache := [].

End Cache.

End DetailsCache.

(** ** Elapsed time in words, [getRelativeTime] in [src/helpers/github.ts]
    and [formatRelativeTime] of the card tile *)

Module Elapsed.
Import JsString.

(** [String(z)] for an integer. *)
Definition integerToString (z : Z) : jsstring :=
  if (z <? 0)%Z then js "-" ++ numberToString (Z.to_nat (- z))
  else numberToString (Z.to_nat z).

(** [getRelativeTime] from [diffMs] on.  The two time values are integers
    or [NaN], and [diffMs] is [None] for [NaN], which fails every
    comparison.  For a difference below 2^53 in absolute value the
    quotients under [Math.floor] round down to the quotients of integers:
    a quotient that is no integer is further from an integer than half the
    distance of two numbers of its size. *)
Definition getRelativeTime (diffMs : option Z) : jsstring :=
  match diffMs with
  | None => js "NaNmo ago"
  | Some diffMs =>
      let diffMins := (diffMs / 60000)%Z in
      let diffHours := (diffMins / 60)%Z in
      let diffDays := (diffHours / 24)%Z in
      let diffWeeks := (diffDays / 7)%Z in
      let diffMonths := (diffDays / 30)%Z in
      if (diffMins <? 1)%Z then js "just now"
      else if (diffMins <? 60)%Z then integerToString diffMins ++ js "m ago"
      else if (diffHours <? 24)%Z then integerToString diffHours ++ js "h ago"
      else if (diffDays <? 7)%Z then integerToString diffDays ++ js "d ago"
      else if (diffWeeks <? 4)%Z then integerToString diffWeeks ++ js "w ago"
      else integerToString diffMonths ++ js "mo ago"
  end.

(** [formatRelativeTime] from [diffMs] on. *)
Definition formatRelativeTime (diffMs : option Z) : jsstring :=
  match diffMs with
  | None => js "NaN YEARS AGO"
  | Some diffMs =>
      let diffDays := (diffMs / (1000 * 60 * 60 * 24))%Z in
      if (diffDays =? 0)%Z then js "TODAY"
      else if (diffDays =? 1)%Z then js "YESTERDAY"
      else if (diffDays <? 7)%Z then integerToString diffDays ++ js " DAYS AGO"
      else if (diffDays <? 30)%Z then integerToString (diffDays / 7) ++ js " WEEKS AGO"
      else if (diffDays <? 365)%Z then integerToString (diffDays / 30) ++ js " MONTHS AGO"
      else integerToString (diffDays / 365) ++ js " YEARS AGO"
  end.

End Elapsed.

(** Vocabulary of the properties of elapsed time. *)
Module ElapsedSpec.
Import JsString Elapsed.

(** A difference of two time values that a number holds exactly. *)
Definition safeDifference (diffMs : Z) : Prop := (Z.abs diffMs < 2 ^ 53)%Z.

Definition minute : Z := 60000.
Definition hour : Z := 60 * minute.
Definition day : Z := 24 * hour.

(** The label is the count [n] in front of [unit], and [n] units of
    [size] milliseconds have passed but not [n + 1]. *)
Definition counts (label : jsstring) (diffMs n : Z) (unit : string) (size : Z) : Prop :=
  label = integerToString n ++ js unit
  /\ (n * size <= diffMs < (n + 1) * size)%Z.

End ElapsedSpec.

(** Vocabulary of the properties of captured groups, slugs and numbers. *)
Module MatchSpec.
Import JsString Regex Html.

(** Each capture belongs to its item: it has at least the item's minimum
    of code units, all of them in the item's class. *)
Definition capturesFit (ic : bool) (its : list Item) (gs : list jsstring) : Prop :=
  Forall2 (fun it g => minRep it <= length g
                       /\ forallb (classMatches ic (cls it)) g = true)
          (filter captured its) gs.

Definition isDigit (c : char) : bool := inRanges [(48, 57)]%N c.
Definition isDash (c : char) : bool := N.eqb 45 c.

(** A code unit of a slug: a lower-case ASCII letter, a digit or a
    hyphen. *)
Definition isSlugChar (c : char) : bool := inRanges [(97, 122); (48, 57); (45, 45)]%N c.

(** Neither quote occurs in [s]. *)
Definition quoteFree (s : jsstring) : Prop := ~ In DQUOTE s /\ ~ In SQUOTE s.


(** The integers a number holds exactly. *)
Definition safeInteger (n : nat) : Prop := (N.of_nat n < 2 ^ 53)%N.

End MatchSpec.

(** Vocabulary of the properties of image descriptors and of slugs. *)
Module DescriptorSpec.
Import JsString Regex Html Image MatchSpec.

(** A descriptor with a URL and an alternative text, both non-empty and
    free of quotes. *)
Definition filled (img : ImageInfo) : Prop :=
  url img <> [] /\ alt img <> [] /\ quoteFree (url img) /\ quoteFree (alt img).


End DescriptorSpec.

(* ================================================================== *)
(** * Part II: properties *)
(* ================================================================== *)

(** ** Strings and the matcher *)

Module RegexFacts.
Import JsString Regex RegexSpec.

Lemma char_eqb_eq (a b : char) : char_eqb a b = true <-> a = b.
Proof. apply N.eqb_eq. Qed.

Lemma str_eqb_eq (a b : jsstring) : str_eqb a b = true <-> a = b.
Proof.
  revert b; induction a as [|x a IH]; intros [|y b]; simpl; split;
    try congruence; auto.
  - intros H. apply andb_prop in H as [Hx Hab].
    apply char_eqb_eq in Hx. apply IH in Hab. congruence.
  - intros H. injection H as -> ->.
    apply andb_true_intro. split; [apply char_eqb_eq | apply IH]; reflexivity.
Qed.

Lemma startsWith_app (p s : jsstring) : startsWith p (p ++ s) = true.
Proof.
  induction p as [|x p IH]; simpl; [reflexivity|].
  unfold char_eqb. rewrite N.eqb_refl. exact IH.
Qed.

Lemma startsWith_prefix (p s : jsstring) :
  startsWith p s = true -> exists t, s = p ++ t.
Proof.
  revert s; induction p as [|x p IH]; intros s H; simpl in *.
  - exists s. reflexivity.
  - destruct s as [|y s]; [discriminate|].
    apply andb_prop in H as [Hx Hp]. apply char_eqb_eq in Hx. subst y.
    destruct (IH _ Hp) as [t ->]. exists t. reflexivity.
Qed.

Lemma startsWith_length (p s : jsstring) :
  startsWith p s = true -> length p <= length s.
Proof.
  intros H. destruct (startsWith_prefix _ _ H) as [t ->].
  rewrite length_app. lia.
Qed.

(** A hit of [indexOfFrom] lies at or after the starting index, and the
    needle fits in what is left from there. *)
Lemma indexOfFrom_bounds (needle : jsstring) :
  forall s idx i, indexOfFrom needle idx s = Some i ->
    idx <= i /\ i + length needle <= idx + length s.
Proof.
  induction s as [|c s IH]; intros idx i H; simpl in H.
  - destruct (startsWith needle []) eqn:E; [|discriminate].
    injection H as <-. apply startsWith_length in E. simpl in *. lia.
  - destruct (startsWith needle (c :: s)) eqn:E.
    + injection H as <-. apply startsWith_length in E. simpl in *. lia.
    + apply IH in H. simpl. lia.
Qed.

(** [indexOf] with a non-empty needle never answers before [pos]. *)
Lemma indexOf_from_pos (hay needle : jsstring) (pos i : nat) :
  needle <> [] -> indexOf hay needle pos = Some i -> pos <= i.
Proof.
  intros Hne H. unfold indexOf in H.
  apply indexOfFrom_bounds in H as [Hlo Hhi].
  rewrite length_skipn in Hhi.
  destruct needle as [|c needle]; [congruence|]. simpl in Hhi. lia.
Qed.

Lemma indexOf_empty (hay : jsstring) (pos : nat) :
  indexOf hay [] pos = Some (Nat.min pos (length hay)).
Proof.
  unfold indexOf. destruct (skipn pos hay); reflexivity.
Qed.

Lemma longestRun_le (p : char -> bool) :
  forall s limit, longestRun p limit s <= length s.
Proof.
  induction s as [|c s IH]; intros limit; simpl; [lia|].
  destruct (p c); [|lia].
  destruct limit as [[|l]|]; [lia | |].
  - specialize (IH (Some l)). lia.
  - specialize (IH None). lia.
Qed.

(** What [backtrack] answers, it got from some length between the bounds. *)
Lemma backtrack_some (A : Type) (attempt : nat -> option A) (lo : nat) :
  forall k r, backtrack k lo attempt = Some r ->
    exists j, lo <= j <= k /\ attempt j = Some r.
Proof.
  induction k as [|k IH]; intros r H; simpl in H.
  - destruct (0 <? lo) eqn:E; [discriminate|].
    apply Nat.ltb_ge in E.
    destruct (attempt 0) eqn:Ea; [|discriminate].
    injection H as <-. exists 0. split; [lia | exact Ea].
  - destruct (S k <? lo) eqn:E; [discriminate|].
    apply Nat.ltb_ge in E.
    destruct (attempt (S k)) eqn:Ea.
    + injection H as <-. exists (S k). split; [lia | exact Ea].
    + destruct (IH _ H) as [j [Hj Hr]]. exists j. split; [lia | exact Hr].
Qed.

(** A match stays inside the string and is at least as long as the items'
    minimum. *)
Lemma matchItems_length (ic atEnd : bool) :
  forall its s n gs, matchItems ic its atEnd s = Some (n, gs) ->
    minLength its <= n <= length s.
Proof.
  induction its as [|it its IH]; intros s n gs H; simpl in H.
  - destruct atEnd.
    + destruct s; [|discriminate]. injection H as <- <-. simpl. lia.
    + injection H as <- <-. simpl. lia.
  - apply backtrack_some in H as [j [Hj Hr]].
    destruct (matchItems ic its atEnd (skipn j s)) as [[n' gs']|] eqn:E;
      [|discriminate].
    injection Hr as <- <-.
    apply IH in E. rewrite length_skipn in E.
    pose proof (longestRun_le (classMatches ic (cls it)) s (maxRep it)).
    simpl. lia.
Qed.

(** An anchored search answers only with a match at index 0. *)
Lemma exec_anchored (re : RegExp) (s : jsstring) (m : Match) :
  anchorStart re = true -> exec re s = Some m ->
  exists n, matchHere re s = Some (n, groups m)
            /\ index m = 0 /\ whole m = firstn n s.
Proof.
  intros Ha H. unfold exec in H.
  destruct s as [|c s]; simpl in H;
    (destruct (matchHere re _) as [[n gs]|] eqn:E;
     [ injection H as <-; exists n; simpl; auto
     | rewrite Ha in H; discriminate ]).
Qed.

Lemma longestRun_ext (p q : char -> bool) :
  (forall c, p c = q c) ->
  forall s limit, longestRun p limit s = longestRun q limit s.
Proof.
  intros Hpq. induction s as [|c s IH]; intros limit; simpl; [reflexivity|].
  rewrite Hpq. destruct (q c); [|reflexivity].
  destruct limit as [[|l]|]; [reflexivity | |]; rewrite IH; reflexivity.
Qed.

Lemma backtrack_first {A : Type} (k lo : nat) (attempt : nat -> option A) (r : A) :
  lo <= k -> attempt k = Some r -> backtrack k lo attempt = Some r.
Proof.
  intros Hle Hk. destruct k; simpl.
  - destruct lo; [|lia]. simpl. rewrite Hk. reflexivity.
  - destruct (S k <? lo) eqn:E; [apply Nat.ltb_lt in E; lia|].
    rewrite Hk. reflexivity.
Qed.

Lemma longestRun_zero (p : char -> bool) (s : jsstring) :
  longestRun p (Some 0) s = 0.
Proof. destruct s as [|c s]; simpl; [|destruct (p c)]; reflexivity. Qed.

(** The class of one code unit, without the [i] flag. *)
Lemma only_matches (x y : char) : classMatches false (only x) y = N.eqb x y.
Proof.
  unfold classMatches. simpl. rewrite !orb_false_r.
  destruct (N.eqb x y) eqn:E.
  - apply N.eqb_eq in E. subst y. rewrite N.leb_refl. reflexivity.
  - apply N.eqb_neq in E. destruct (x <=? y)%N eqn:E1; [|reflexivity].
    destruct (y <=? x)%N eqn:E2; [|reflexivity].
    apply N.leb_le in E1, E2. lia.
Qed.

(** The first [k] code units of a string are in the class when [k] is not
    beyond the longest run. *)
Lemma longestRun_prefix (p : char -> bool) :
  forall s limit k, k <= longestRun p limit s -> Forall (fun c => p c = true) (firstn k s).
Proof.
  induction s as [|c s IH]; intros limit k Hk.
  - rewrite firstn_nil. constructor.
  - destruct k as [|k]; [constructor|]. simpl in Hk.
    destruct (p c) eqn:Ec; [|lia].
    destruct limit as [[|l]|]; [lia | |]; cbn [firstn];
      (constructor; [exact Ec | eapply IH; apply le_S_n; exact Hk]).
Qed.

(** A run of at least one code unit starts at a code unit of the class. *)
Lemma longestRun_head (p : char -> bool) (limit : option nat) (s : jsstring) :
  1 <= longestRun p limit s -> exists c s', s = c :: s' /\ p c = true.
Proof.
  destruct s as [|c s']; simpl; [lia|].
  destruct (p c) eqn:Ec; [|lia]. intros _. exists c, s'. auto.
Qed.

End RegexFacts.

(** ** The parser terminates *)

Module HtmlTermination.
Import JsString Regex RegexSpec RegexFacts Html HtmlSpec.

Section Termination.
Variable env : Env.

Lemma closeTagOf_length (tagName : jsstring) :
  length (closeTagOf tagName) = 3 + length tagName.
Proof. unfold closeTagOf. rewrite !length_app. simpl. lia. Qed.

(** While the lowered closing tag is not empty, every pass of the scan
    moves [pos] forward, so [length html - pos] bounds the passes left. *)
Lemma findLoop_advances (html tagName : jsstring) :
  toLowerCase env (closeTagOf tagName) <> [] ->
  forall fuel depth pos, length html - pos < fuel ->
    exists r, findLoop env fuel html tagName depth pos = Some r.
Proof.
  intros Hne. induction fuel as [|fuel IH]; intros depth pos Hfuel; [lia|].
  cbn [findLoop].
  destruct ((0 <? depth)%Z && (pos <? length html)) eqn:Hcond; [|eauto].
  apply andb_prop in Hcond as [_ Hpos]. apply Nat.ltb_lt in Hpos.
  destruct (indexOf _ _ pos) as [nextClose|] eqn:Hidx; [|eauto].
  apply indexOf_from_pos in Hidx; [|exact Hne].
  destruct (_ =? 0)%Z; [eauto|].
  apply IH. rewrite closeTagOf_length. lia.
Qed.

(** Whatever the run-time's lower-casing does to the closing tag, the scan
    started by [findMatchingClose] comes back with an answer. *)
Lemma findLoop_returns (html tagName : jsstring) :
  exists r, findLoop env (S (length html)) html tagName 1 0 = Some r.
Proof.
  destruct (toLowerCase env (closeTagOf tagName)) as [|c lowered] eqn:Hclose.
  - (* an empty needle is found at once, in an empty segment with no
       opening tag, and the depth falls to 0 *)
    cbn [findLoop]. destruct (0 <? length html) eqn:Hlen; simpl; [|eauto].
    rewrite Hclose, indexOf_empty. simpl. eauto.
  - apply findLoop_advances; [|lia].
    rewrite Hclose. discriminate.
Qed.

Lemma tagRegex_match_length (remaining : jsstring) (m : Match) :
  exec tagRegex remaining = Some m ->
  3 <= length (whole m) <= length remaining.
Proof.
  intros H. apply exec_anchored in H as [n [Hm [_ Hw]]]; [|reflexivity].
  apply matchItems_length in Hm. change (minLength (items tagRegex)) with 3 in Hm.
  rewrite Hw, length_firstn. lia.
Qed.

Lemma consumes_shorter (remaining remaining' : jsstring) :
  consumes remaining remaining' -> length remaining' < length remaining.
Proof.
  intros [consumed [Hne ->]]. rewrite length_app.
  destruct consumed; [congruence | simpl; lia].
Qed.

Lemma skipn_consumes (k : nat) (s : jsstring) :
  0 < k -> s <> [] -> consumes s (skipn k s).
Proof.
  intros Hk Hs. exists (firstn k s). split.
  - destruct s; [congruence|]. destruct k; [lia | discriminate].
  - symmetry. apply firstn_skipn.
Qed.

Lemma iteration_progresses (remaining : jsstring) (state : StyleState) (defaultFg : jsstring) :
  progresses remaining (iteration env remaining state defaultFg).
Proof.
  unfold iteration.
  destruct (exec tagRegex remaining) as [m|] eqn:Hm; [|exact I].
  apply tagRegex_match_length in Hm.
  assert (Hs : remaining <> []) by (destruct remaining; [simpl in Hm; lia | discriminate]).
  assert (Hrest : consumes remaining (sliceFrom remaining (length (whole m)))).
  { apply skipn_consumes; [lia | exact Hs]. }
  cbv zeta.
  destruct (str_eqb _ (js "br")); [exact Hrest|].
  destruct (str_eqb _ (js "hr")); [exact Hrest|].
  destruct (str_eqb _ [SLASH]); [exact Hrest|].
  destruct (findMatchingClose _ _ _) as [closeIndex|]; [|exact Hrest].
  cbn [progresses]. unfold slice, sliceFrom. split.
  - rewrite skipn_skipn. apply skipn_consumes; [lia | exact Hs].
  - rewrite length_firstn, !length_skipn. lia.
Qed.

(** Fuel above the length of the markup is enough. *)
Lemma parseFuel_enough :
  forall fuel html state defaultFg ltype counter,
    length html < fuel ->
    exists r, parseFuel env fuel html state defaultFg ltype counter = Some r.
Proof.
  induction fuel as [|fuel IH]; intros html state defaultFg ltype counter Hfuel; [lia|].
  simpl. destruct html as [|c html']; [eauto|].
  set (html := c :: html') in *.
  pose proof (iteration_progresses html state defaultFg) as Hp.
  destruct (iteration env html state defaultFg)
    as [nodes | nodes remaining | nodes tagName tagAttrs innerHtml remaining];
    cbn [progresses] in Hp.
  - eauto.
  - apply consumes_shorter in Hp.
    destruct (IH remaining state defaultFg ltype counter) as [[rest c'] ->]; [lia|].
    eauto.
  - destruct Hp as [Hrem Hin]. apply consumes_shorter in Hrem.
    set (act := tagAction env tagName tagAttrs state defaultFg ltype counter).
    assert (Hbody : exists b,
      match descent act with
      | None => Some ([], counterAfter act)
      | Some d =>
          match subContext d with
          | SameContext =>
              parseFuel env fuel innerHtml (subState d) (subFg d) ltype (counterAfter act)
          | NewContext t =>
              match parseFuel env fuel innerHtml (subState d) (subFg d) t 0 with
              | Some (inner, _) => Some (inner, counterAfter act)
              | None => None
              end
          end
      end = Some b).
    { destruct (descent act) as [d|]; [|eauto].
      destruct (subContext d) as [|t].
      - apply IH. lia.
      - destruct (IH innerHtml (subState d) (subFg d) t 0) as [[inner c'] ->]; [lia|].
        eauto. }
    destruct Hbody as [[inner c1] ->].
    destruct (IH remaining state defaultFg ltype c1) as [[rest c2] ->]; [lia|].
    eauto.
Qed.

(** More fuel never changes an answer. *)
Lemma parseFuel_more :
  forall fuel fuel' html state defaultFg ltype counter r,
    parseFuel env fuel html state defaultFg ltype counter = Some r ->
    fuel <= fuel' ->
    parseFuel env fuel' html state defaultFg ltype counter = Some r.
Proof.
  induction fuel as [|fuel IH];
    intros fuel' html state defaultFg ltype counter r H Hle; [discriminate|].
  destruct fuel' as [|fuel']; [lia|].
  assert (Hle' : fuel <= fuel') by lia.
  simpl in *. destruct html as [|c html']; [exact H|].
  destruct (iteration env (c :: html') state defaultFg)
    as [nodes | nodes remaining | nodes tagName tagAttrs innerHtml remaining].
  - exact H.
  - destruct (parseFuel env fuel remaining _ _ _ _) as [[rest c']|] eqn:E; [|discriminate].
    rewrite (IH _ _ _ _ _ _ _ E Hle'). exact H.
  - set (act := tagAction env tagName tagAttrs state defaultFg ltype counter) in *.
    destruct (descent act) as [d|].
    + destruct (subContext d) as [|t].
      * destruct (parseFuel env fuel innerHtml _ _ _ _) as [[inner c1]|] eqn:E;
          [|discriminate].
        rewrite (IH _ _ _ _ _ _ _ E Hle').
        destruct (parseFuel env fuel remaining _ _ _ _) as [[rest c2]|] eqn:E2;
          [|discriminate].
        rewrite (IH _ _ _ _ _ _ _ E2 Hle'). exact H.
      * destruct (parseFuel env fuel innerHtml _ _ _ _) as [[inner c1]|] eqn:E;
          [|discriminate].
        rewrite (IH _ _ _ _ _ _ _ E Hle').
        destruct (parseFuel env fuel remaining _ _ _ _) as [[rest c2]|] eqn:E2;
          [|discriminate].
        rewrite (IH _ _ _ _ _ _ _ E2 Hle'). exact H.
    + destruct (parseFuel env fuel remaining _ _ _ _) as [[rest c2]|] eqn:E2;
        [|discriminate].
      rewrite (IH _ _ _ _ _ _ _ E2 Hle'). exact H.
Qed.

(** [parseHtmlContent] is the answer of every sufficient fuel. *)
Lemma parseHtmlContent_fuel (fuel : nat) (html : jsstring) (state : StyleState)
    (defaultFg : jsstring) (ltype : ListType) (counter : nat) :
  length html < fuel ->
  parseFuel env fuel html state defaultFg ltype counter
  = Some (parseHtmlContent env html state defaultFg ltype counter).
Proof.
  intros Hfuel. unfold parseHtmlContent.
  destruct (parseFuel_enough (S (length html)) html state defaultFg ltype counter)
    as [r Hr]; [lia|].
  rewrite Hr. eapply parseFuel_more; [exact Hr | lia].
Qed.

Lemma parseHtmlContent_nil (state : StyleState) (defaultFg : jsstring)
    (ltype : ListType) (counter : nat) :
  parseHtmlContent env [] state defaultFg ltype counter = ([], counter).
Proof. reflexivity. Qed.

Lemma parseHtmlContent_unfold (html : jsstring) (state : StyleState)
    (defaultFg : jsstring) (ltype : ListType) (counter : nat) :
  html <> [] ->
  parseHtmlContent env html state defaultFg ltype counter
  = parseStep env html state defaultFg ltype counter.
Proof.
  intros Hne.
  pose proof (parseHtmlContent_fuel (S (length html)) html state defaultFg ltype counter
                ltac:(lia)) as H.
  cbn [parseFuel] in H. destruct html as [|c html']; [congruence|].
  set (html := c :: html') in *.
  unfold parseStep.
  pose proof (iteration_progresses html state defaultFg) as Hp.
  destruct (iteration env html state defaultFg)
    as [nodes | nodes remaining | nodes tagName tagAttrs innerHtml remaining];
    cbn [progresses] in Hp.
  - congruence.
  - apply consumes_shorter in Hp.
    rewrite (parseHtmlContent_fuel (length html) remaining) in H by lia.
    destruct (parseHtmlContent env remaining state defaultFg ltype counter).
    cbn [fst snd]. congruence.
  - destruct Hp as [Hrem Hin]. apply consumes_shorter in Hrem.
    cbv zeta in *. unfold parseBody.
    set (act := tagAction env tagName tagAttrs state defaultFg ltype counter) in *.
    destruct (descent act) as [d|].
    + destruct (subContext d) as [|t].
      * rewrite (parseHtmlContent_fuel (length html) innerHtml) in H by lia.
        destruct (parseHtmlContent env innerHtml _ _ ltype _) as [inner c1].
        rewrite (parseHtmlContent_fuel (length html) remaining) in H by lia.
        destruct (parseHtmlContent env remaining _ _ _ _) as [rest c2].
        cbn [fst snd]. congruence.
      * rewrite (parseHtmlContent_fuel (length html) innerHtml) in H by lia.
        destruct (parseHtmlContent env innerHtml _ _ t _) as [inner c1].
        rewrite (parseHtmlContent_fuel (length html) remaining) in H by lia.
        destruct (parseHtmlContent env remaining _ _ _ _) as [rest c2].
        cbn [fst snd]. congruence.
    + rewrite (parseHtmlContent_fuel (length html) remaining) in H by lia.
      destruct (parseHtmlContent env remaining _ _ _ _) as [rest c2].
      cbn [fst snd]. congruence.
Qed.

End Termination.
End HtmlTermination.

(** ** C1: termination *)

Module ClaimTermination.
Import JsString Regex RegexFacts Html HtmlSpec HtmlTermination.

(** C1.  [parseHtmlContent] terminates on every markup string, whatever
    tags it opens or closes and however deep they nest.  The scan of
    [findMatchingClose] returns for every string and tag name; every pass of
    the parser's loop ends the loop or consumes a non-empty prefix of the
    remaining input, and the body it recurses into is strictly shorter than
    the remaining input; so the parser returns with fuel one above the
    length of the markup, and gives the same result for any fuel beyond. *)
Theorem parseHtmlContent_terminates (env : Env) (html : jsstring)
    (state : StyleState) (defaultFg : jsstring) (ltype : ListType) (counter : nat) :
  (forall h tagName,
      exists r, findLoop env (S (length h)) h tagName 1 0 = Some r)
  /\ (forall remaining st fgc,
        progresses remaining (iteration env remaining st fgc))
  /\ (forall extra,
        parseFuel env (S (length html) + extra) html state defaultFg ltype counter
        = Some (parseHtmlContent env html state defaultFg ltype counter)).
Proof.
  split; [|split].
  - intros h tagName. apply findLoop_returns.
  - intros remaining st fgc. apply iteration_progresses.
  - intros extra. apply parseHtmlContent_fuel. lia.
Qed.

End ClaimTermination.

(** ** C5: ordered-list counters *)

Module ClaimLists.
Import JsString Regex RegexFacts Html HtmlSpec HtmlTermination.

Lemma iteration_nil (env : Env) (state : StyleState) (defaultFg : jsstring) :
  iteration env [] state defaultFg = Stop [].
Proof. reflexivity. Qed.

(** A pass that reaches the [switch] started from non-empty markup. *)
Lemma enter_nonempty (env : Env) (html : jsstring) (state : StyleState)
    (defaultFg : jsstring) nodes tagName tagAttrs innerHtml remaining :
  iteration env html state defaultFg = Enter nodes tagName tagAttrs innerHtml remaining ->
  html <> [].
Proof. intros H ->. rewrite iteration_nil in H. discriminate. Qed.

Lemma tagAction_ol (env : Env) tagAttrs state defaultFg ltype counter :
  tagAction env (js "ol") tagAttrs state defaultFg ltype counter
  = {| counterAfter := counter;
       before := [];
       descent := recurse state defaultFg (NewContext ListOl);
       after := [] |}.
Proof. reflexivity. Qed.

Lemma tagAction_li_ordered (env : Env) tagAttrs state defaultFg counter :
  tagAction env (js "li") tagAttrs state defaultFg ListOl counter
  = {| counterAfter := S counter;
       before := [literal (numberToString (S counter) ++ js ". ") (accent env)];
       descent := recurse state defaultFg (NewContext ListNull);
       after := [literal [NEWLINE] defaultFg] |}.
Proof. reflexivity. Qed.

(** C5.  An [ol] tag parses its body in a new list context of type [ol]
    with counter 0 and leaves the counter of the context around it as it
    was, so what follows the list goes on with the enclosing counter; an
    [li] parsed in an ordered context with counter [n] renders [n+1]
    followed by a dot and a space, parses its own body in a context of type
    null, and leaves [n+1] to the items after it.  So the first item of
    every scope renders 1, whatever lists came before or lie around; the
    markup of two lists after one another renders 1, 2 and then 1. *)
Theorem ordered_list_scopes :
  (forall env html state defaultFg ltype counter nodes tagAttrs innerHtml remaining,
      iteration env html state defaultFg
      = Enter nodes (js "ol") tagAttrs innerHtml remaining ->
      parseHtmlContent env html state defaultFg ltype counter
      = let rest := parseHtmlContent env remaining state defaultFg ltype counter in
        (nodes
           ++ fst (parseHtmlContent env innerHtml state defaultFg ListOl 0)
           ++ fst rest,
         snd rest))
  /\ (forall env html state defaultFg counter nodes tagAttrs innerHtml remaining,
      iteration env html state defaultFg
      = Enter nodes (js "li") tagAttrs innerHtml remaining ->
      parseHtmlContent env html state defaultFg ListOl counter
      = let rest := parseHtmlContent env remaining state defaultFg ListOl (S counter) in
        (nodes
           ++ literal (numberToString (S counter) ++ js ". ") (accent env)
           :: fst (parseHtmlContent env innerHtml state defaultFg ListNull 0)
           ++ literal [NEWLINE] defaultFg
           :: fst rest,
         snd rest))
  /\ numberToString 1 = js "1"
  /\ texts (renderHtml demoEnv white
              (js "<ol><li>a</li><li>b</li></ol><ol><li>c</li></ol>"))
     = [ js "1. "; js "a"; [NEWLINE];
         js "2. "; js "b"; [NEWLINE];
         js "1. "; js "c"; [NEWLINE] ].
Proof.
  split; [|split; [|split]].
  - intros env html state defaultFg ltype counter nodes tagAttrs innerHtml remaining H.
    rewrite parseHtmlContent_unfold by (eapply enter_nonempty; exact H).
    unfold parseStep. rewrite H, tagAction_ol. reflexivity.
  - intros env html state defaultFg counter nodes tagAttrs innerHtml remaining H.
    rewrite parseHtmlContent_unfold by (eapply enter_nonempty; exact H).
    unfold parseStep. rewrite H, tagAction_li_ordered. reflexivity.
  - reflexivity.
  - vm_compute. reflexivity.
Qed.

(** The two rules of [ordered_list_scopes] at work on a list of one item
    followed by text. *)
Lemma ordered_list_scopes_witness :
  texts (fst (parseHtmlContent demoEnv (js "<ol><li>a</li></ol>z")
                               initialState white ListNull 7))
  = texts (fst (parseHtmlContent demoEnv (js "<li>a</li>") initialState white ListOl 0))
    ++ texts (fst (parseHtmlContent demoEnv (js "z") initialState white ListNull 7))
  /\ texts (fst (parseHtmlContent demoEnv (js "<li>a</li>") initialState white ListOl 0))
     = [js "1. "; js "a"; [NEWLINE]].
Proof.
  split.
  - rewrite (proj1 ordered_list_scopes demoEnv (js "<ol><li>a</li></ol>z")
               initialState white ListNull 7 [] [] (js "<li>a</li>") (js "z")
               ltac:(vm_compute; reflexivity)).
    cbv zeta. cbn [fst]. unfold texts. rewrite app_nil_l, map_app. reflexivity.
  - rewrite (proj1 (proj2 ordered_list_scopes) demoEnv (js "<li>a</li>")
               initialState white 0 [] [] (js "a") []
               ltac:(vm_compute; reflexivity)).
    vm_compute. reflexivity.
Defined.

End ClaimLists.

(** ** C3: the scan for the matching close *)

Module ClaimMatchingClose.
Import JsString Regex RegexFacts Html HtmlSpec HtmlTermination.

(** C3, at the markup [<b>x<br>y</b>].  The pattern that counts nested
    opening tags of [b] is [<b[^>]*>], which [<br>] matches as well, so the
    scan of the text after [<b>] counts one nested open before the only
    [</b>], ends at depth 1 and finds no matching close; [<b>] is dropped
    and both [x] and [y] come out without the bold bit.  A scan that counts
    opening tags of the same name only would stop at that [</b>]. *)
Theorem line_break_counted_as_bold_open :
  map whole (matchAll (openTagRegex (js "b")) (js "x<br>y")) = [js "<br>"]
  /\ findMatchingClose demoEnv (js "x<br>y</b>") (js "b") = None
  /\ findMatchingClose demoEnv (js "xy</b>") (js "b") = Some 2
  /\ styledTexts (renderHtml demoEnv white (js "<b>x<br>y</b>"))
     = [ (js "x", Some 0%N); ([NEWLINE], None); (js "y", Some 0%N) ]
  /\ styledTexts (renderHtml demoEnv white (js "<b>xy</b>"))
     = [ (js "xy", Some (BOLD demoEnv)) ].
Proof. repeat split; vm_compute; reflexivity. Qed.

End ClaimMatchingClose.

(** ** C4: unknown tags *)

Module ClaimUnknownTag.
Import JsString Regex RegexFacts Html HtmlSpec HtmlTermination ClaimLists.

(** The default case keeps style and colour and pushes nothing of its own,
    but its recursive call is made without the list context. *)
Lemma tagAction_unknown (env : Env) tagName tagAttrs state defaultFg ltype counter :
  isTag tagName knownTags = false ->
  tagAction env tagName tagAttrs state defaultFg ltype counter
  = {| counterAfter := counter;
       before := [];
       descent := recurse state defaultFg (NewContext ListNull);
       after := [] |}.
Proof.
  intros H. unfold isTag, knownTags in H. cbn [existsb] in H.
  repeat (apply orb_false_elim in H as [?E H]).
  unfold tagAction, isTag. cbn [existsb].
  repeat match goal with
         | E : str_eqb tagName _ = false |- _ => rewrite E; clear E
         end.
  reflexivity.
Qed.

(** The container case next to it passes the context on. *)
Lemma tagAction_div (env : Env) tagAttrs state defaultFg ltype counter :
  tagAction env (js "div") tagAttrs state defaultFg ltype counter
  = {| counterAfter := counter;
       before := [];
       descent := recurse state defaultFg SameContext;
       after := [] |}.
Proof. reflexivity. Qed.

(** What the parser does with an unknown tag: the runs of its body under
    the same style and colour, but in a list context of type null, between
    the runs before and after; the counter of the enclosing context stays. *)
Lemma unknown_tag_body (env : Env) (html : jsstring) (state : StyleState)
    (defaultFg : jsstring) (ltype : ListType) (counter : nat)
    nodes tagName tagAttrs innerHtml remaining :
  iteration env html state defaultFg
  = Enter nodes tagName tagAttrs innerHtml remaining ->
  isTag tagName knownTags = false ->
  parseHtmlContent env html state defaultFg ltype counter
  = let rest := parseHtmlContent env remaining state defaultFg ltype counter in
    (nodes
       ++ fst (parseHtmlContent env innerHtml state defaultFg ListNull 0)
       ++ fst rest,
     snd rest).
Proof.
  intros H Hunknown.
  rewrite parseHtmlContent_unfold by (eapply enter_nonempty; exact H).
  unfold parseStep. rewrite H, tagAction_unknown by exact Hunknown. reflexivity.
Qed.

(** C4, at the markup [<ol><section><li>a</li></section></ol>].  The
    item inside the unknown tag [section] is parsed in a new context of
    type null: it gets the bullet, not the number the same item gets
    without the wrapper or inside a [div]. *)
Theorem unknown_tag_drops_list_context :
  texts (renderHtml demoEnv white (js "<ol><section><li>a</li></section></ol>"))
  = [ [8226%N; 32%N]; js "a"; [NEWLINE] ]
  /\ texts (renderHtml demoEnv white (js "<ol><li>a</li></ol>"))
     = [ js "1. "; js "a"; [NEWLINE] ]
  /\ texts (renderHtml demoEnv white (js "<ol><div><li>a</li></div></ol>"))
     = [ js "1. "; js "a"; [NEWLINE] ].
Proof. repeat split; vm_compute; reflexivity. Qed.

End ClaimUnknownTag.

(** ** C6: the text before a tag *)

Module ClaimTextSegment.
Import JsString Regex RegexSpec RegexFacts Html HtmlSpec HtmlTermination ClaimLists.

Lemma trimStart_nil (s : jsstring) :
  trimStart s = [] <-> allWhiteSpace s = true.
Proof.
  induction s as [|c s IH]; simpl; [tauto|].
  destruct (isWhiteSpace c); simpl; [exact IH|].
  split; discriminate.
Qed.

Lemma allWhiteSpace_rev (s : jsstring) : allWhiteSpace (rev s) = allWhiteSpace s.
Proof.
  unfold allWhiteSpace. induction s as [|c s IH]; simpl; [reflexivity|].
  rewrite forallb_app, IH. simpl. rewrite andb_true_r. apply andb_comm.
Qed.

(** What [trimStart] leaves is empty or starts with a code unit that is
    not white space. *)
Lemma trimStart_head (s : jsstring) :
  match trimStart s with
  | [] => True
  | c :: _ => isWhiteSpace c = false
  end.
Proof.
  induction s as [|c s IH]; simpl; [exact I|].
  destruct (isWhiteSpace c) eqn:E; [exact IH | exact E].
Qed.

(** [s.trim() === ''] says that [s] is white space throughout. *)
Lemma trim_empty (s : jsstring) :
  str_eqb (trim s) [] = allWhiteSpace s.
Proof.
  destruct (allWhiteSpace s) eqn:E.
  - apply trimStart_nil in E. unfold trim. rewrite E. reflexivity.
  - destruct (str_eqb (trim s) []) eqn:Et; [|reflexivity].
    apply str_eqb_eq in Et. unfold trim in Et.
    apply (f_equal (@rev char)) in Et. rewrite rev_involutive in Et. simpl in Et.
    apply trimStart_nil in Et. rewrite allWhiteSpace_rev in Et.
    pose proof (trimStart_head s) as Hh.
    destruct (trimStart s) as [|c t] eqn:Es.
    + apply trimStart_nil in Es. congruence.
    + simpl in Et. rewrite Hh in Et. discriminate.
Qed.

Lemma indexOfFrom_char (c : char) :
  forall s idx,
    match indexOfFrom [c] idx s with Some _ => true | None => false end
    = existsb (N.eqb c) s.
Proof.
  induction s as [|x s IH]; intros idx; simpl; [reflexivity|].
  unfold char_eqb. destruct (N.eqb c x); simpl; [reflexivity | apply IH].
Qed.

Lemma includes_newline (s : jsstring) : includes s [NEWLINE] = hasNewline s.
Proof. unfold includes, indexOf. simpl. apply indexOfFrom_char. Qed.

Lemma spaceClass_matches (c : char) :
  classMatches false spaceClass c = isWhiteSpace c.
Proof. unfold classMatches. simpl. rewrite orb_false_r. reflexivity. Qed.

(** The pattern of one or more white-space units matches the leading run
    of white space, whole, when there is one. *)
Lemma matchHere_spaces (s : jsstring) :
  matchHere spacesRegex s
  = match longestRun isWhiteSpace None s with
    | 0 => None
    | S n => Some (S n, [])
    end.
Proof.
  unfold matchHere, spacesRegex. simpl.
  rewrite (longestRun_ext _ _ spaceClass_matches).
  destruct (longestRun isWhiteSpace None s) as [|n]; [reflexivity|].
  rewrite (backtrack_first (S n) 1 _ (S n, [])); [reflexivity | lia |].
  rewrite Nat.add_0_r. reflexivity.
Qed.

(** The replacement of the pattern by a space is the collapse of white
    space: from a position outside a run, and from the start of a run whose
    length is still to be skipped. *)
Lemma replaceFrom_spaces (s : jsstring) :
  replaceFrom spacesRegex (js " ") 0 s = collapseFrom false s
  /\ replaceFrom spacesRegex (js " ") (longestRun isWhiteSpace None s) s
     = collapseFrom true s.
Proof.
  induction s as [|c s [IH0 IHrun]].
  - split; reflexivity.
  - assert (H0 : replaceFrom spacesRegex (js " ") 0 (c :: s) = collapseFrom false (c :: s)).
    { cbn [replaceFrom]. rewrite matchHere_spaces. cbn [longestRun collapseFrom].
      destruct (isWhiteSpace c).
      - cbn [pred]. rewrite IHrun. reflexivity.
      - rewrite IH0. reflexivity. }
    split; [exact H0|].
    cbn [longestRun]. destruct (isWhiteSpace c) eqn:E.
    + cbn [replaceFrom collapseFrom]. rewrite E. exact IHrun.
    + rewrite H0. cbn [collapseFrom]. rewrite E. reflexivity.
Qed.

Lemma collapse_is_replace (s : jsstring) :
  replaceAll spacesRegex (js " ") s = collapseWhiteSpace s.
Proof. apply replaceFrom_spaces. Qed.

(** The block implements the rule. *)
Lemma segmentNodes_rule (env : Env) (segment : jsstring) (state : StyleState)
    (defaultFg : jsstring) :
  segmentNodes env segment state defaultFg = segmentRule env segment state defaultFg.
Proof.
  unfold segmentNodes, segmentRule.
  rewrite trim_empty, includes_newline, collapse_is_replace.
  destruct segment as [|c s]; [reflexivity|].
  cbn [length Nat.ltb Nat.leb andb].
  destruct (allWhiteSpace (c :: s) && hasNewline (c :: s)); cbn [negb];
    [reflexivity|].
  destruct (code state); reflexivity.
Qed.

(** A pass that finds a tag pushes the runs of the text before it first. *)
Lemma iteration_pushes_segment (env : Env) (remaining : jsstring)
    (state : StyleState) (defaultFg : jsstring) (tagMatch : Match) :
  exec tagRegex remaining = Some tagMatch ->
  exists tail,
    pushed (iteration env remaining state defaultFg)
    = segmentNodes env (decodeHtmlEntities (group1 tagMatch)) state defaultFg ++ tail.
Proof.
  intros H. unfold iteration. rewrite H. cbv zeta. fold (group1 tagMatch).
  destruct (str_eqb _ (js "br")); [eexists; reflexivity|].
  destruct (str_eqb _ (js "hr")); [eexists; reflexivity|].
  destruct (str_eqb _ [SLASH]); [exists []; symmetry; apply app_nil_r|].
  destruct (findMatchingClose _ _ _); exists []; symmetry; apply app_nil_r.
Qed.

(** The first capture of the tag pattern is the text up to the first [<]. *)
Lemma tagRegex_text_before (remaining : jsstring) (m : Match) :
  exec tagRegex remaining = Some m ->
  ~ In LT (group1 m) /\ exists rest, remaining = group1 m ++ LT :: rest.
Proof.
  intros H. apply exec_anchored in H as [n [Hm _]]; [|reflexivity].
  unfold matchHere in Hm. cbn [tagRegex items ignoreCase anchorEnd] in Hm.
  cbn [matchItems] in Hm.
  apply backtrack_some in Hm as [j [[_ Hj] Hm]].
  cbn [group star cls captured minRep maxRep] in Hm, Hj.
  match type of Hm with
  | match ?X with _ => _ end = _ => destruct X as [[n' gs']|] eqn:Hrest; [|discriminate]
  end.
  injection Hm as _ Hg. unfold group1. rewrite <- Hg. cbn [nth].
  split.
  - pose proof (longestRun_prefix _ remaining None j Hj) as Hp.
    rewrite Forall_forall in Hp. intros Hin. specialize (Hp LT Hin).
    vm_compute in Hp. discriminate.
  - apply backtrack_some in Hrest as [j1 [[Hlo Hhi] _]].
    cbn [one cls minRep maxRep] in Hlo, Hhi.
    destruct (longestRun_head _ _ _ (Nat.le_trans _ _ _ Hlo Hhi)) as [c [s' [Hs Hc]]].
    exists s'. rewrite <- (firstn_skipn j remaining) at 1. rewrite Hs.
    rewrite only_matches in Hc. apply N.eqb_eq in Hc. subst c. reflexivity.
Qed.

(** C6 as the code has it.  The text before a tag is the remaining input
    up to its first [<].  Entity-decoded, it is pushed as one run unless it
    is empty or is white space that contains a newline; white space without
    a newline is pushed like any other text.  The run's text is the segment
    with every run of white space collapsed to one space, or the segment as
    it is when the style state has the code flag; and these runs come first
    among those the pass pushes. *)
Theorem text_before_tag (env : Env) (remaining : jsstring) (state : StyleState)
    (defaultFg : jsstring) (tagMatch : Match) :
  exec tagRegex remaining = Some tagMatch ->
  let segment := decodeHtmlEntities (group1 tagMatch) in
  (~ In LT (group1 tagMatch)
   /\ exists rest, remaining = group1 tagMatch ++ LT :: rest)
  /\ segmentNodes env segment state defaultFg
     = match segment with
       | [] => []
       | _ :: _ =>
           if allWhiteSpace segment && hasNewline segment then []
           else if code state then [textNode env segment state defaultFg]
           else [textNode env (collapseWhiteSpace segment) state defaultFg]
       end
  /\ exists tail,
       pushed (iteration env remaining state defaultFg)
       = segmentNodes env segment state defaultFg ++ tail.
Proof.
  intros H segment. split; [|split].
  - apply tagRegex_text_before. exact H.
  - apply segmentNodes_rule.
  - apply iteration_pushes_segment. exact H.
Qed.

Lemma text_before_tag_witness :
  (~ In LT (js "a  b") /\ exists rest, js "a  b<br>" = js "a  b" ++ LT :: rest)
  /\ segmentNodes demoEnv (js "a  b") initialState white
     = [textNode demoEnv (js "a b") initialState white]
  /\ exists tail,
       pushed (iteration demoEnv (js "a  b<br>") initialState white)
       = segmentNodes demoEnv (js "a  b") initialState white ++ tail.
Proof.
  apply (text_before_tag demoEnv (js "a  b<br>") initialState white
           {| index := 0; whole := js "a  b<br>";
              groups := [js "a  b"; []; js "br"; []] |}).
  vm_compute. reflexivity.
Defined.

(** C6 as stated fails at the markup [<b>a</b> <i>b</i>]: the space between
    the two tags is white space only and is pushed as a run. *)
Lemma inline_space_is_emitted :
  allWhiteSpace (js " ") = true
  /\ segmentNodes demoEnv (js " ") initialState white
     = [textNode demoEnv (js " ") initialState white]
  /\ texts (renderHtml demoEnv white (js "<b>a</b> <i>b</i>"))
     = [js "a"; js " "; js "b"].
Proof. repeat split; vm_compute; reflexivity. Qed.

End ClaimTextSegment.

(** ** Replacement and occurrences *)

Module ReplaceFacts.
Import JsString Regex RegexFacts Html HtmlSpec.

Lemma occursIn_nil (s : jsstring) : occursIn [] s.
Proof. exists [], s. reflexivity. Qed.

Lemma occursIn_cons (q : jsstring) (x : char) (s : jsstring) :
  occursIn q (x :: s) <-> startsWith q (x :: s) = true \/ occursIn q s.
Proof.
  split.
  - intros [[|y a] [b H]].
    + left. simpl in H. rewrite H. apply startsWith_app.
    + right. injection H as _ H. exists a, b. exact H.
  - intros [H | [a [b H]]].
    + apply startsWith_prefix in H as [t H]. exists [], t. exact H.
    + exists (x :: a), b. simpl. rewrite H. reflexivity.
Qed.

Lemma occursIn_in_nil (q : jsstring) : occursIn q [] -> q = [].
Proof.
  intros [a [b H]]. symmetry in H.
  apply app_eq_nil in H as [_ H]. apply app_eq_nil in H as [H _]. exact H.
Qed.

Lemma occursIn_trans (q s t : jsstring) : occursIn q s -> occursIn s t -> occursIn q t.
Proof.
  intros [a [b ->]] [a' [b' ->]]. exists (a' ++ a), (b ++ b').
  rewrite <- !app_assoc. reflexivity.
Qed.

Lemma occursIn_skipn (k : nat) (s : jsstring) : occursIn (skipn k s) s.
Proof. exists (firstn k s), []. rewrite app_nil_r. symmetry. apply firstn_skipn. Qed.

Lemma occursIn_firstn (k : nat) (s : jsstring) : occursIn (firstn k s) s.
Proof. exists [], (skipn k s). symmetry. apply firstn_skipn. Qed.

Lemma occursIn_start (q s : jsstring) : startsWith q s = true -> occursIn q s.
Proof. intros H. apply startsWith_prefix in H as [t ->]. exists [], t. reflexivity. Qed.

Lemma indexOfFrom_occurs (q : jsstring) :
  forall s idx,
    match indexOfFrom q idx s with Some _ => True | None => False end <-> occursIn q s.
Proof.
  induction s as [|x s IH]; intros idx; simpl.
  - destruct (startsWith q []) eqn:E.
    + split; [intros _; apply occursIn_start; exact E | tauto].
    + split; [tauto|]. intros H. apply occursIn_in_nil in H. subst q. discriminate.
  - destruct (startsWith q (x :: s)) eqn:E.
    + split; [intros _; apply occursIn_start; exact E | tauto].
    + rewrite IH, occursIn_cons. rewrite E. split; [tauto|].
      intros [H|H]; [discriminate | exact H].
Qed.

(** [s.includes(q)] decides [occursIn q s]. *)
Lemma includes_occurs (s q : jsstring) : includes s q = true <-> occursIn q s.
Proof.
  unfold includes, indexOf. simpl. rewrite <- (indexOfFrom_occurs q s 0).
  destruct (indexOfFrom q 0 s); split; auto; discriminate.
Qed.

Lemma includes_absent (s q : jsstring) : includes s q = false <-> ~ occursIn q s.
Proof.
  rewrite <- includes_occurs. destruct (includes s q); split; congruence.
Qed.

Section OneCharReplacement.
(** Replacement of the matches of any pattern by the single code unit [c]. *)
Variable re : RegExp.
Variable c : char.

Lemma starts_with_replacement (q t : jsstring) :
  ~ In c q -> startsWith q (c :: t) = true -> q = [].
Proof.
  intros Hc H. destruct q as [|y q']; [reflexivity|]. simpl in H.
  apply andb_prop in H as [H _]. apply char_eqb_eq in H. subst y.
  exfalso. apply Hc. left. reflexivity.
Qed.

(** A text without [c] that starts the result starts the input there. *)
Lemma replaceFrom_startsWith :
  forall s q k, ~ In c q ->
    startsWith q (replaceFrom re [c] k s) = true ->
    startsWith q (skipn k s) = true.
Proof.
  induction s as [|x s IH]; intros q k Hc H.
  - destruct k; simpl in *.
    + destruct (matchHere re []) as [[n gs]|]; [|exact H].
      simpl in H. rewrite (starts_with_replacement q _ Hc H). reflexivity.
    + exact H.
  - destruct k as [|k]; cbn [replaceFrom skipn] in *.
    + destruct (matchHere re (x :: s)) as [[n gs]|].
      * simpl in H. rewrite (starts_with_replacement q _ Hc H). reflexivity.
      * destruct q as [|y q']; [reflexivity|]. simpl in *.
        apply andb_prop in H as [Hy H]. rewrite Hy. simpl.
        apply (IH q' 0); [|exact H].
        intros Hin. apply Hc. right. exact Hin.
    + apply IH; assumption.
Qed.

(** A text without [c] that occurs in the result occurs in the input. *)
Lemma replaceFrom_occurs (q : jsstring) :
  ~ In c q ->
  forall s k, occursIn q (replaceFrom re [c] k s) -> occursIn q (skipn k s).
Proof.
  intros Hc.
  induction s as [|x s IH]; intros k H.
  - destruct k; simpl in *.
    + destruct (matchHere re []) as [[n gs]|].
      * simpl in H. apply occursIn_cons in H as [H|H].
        -- rewrite (starts_with_replacement q _ Hc H). apply occursIn_nil.
        -- exact H.
      * exact H.
    + exact H.
  - destruct k as [|k]; cbn [skipn].
    + pose proof (replaceFrom_startsWith (x :: s) q 0 Hc) as Hs.
      cbn [replaceFrom skipn] in H, Hs.
      destruct (matchHere re (x :: s)) as [[n gs]|].
      * simpl in H. apply occursIn_cons in H as [H|H].
        { rewrite (starts_with_replacement q _ Hc H). apply occursIn_nil. }
        destruct n as [|n].
        -- apply occursIn_cons in H as [H|H].
           ++ apply occursIn_cons. left.
              destruct q as [|y q']; [reflexivity|]. simpl in *.
              apply andb_prop in H as [Hy H]. rewrite Hy. simpl.
              apply (replaceFrom_startsWith s q' 0); [|exact H].
              intros Hin. apply Hc. right. exact Hin.
           ++ apply occursIn_cons. right. apply (IH 0). exact H.
        -- apply occursIn_cons. right.
           eapply occursIn_trans; [apply (IH n); exact H | apply occursIn_skipn].
      * apply occursIn_cons in H as [H|H].
        -- apply occursIn_cons. left. apply Hs. exact H.
        -- apply occursIn_cons. right. apply (IH 0). exact H.
    + cbn [replaceFrom] in H. apply IH. exact H.
Qed.

Lemma replaceAll_occurs (q s : jsstring) :
  ~ In c q -> occursIn q (replaceAll re [c] s) -> occursIn q s.
Proof. intros Hc H. apply (replaceFrom_occurs q Hc s 0). exact H. Qed.

End OneCharReplacement.

(** Matching a literal pattern is [startsWith]. *)
Lemma matchItems_lit (e : jsstring) :
  forall s, matchItems false (lit e) false s
            = if startsWith e s then Some (length e, []) else None.
Proof.
  induction e as [|x e IH]; intros s; [reflexivity|].
  cbn [lit map matchItems cls one maxRep minRep captured startsWith].
  rewrite (longestRun_ext _ _ (only_matches x)).
  destruct s as [|y s]; [reflexivity|].
  cbn [longestRun]. unfold char_eqb.
  destruct (N.eqb x y); [|reflexivity].
  rewrite longestRun_zero. cbn [backtrack Nat.ltb Nat.leb skipn andb].
  fold (lit e). rewrite IH.
  destruct (startsWith e s); reflexivity.
Qed.

Lemma matchHere_entity (name : string) (s : jsstring) :
  matchHere (entity name) s
  = if startsWith (js name) s then Some (length (js name), []) else None.
Proof. apply matchItems_lit. Qed.

Section LiteralReplacement.
(** Replacement of the literal text [e] by the single code unit [c] that
    does not occur in [e]. *)
Variable name : string.
Variable c : char.
Hypothesis entity_nonempty : js name <> [].
Hypothesis fresh : ~ In c (js name).

Lemma replaceFrom_removes :
  forall s k, ~ occursIn (js name) (replaceFrom (entity name) [c] k s).
Proof.
  assert (Hhead : forall t, startsWith (js name) (c :: t) = false).
  { intros t. destruct (js name) as [|y q'] eqn:Eq; [congruence|]. simpl.
    destruct (char_eqb y c) eqn:E; [|reflexivity].
    apply char_eqb_eq in E. subst y. exfalso. apply fresh. left. reflexivity. }
  induction s as [|x s IH]; intros k H.
  - destruct k; simpl in H.
    + rewrite matchHere_entity in H.
      destruct (startsWith (js name) []) eqn:E.
      * apply startsWith_length in E. destruct (js name); [congruence | simpl in E; lia].
      * apply occursIn_in_nil in H. congruence.
    + apply occursIn_in_nil in H. congruence.
  - destruct k as [|k]; cbn [replaceFrom] in H.
    + pose proof (replaceFrom_startsWith (entity name) c (x :: s) (js name) 0 fresh) as Hs.
      cbn [replaceFrom skipn] in Hs.
      rewrite matchHere_entity in H, Hs.
      destruct (startsWith (js name) (x :: s)) eqn:E.
      * simpl in H. apply occursIn_cons in H as [H|H].
        -- rewrite Hhead in H. discriminate.
        -- destruct (length (js name)) as [|n] eqn:El.
           ++ destruct (js name); [congruence | discriminate].
           ++ exact (IH n H).
      * apply occursIn_cons in H as [H|H].
        -- apply Hs in H. congruence.
        -- exact (IH 0 H).
    + exact (IH k H).
Qed.

(** After the replacement the escape is gone. *)
Lemma replaceAll_removes (s : jsstring) :
  ~ occursIn (js name) (replaceAll (entity name) [c] s).
Proof. apply replaceFrom_removes. Qed.

End LiteralReplacement.

(** Where the escape does not occur, its replacement changes nothing. *)
Lemma replaceAll_absent (name : string) (rep s : jsstring) :
  ~ occursIn (js name) s -> replaceAll (entity name) rep s = s.
Proof.
  unfold replaceAll. induction s as [|x s IH]; intros H.
  - simpl. rewrite matchHere_entity.
    destruct (startsWith (js name) []) eqn:E; [|reflexivity].
    exfalso. apply H. apply occursIn_start. exact E.
  - cbn [replaceFrom]. rewrite matchHere_entity.
    destruct (startsWith (js name) (x :: s)) eqn:E.
    + exfalso. apply H. apply occursIn_start. exact E.
    + rewrite IH; [reflexivity|].
      intros Ho. apply H. apply occursIn_cons. right. exact Ho.
Qed.

End ReplaceFacts.

(** ** C2: entity escapes in the runs *)

Module ClaimEntities.
Import JsString Regex RegexFacts Html HtmlSpec HtmlTermination ClaimLists ClaimTextSegment ReplaceFacts.

Lemma not_in_by_eval (c : char) (q : jsstring) :
  existsb (N.eqb c) q = false -> ~ In c q.
Proof.
  intros H Hin. assert (existsb (N.eqb c) q = true); [|congruence].
  apply existsb_exists. exists c. split; [exact Hin | apply N.eqb_refl].
Qed.

Ltac fresh_char := apply not_in_by_eval; reflexivity.

Lemma entity_nonempty_by_eval (name : string) :
  match js name with [] => false | _ :: _ => true end = true -> js name <> [].
Proof. destruct (js name); [discriminate | intros _; discriminate]. Qed.

Ltac nonempty := apply entity_nonempty_by_eval; reflexivity.

Lemma decode_steps (t : jsstring) :
  decodeHtmlEntities t = replaceAll (entity "&nbsp;") (js " ") (decode5 t).
Proof. reflexivity. Qed.

(** [&quot;], [&#39;] and [&nbsp;] never survive decoding. *)
Lemma decode_removes_late (t q : jsstring) :
  In q lateEscapes -> ~ occursIn q (decodeHtmlEntities t).
Proof.
  rewrite decode_steps. unfold lateEscapes. simpl.
  intros [<- | [<- | [<- | []]]] H.
  - apply replaceAll_occurs in H; [|fresh_char].
    unfold decode5 in H. apply replaceAll_occurs in H; [|fresh_char].
    revert H. apply replaceAll_removes; [nonempty | fresh_char].
  - apply replaceAll_occurs in H; [|fresh_char].
    revert H. apply replaceAll_removes; [nonempty | fresh_char].
  - revert H. apply (replaceAll_removes "&nbsp;" 32%N); [nonempty | fresh_char].
Qed.

(** Without an escaped ampersand in the text, no escape survives. *)
Lemma decode_removes_all (t q : jsstring) :
  ~ occursIn (js "&amp;") t ->
  In q escapes -> ~ occursIn q (decodeHtmlEntities t).
Proof.
  intros Hamp Hq.
  assert (H1 : ~ occursIn (js "&amp;") (decode1 t)).
  { intros H. apply Hamp. apply replaceAll_occurs in H; [exact H | fresh_char]. }
  assert (H2 : ~ occursIn (js "&amp;") (decode2 t)).
  { intros H. apply H1. apply replaceAll_occurs in H; [exact H | fresh_char]. }
  assert (H3 : decode3 t = decode2 t) by (apply replaceAll_absent; exact H2).
  unfold escapes in Hq. apply in_app_or in Hq as [Hq | Hq];
    [|apply decode_removes_late; exact Hq].
  rewrite decode_steps. unfold decode5, decode4. rewrite H3.
  simpl in Hq. destruct Hq as [<- | [<- | [<- | []]]]; intros H;
    (apply replaceAll_occurs in H; [|fresh_char]);
    (apply replaceAll_occurs in H; [|fresh_char]);
    (apply replaceAll_occurs in H; [|fresh_char]).
  - unfold decode2 in H. apply replaceAll_occurs in H; [|fresh_char].
    revert H. apply replaceAll_removes; [nonempty | fresh_char].
  - revert H. apply replaceAll_removes; [nonempty | fresh_char].
  - exact (H2 H).
Qed.

(** Collapsing white space brings no escape in. *)
Lemma collapse_keeps_free (t q : jsstring) :
  In q escapes -> ~ occursIn q t -> ~ occursIn q (replaceAll spacesRegex (js " ") t).
Proof.
  intros Hq Hfree H. apply Hfree.
  apply replaceAll_occurs in H; [exact H|].
  unfold escapes, lateEscapes in Hq. simpl in Hq.
  destruct Hq as [<- | [<- | [<- | [<- | [<- | [<- | []]]]]]]; fresh_char.
Qed.

Lemma late_is_escape (q : jsstring) : In q lateEscapes -> In q escapes.
Proof. intros H. unfold escapes. apply in_or_app. right. exact H. Qed.

(** A run made from decoded text of a piece of the markup. *)
Lemma decoded_text (env : Env) (html piece : jsstring) (state : StyleState)
    (defaultFg : jsstring) (collapse : bool) :
  occursIn piece html ->
  decoded html
    (textNode env
       (if collapse then replaceAll spacesRegex (js " ") (decodeHtmlEntities piece)
        else decodeHtmlEntities piece)
       state defaultFg).
Proof.
  intros Hpiece. split; cbn [text textNode].
  - intros q Hq. apply includes_absent.
    destruct collapse.
    + apply collapse_keeps_free; [apply late_is_escape; exact Hq|].
      apply decode_removes_late. exact Hq.
    + apply decode_removes_late. exact Hq.
  - intros Hamp q Hq. apply includes_absent.
    assert (Hp : ~ occursIn (js "&amp;") piece).
    { intros H. apply includes_absent in Hamp. apply Hamp.
      eapply occursIn_trans; eassumption. }
    destruct collapse.
    + apply collapse_keeps_free; [exact Hq|]. apply decode_removes_all; assumption.
    + apply decode_removes_all; assumption.
Qed.

(** An escape holds an ampersand, so a text without one is free of all. *)
Lemma no_ampersand_free (t : jsstring) :
  ~ In 38%N t -> freeOf escapes t.
Proof.
  intros Hno q Hq. apply includes_absent. intros [a [b ->]].
  apply Hno. apply in_or_app. right. apply in_or_app. left.
  unfold escapes, lateEscapes in Hq. simpl in Hq.
  destruct Hq as [<- | [<- | [<- | [<- | [<- | [<- | []]]]]]]; left; reflexivity.
Qed.

(** A fixed run, or any run whose text has no ampersand. *)
Lemma plain_decoded (html t fgc : jsstring) :
  ~ In 38%N t -> decoded html (literal t fgc).
Proof.
  intros H. pose proof (no_ampersand_free t H) as Hfree. split.
  - intros q Hq. apply Hfree. apply late_is_escape. exact Hq.
  - intros _. exact Hfree.
Qed.

Lemma digits_no_ampersand (d : Decimal.uint) : ~ In 38%N (digitsOfUint d).
Proof.
  induction d; simpl; try tauto;
    intros [H | H]; try discriminate; apply IHd; exact H.
Qed.

Lemma counter_no_ampersand (n : nat) : ~ In 38%N (numberToString n ++ js ". ").
Proof.
  intros H. apply in_app_or in H as [H | H].
  - exact (digits_no_ampersand _ H).
  - revert H. fresh_char.
Qed.

(** Every capture of a match is a piece of the text matched. *)
Lemma matchItems_groups_occur (ic atEnd : bool) :
  forall its s n gs, matchItems ic its atEnd s = Some (n, gs) ->
    Forall (fun g => occursIn g s) gs.
Proof.
  induction its as [|it its IH]; intros s n gs H; simpl in H.
  - destruct atEnd; [destruct s; [|discriminate]|]; injection H as <- <-; constructor.
  - apply backtrack_some in H as [j [_ Hr]].
    destruct (matchItems ic its atEnd (skipn j s)) as [[n' gs']|] eqn:E; [|discriminate].
    injection Hr as <- <-. apply IH in E.
    assert (Hrest : Forall (fun g => occursIn g s) gs').
    { eapply Forall_impl; [|exact E]. intros g Hg.
      eapply occursIn_trans; [exact Hg | apply occursIn_skipn]. }
    destruct (captured it); [constructor; [apply occursIn_firstn | exact Hrest] | exact Hrest].
Qed.

Lemma tagRegex_group_occurs (remaining : jsstring) (m : Match) (i : nat) :
  exec tagRegex remaining = Some m -> occursIn (nth i (groups m) []) remaining.
Proof.
  intros H. apply exec_anchored in H as [n [Hm _]]; [|reflexivity].
  apply matchItems_groups_occur in Hm.
  destruct (nth_in_or_default i (groups m) []) as [Hin | ->].
  - rewrite Forall_forall in Hm. apply Hm. exact Hin.
  - apply occursIn_nil.
Qed.

Lemma occursIn_refl (s : jsstring) : occursIn s s.
Proof. exists [], []. rewrite app_nil_r. reflexivity. Qed.

(** What holds of a run for a piece of the markup holds for the markup. *)
Lemma decoded_mono (piece html : jsstring) (r : TextNode) :
  occursIn piece html -> decoded piece r -> decoded html r.
Proof.
  intros Hpiece [Hlate Hall]. split; [exact Hlate|].
  intros Hamp. apply Hall. apply includes_absent. intros H.
  apply includes_absent in Hamp. apply Hamp.
  eapply occursIn_trans; eassumption.
Qed.

Lemma runOk_mono (env : Env) (piece html : jsstring) (r : TextNode) :
  occursIn piece html -> runOk env piece r -> runOk env html r.
Proof.
  intros Hpiece [[href [Ho H]] | [[name [Ho H]] | H]].
  - left. exists href. split; [eapply occursIn_trans; eassumption | exact H].
  - right; left. exists name. split; [|exact H].
    destruct Ho as [Ho | Ho]; [left; eapply occursIn_trans; eassumption | right; exact Ho].
  - right; right. eapply decoded_mono; eassumption.
Qed.

(** Every capture of a search is a piece of the text searched. *)
Lemma searchFrom_groups_occur (re : RegExp) :
  forall s idx m, searchFrom re idx s = Some m ->
    Forall (fun g => occursIn g s) (groups m).
Proof.
  induction s as [|x s IH]; intros idx m H; simpl in H.
  - destruct (matchHere re []) as [[n gs]|] eqn:E.
    + injection H as <-. apply matchItems_groups_occur in E. exact E.
    + destruct (anchorStart re); discriminate.
  - destruct (matchHere re (x :: s)) as [[n gs]|] eqn:E.
    + injection H as <-. apply matchItems_groups_occur in E. exact E.
    + destruct (anchorStart re); [discriminate|].
      apply IH in H. eapply Forall_impl; [|exact H].
      intros g [a [b ->]]. exists (x :: a), b. reflexivity.
Qed.

(** An attribute value is a piece of the attribute text. *)
Lemma attribute_occurs (name : string) (attrs v : jsstring) :
  attribute name attrs = Some v -> occursIn v attrs.
Proof.
  unfold attribute, exec, group1.
  destruct (searchFrom (attributeRegex name) 0 attrs) as [m|] eqn:E; [|discriminate].
  intros H. injection H as <-.
  apply searchFrom_groups_occur in E.
  destruct (nth_in_or_default 0 (groups m) []) as [Hin | ->].
  - rewrite Forall_forall in E. apply E. exact Hin.
  - apply occursIn_nil.
Qed.

Lemma segmentNodes_decoded (env : Env) (html piece : jsstring) (state : StyleState)
    (defaultFg : jsstring) :
  occursIn piece html ->
  Forall (decoded html) (segmentNodes env (decodeHtmlEntities piece) state defaultFg).
Proof.
  intros Hpiece. unfold segmentNodes. cbv zeta.
  destruct (_ && negb _); [|constructor].
  constructor; [|constructor].
  destruct (code state).
  - exact (decoded_text env html piece state defaultFg false Hpiece).
  - exact (decoded_text env html piece state defaultFg true Hpiece).
Qed.

(** The runs one pass pushes are decoded text or fixed runs. *)
Lemma iteration_pushes_decoded (env : Env) (remaining : jsstring)
    (state : StyleState) (defaultFg : jsstring) :
  Forall (decoded remaining) (pushed (iteration env remaining state defaultFg)).
Proof.
  unfold iteration.
  destruct (exec tagRegex remaining) as [m|] eqn:Hm.
  - pose proof (segmentNodes_decoded env remaining _ state defaultFg
                  (tagRegex_group_occurs remaining m 0 Hm)) as Hseg.
    cbv zeta.
    destruct (str_eqb _ (js "br")); [|destruct (str_eqb _ (js "hr"));
      [|destruct (str_eqb _ [SLASH]); [|destruct (findMatchingClose _ _ _)]]];
      cbn [pushed]; try exact Hseg;
      (apply Forall_app; split; [exact Hseg|]; constructor; [|constructor];
       apply plain_decoded; fresh_char).
  - cbv zeta. cbn [pushed].
    destruct (0 <? length _); [|constructor].
    constructor; [|constructor].
    exact (decoded_text env remaining remaining state defaultFg false
             (occursIn_refl remaining)).
Qed.

Ltac fixed_run := right; right; apply plain_decoded; fresh_char.

Lemma orElse_cases (a b : option jsstring) :
  (truthy a = true /\ orElse a b = a) \/ (truthy a = false /\ orElse a b = b).
Proof. unfold orElse. destruct (truthy a); [left | right]; split; reflexivity. Qed.

(** The runs a [switch] case pushes by itself: fixed runs, the counter, the
    link's target and the attachment's label. *)
Lemma attachmentNodes_ok (env : Env) (html tagAttrs defaultFg : jsstring) :
  occursIn tagAttrs html ->
  Forall (runOk env html) (attachmentNodes env tagAttrs defaultFg).
Proof.
  intros Hattrs. unfold attachmentNodes. cbv zeta.
  set (name := match orElse _ _ with Some d => d | None => [] end).
  assert (Hname : occursIn name html \/ name = js "attachment").
  { subst name.
    assert (Hattr : forall n v, attribute n tagAttrs = Some v -> occursIn v html).
    { intros n v Hv. eapply occursIn_trans; [eapply attribute_occurs; exact Hv | exact Hattrs]. }
    destruct (orElse_cases (attribute "caption" tagAttrs) (attribute "filename" tagAttrs))
      as [[Hc ->] | [Hc ->]].
    - destruct (orElse_cases (attribute "caption" tagAttrs) (Some (js "attachment")))
        as [[_ ->] | [Hc' _]]; [|congruence].
      destruct (attribute "caption" tagAttrs) as [v|] eqn:Ev; [|discriminate].
      left. exact (Hattr _ _ Ev).
    - destruct (orElse_cases (attribute "filename" tagAttrs) (Some (js "attachment")))
        as [[_ ->] | [_ ->]]; [|right; reflexivity].
      destruct (attribute "filename" tagAttrs) as [v|] eqn:Ev;
        [left; exact (Hattr _ _ Ev) | left; apply occursIn_nil]. }
  assert (Hlabel : forall icon, icon <> 38%N ->
    Forall (runOk env html)
      [ literal [NEWLINE] defaultFg; literal [icon; 32%N] (accent env);
        literal (js "[" ++ name ++ js "]") (secondary env);
        literal [NEWLINE] defaultFg ]).
  { intros icon Hicon.
    apply Forall_cons; [fixed_run|].
    apply Forall_cons.
    { right; right. apply plain_decoded.
      intros [H | [H | []]]; [congruence | discriminate]. }
    apply Forall_cons; [right; left; exists name; split; [exact Hname | reflexivity]|].
    apply Forall_cons; [fixed_run | apply Forall_nil]. }
  destruct (_ && optStartsWith "image/" _); [constructor|].
  destruct (_ && optStartsWith "video/" _); [apply Hlabel; discriminate|].
  destruct (truthy _); [apply Hlabel; discriminate | constructor].
Qed.

Lemma tagAction_ok (env : Env) (html tagName tagAttrs : jsstring)
    (state : StyleState) (defaultFg : jsstring) (ltype : ListType) (counter : nat) :
  occursIn tagAttrs html ->
  let act := tagAction env tagName tagAttrs state defaultFg ltype counter in
  Forall (runOk env html) (before act) /\ Forall (runOk env html) (after act).
Proof.
  intros Hattrs.
  assert (Hnl : runOk env html (literal [NEWLINE] defaultFg)) by fixed_run.
  unfold tagAction. cbv zeta.
  repeat match goal with
         | |- context [if isTag tagName ?names then _ else _] =>
             destruct (isTag tagName names)
         end;
    try (cbn [before after]; split;
         repeat (apply Forall_cons; [first [exact Hnl | fixed_run]|]);
         apply Forall_nil).
  - (* li *)
    destruct ltype; cbn [before after]; split;
      repeat (apply Forall_cons; [first [exact Hnl | fixed_run]|]);
      try apply Forall_nil.
    apply Forall_cons; [|apply Forall_nil].
    right; right. apply plain_decoded. apply counter_no_ampersand.
  - (* a *)
    cbn [before after]. split.
    + apply Forall_cons; [fixed_run | apply Forall_nil].
    + apply Forall_cons; [fixed_run|].
      destruct (extractHref tagAttrs) as [h|] eqn:Eh; [|apply Forall_nil].
      destruct (truthy (Some h)); [|apply Forall_nil].
      apply Forall_cons; [|apply Forall_nil].
      left. exists h. split; [|reflexivity].
      eapply occursIn_trans; [eapply attribute_occurs; exact Eh | exact Hattrs].
  - (* action-text-attachment *)
    cbn [before after]. split; [apply attachmentNodes_ok; exact Hattrs | apply Forall_nil].
Qed.

Lemma consumes_occurs (remaining remaining' : jsstring) :
  consumes remaining remaining' -> occursIn remaining' remaining.
Proof. intros [consumed [_ ->]]. exists consumed, []. rewrite app_nil_r. reflexivity. Qed.

(** The body handed to the recursive call is a piece of what remained. *)
Lemma enter_body_occurs (env : Env) (remaining : jsstring) (state : StyleState)
    (defaultFg : jsstring) nodes tagName tagAttrs innerHtml remaining' :
  iteration env remaining state defaultFg
  = Enter nodes tagName tagAttrs innerHtml remaining' ->
  occursIn innerHtml remaining.
Proof.
  unfold iteration.
  destruct (exec tagRegex remaining) as [m|]; [|discriminate].
  cbv zeta.
  destruct (str_eqb _ (js "br")); [discriminate|].
  destruct (str_eqb _ (js "hr")); [discriminate|].
  destruct (str_eqb _ [SLASH]); [discriminate|].
  destruct (findMatchingClose _ _ _) as [closeIndex|]; [|discriminate].
  intros H. injection H as _ _ _ <- _.
  unfold slice, sliceFrom. rewrite skipn_O.
  eapply occursIn_trans; [apply occursIn_firstn | apply occursIn_skipn].
Qed.

(** The attribute text handed to the [switch] is a piece of what remained. *)
Lemma enter_attrs_occur (env : Env) (remaining : jsstring) (state : StyleState)
    (defaultFg : jsstring) nodes tagName tagAttrs innerHtml remaining' :
  iteration env remaining state defaultFg
  = Enter nodes tagName tagAttrs innerHtml remaining' ->
  occursIn tagAttrs remaining.
Proof.
  unfold iteration.
  destruct (exec tagRegex remaining) as [m|] eqn:Hm; [|discriminate].
  cbv zeta.
  destruct (str_eqb _ (js "br")); [discriminate|].
  destruct (str_eqb _ (js "hr")); [discriminate|].
  destruct (str_eqb _ [SLASH]); [discriminate|].
  destruct (findMatchingClose _ _ _) as [closeIndex|]; [|discriminate].
  intros H. injection H as _ _ <- _ _.
  apply tagRegex_group_occurs. exact Hm.
Qed.

Lemma Forall_runOk_mono (env : Env) (piece html : jsstring) (nodes : list TextNode) :
  occursIn piece html ->
  Forall (runOk env piece) nodes -> Forall (runOk env html) nodes.
Proof.
  intros Hpiece. apply Forall_impl. intros r. apply runOk_mono. exact Hpiece.
Qed.

Lemma Forall_decoded_ok (env : Env) (html : jsstring) (nodes : list TextNode) :
  Forall (decoded html) nodes -> Forall (runOk env html) nodes.
Proof. apply Forall_impl. intros r H. right; right. exact H. Qed.

(** Every run of the parser is decoded text, a fixed run, a link target or
    an attachment label. *)
Lemma parse_runs_ok (env : Env) :
  forall n html, length html <= n ->
    forall state defaultFg ltype counter,
      Forall (runOk env html) (fst (parseHtmlContent env html state defaultFg ltype counter)).
Proof.
  induction n as [|n IH]; intros html Hlen state defaultFg ltype counter.
  - destruct html; [|simpl in Hlen; lia]. rewrite parseHtmlContent_nil. constructor.
  - destruct html as [|x html']; [rewrite parseHtmlContent_nil; constructor|].
    set (html := x :: html') in *.
    rewrite parseHtmlContent_unfold by discriminate.
    unfold parseStep.
    pose proof (iteration_progresses env html state defaultFg) as Hp.
    pose proof (iteration_pushes_decoded env html state defaultFg) as Hpush.
    apply (Forall_decoded_ok env) in Hpush.
    destruct (iteration env html state defaultFg)
      as [nodes | nodes remaining | nodes tagName tagAttrs innerHtml remaining] eqn:Hit;
      cbn [progresses pushed fst] in *.
    + exact Hpush.
    + apply Forall_app. split; [exact Hpush|].
      apply (Forall_runOk_mono env remaining html); [apply consumes_occurs; exact Hp|].
      apply IH. apply consumes_shorter in Hp. lia.
    + destruct Hp as [Hrem Hin].
      pose proof (enter_body_occurs env html state defaultFg _ _ _ _ _ Hit) as Hbody.
      pose proof (tagAction_ok env html tagName tagAttrs state defaultFg ltype counter
                    (enter_attrs_occur env html state defaultFg _ _ _ _ _ Hit))
        as [Hbefore Hafter].
      cbv zeta in Hbefore, Hafter.
      set (act := tagAction env tagName tagAttrs state defaultFg ltype counter) in *.
      assert (Hinner : Forall (runOk env html) (fst (parseBody env act innerHtml ltype))).
      { unfold parseBody. destruct (descent act) as [d|]; [|constructor].
        destruct (subContext d) as [|t]; cbn [fst];
          (apply (Forall_runOk_mono env innerHtml html); [exact Hbody|]);
          apply IH; lia. }
      repeat (apply Forall_app; split); try assumption.
      apply (Forall_runOk_mono env remaining html); [apply consumes_occurs; exact Hrem|].
      apply IH. apply consumes_shorter in Hrem. lia.
Qed.

(** C2 as the code has it.  Every run the parser emits is the link's
    parenthesized target or an attachment's bracketed label, whose text
    between the brackets is a piece of the markup as written (or the fixed
    word for an attachment without caption and file name), or has decoded
    text: it contains none of [&quot;], [&#39;] and [&nbsp;], and none of
    the six escapes at all unless the markup contains [&amp;] (an escaped
    ampersand in front of [lt;] decodes, once, to the text of an escape). *)
Theorem runs_are_decoded_or_raw (env : Env) (html : jsstring) (state : StyleState)
    (defaultFg : jsstring) (ltype : ListType) (counter : nat) (r : TextNode) :
  In r (fst (parseHtmlContent env html state defaultFg ltype counter)) ->
  (exists href, occursIn href html
                /\ r = literal (js "(" ++ href ++ js ")") (muted env))
  \/ (exists name, (occursIn name html \/ name = js "attachment")
                   /\ r = literal (js "[" ++ name ++ js "]") (secondary env))
  \/ (freeOf lateEscapes (text r)
      /\ (includes html (js "&amp;") = false -> freeOf escapes (text r))).
Proof.
  intros Hin.
  pose proof (parse_runs_ok env (length html) html (le_n _) state defaultFg ltype counter)
    as H.
  rewrite Forall_forall in H. exact (H r Hin).
Qed.

Lemma runs_are_decoded_or_raw_witness :
  (exists href, occursIn href (js "a&lt;b")
                /\ textNode demoEnv (js "a<b") initialState white
                   = literal (js "(" ++ href ++ js ")") (muted demoEnv))
  \/ (exists name, (occursIn name (js "a&lt;b") \/ name = js "attachment")
                   /\ textNode demoEnv (js "a<b") initialState white
                      = literal (js "[" ++ name ++ js "]") (secondary demoEnv))
  \/ (freeOf lateEscapes (js "a<b")
      /\ (includes (js "a&lt;b") (js "&amp;") = false -> freeOf escapes (js "a<b"))).
Proof.
  apply (runs_are_decoded_or_raw demoEnv (js "a&lt;b") initialState white ListNull 0
           (textNode demoEnv (js "a<b") initialState white)).
  vm_compute. left. reflexivity.
Defined.

(** C2 as stated fails at the markup [<a href='?a=1&amp;b=2'>x</a>]: the
    run of the link's target holds the escape as written. *)
Lemma link_target_keeps_escape :
  texts (renderHtml demoEnv white (js "<a href='?a=1&amp;b=2'>x</a>"))
  = [js "["; js "x"; js "]"; js "(?a=1&amp;b=2)"]
  /\ includes (js "(?a=1&amp;b=2)") (js "&amp;") = true.
Proof. split; vm_compute; reflexivity. Qed.

End ClaimEntities.

(** ** C7 and C10: the attachment extractor *)

Module ClaimUrls.
Import JsString Regex RegexFacts Html Image ImageSpec.




(** The second loop only ever adds to [images]. *)
Lemma plainImage_keeps (images : list ImageInfo) (m : Match) (d : ImageInfo) :
  In d images -> In d (plainImage images m).
Proof.
  intros H. unfold plainImage. cbv zeta.
  destruct (keepsImage images (group1 m)); [apply in_or_app; left|]; exact H.
Qed.

Lemma fold_plainImage_keeps (ms : list Match) :
  forall images d, In d images -> In d (fold_left plainImage ms images).
Proof.
  induction ms as [|m ms IH]; intros images d H; simpl; [exact H|].
  apply IH. apply plainImage_keeps. exact H.
Qed.


(** A matched plain image leaves a descriptor with its URL made absolute,
    or one that was there before it and made the test skip it. *)
Lemma fold_plainImage_covers (ms : list Match) :
  forall images m, In m ms ->
    exists d, In d (fold_left plainImage ms images)
              /\ (url d = absolute (group1 m)
                  \/ (startsWith (js "/") (group1 m) = true
                      /\ includes (url d) (sliceFrom (group1 m) 1) = true)).
Proof.
  induction ms as [|m0 ms IH]; intros images m Hm; [destruct Hm|].
  destruct Hm as [-> | Hm]; simpl.
  - unfold plainImage at 2. cbv zeta.
    destruct (keepsImage images (group1 m)) eqn:Hk.
    + eexists. split.
      * apply fold_plainImage_keeps. apply in_or_app. right. left. reflexivity.
      * left. reflexivity.
    + unfold keepsImage in Hk. apply orb_false_elim in Hk as [Hs He].
      apply negb_false_iff in Hs, He.
      apply existsb_exists in He as [d [Hd Hinc]].
      exists d. split; [apply fold_plainImage_keeps; exact Hd|].
      right. split; assumption.
  - apply IH. exact Hm.
Qed.










(** C10, at the markup [<img src='/a.png' alt='one'><img src='/a.png' alt='two'>].
    No rich attachment is extracted, yet the second image is skipped: the
    test runs over all of [images], where the first plain image already
    stands. *)
Theorem plain_image_skipped_for_plain_image :
  matchAll attachmentRegex (js "<img src='/a.png' alt='one'><img src='/a.png' alt='two'>") = []
  /\ map group1 (matchAll imgRegex
                   (js "<img src='/a.png' alt='one'><img src='/a.png' alt='two'>"))
     = [js "/a.png"; js "/a.png"]
  /\ map (fun d => (url d, alt d))
         (extractImageUrls (js "<img src='/a.png' alt='one'><img src='/a.png' alt='two'>"))
     = [(origin ++ js "/a.png", js "one")].
Proof. repeat split; vm_compute; reflexivity. Qed.

End ClaimUrls.

(** ** C8 and C9: colours *)

Module ClaimColours.
Import JsString Regex RegexFacts Html Theme ThemeSpec.

(** A property of code units checked one by one below a bound. *)
Lemma below_by_cases (P : N -> bool) (n : nat) :
  forallb P (map N.of_nat (seq 0 n)) = true ->
  forall c, (c < N.of_nat n)%N -> P c = true.
Proof.
  intros H c Hc. rewrite forallb_forall in H. apply H.
  apply in_map_iff. exists (N.to_nat c). split; [apply N2Nat.id|].
  apply in_seq. lia.
Qed.

Ltac decide_leb :=
  repeat match goal with
         | |- context [(?a <=? ?b)%N] =>
             first [ replace (a <=? b)%N with true by (symmetry; apply N.leb_le; lia)
                   | replace (a <=? b)%N with false by (symmetry; apply N.leb_gt; lia) ]
         end.

(** Under the [i] flag the class [a-f\d] holds the hex digits of either
    case and nothing else. *)
Lemma hexClass_matches (c : char) : classMatches true hexClass c = isHexDigit c.
Proof.
  destruct (N.lt_ge_cases c 128) as [Hc | Hc].
  - apply eqb_prop.
    apply (below_by_cases
             (fun c => Bool.eqb (classMatches true hexClass c) (isHexDigit c)) 128);
      [vm_compute; reflexivity | exact Hc].
  - unfold classMatches, hexClass, isHexDigit, inRanges, asciiUpper, asciiLower.
    cbn [negated ranges existsb fst snd].
    repeat (progress (decide_leb; cbn [andb orb xorb])). reflexivity.
Qed.

Lemma hash_matches (c : char) : classMatches true (only 35%N) c = N.eqb c 35%N.
Proof.
  destruct (N.lt_ge_cases c 128) as [Hc | Hc].
  - apply eqb_prop.
    apply (below_by_cases
             (fun c => Bool.eqb (classMatches true (only 35%N) c) (N.eqb c 35%N)) 128);
      [vm_compute; reflexivity | exact Hc].
  - unfold classMatches, only, inRanges, asciiUpper, asciiLower.
    cbn [negated ranges existsb fst snd].
    repeat (progress (decide_leb; cbn [andb orb xorb])).
    symmetry. apply N.eqb_neq. lia.
Qed.

Lemma hex_digit_is_ascii (c : char) : isHexDigit c = true -> (c < 128)%N.
Proof.
  unfold isHexDigit. intros H.
  destruct (N.lt_ge_cases c 128) as [Hc | Hc]; [exact Hc|].
  exfalso. revert H. repeat (progress (decide_leb; cbn [andb orb])). discriminate.
Qed.

(** One capture group of two hex digits in front of further items. *)
Lemma pair_item (its : list Item) (s : jsstring) :
  matchItems true (group (exactly 2 hexClass) :: its) true s
  = match s with
    | x :: y :: s' =>
        if isHexDigit x && isHexDigit y then
          match matchItems true its true s' with
          | Some (n, gs) => Some (2 + n, [x; y] :: gs)
          | None => None
          end
        else None
    | _ => None
    end.
Proof.
  cbn [matchItems group exactly cls minRep maxRep captured].
  rewrite (longestRun_ext _ _ hexClass_matches).
  destruct s as [|x [|y s']]; [reflexivity | |]; cbn [longestRun].
  - destruct (isHexDigit x); reflexivity.
  - destruct (isHexDigit x); [|reflexivity].
    destruct (isHexDigit y); [|reflexivity].
    rewrite longestRun_zero. cbn [backtrack Nat.ltb Nat.leb skipn firstn andb].
    destruct (matchItems true its true s') as [[n gs]|]; reflexivity.
Qed.

Lemma three_pairs (s : jsstring) :
  matchItems true [ group (exactly 2 hexClass); group (exactly 2 hexClass);
                    group (exactly 2 hexClass) ] true s
  = match sixDigits s with
    | Some gs => Some (length s, gs)
    | None => None
    end.
Proof.
  rewrite pair_item.
  destruct s as [|a [|b s]]; [reflexivity | reflexivity |].
  rewrite pair_item.
  destruct s as [|c [|d s]].
  { destruct (isHexDigit a && isHexDigit b); reflexivity. }
  { destruct (isHexDigit a && isHexDigit b); reflexivity. }
  rewrite pair_item.
  destruct s as [|e [|f s]].
  { destruct (isHexDigit a && isHexDigit b), (isHexDigit c && isHexDigit d); reflexivity. }
  { destruct (isHexDigit a && isHexDigit b), (isHexDigit c && isHexDigit d); reflexivity. }
  cbn [matchItems sixDigits forallb].
  destruct (isHexDigit a), (isHexDigit b), (isHexDigit c), (isHexDigit d),
    (isHexDigit e), (isHexDigit f); cbn [andb]; try reflexivity;
    destruct s; reflexivity.
Qed.

Lemma sixDigits_hash (t : jsstring) : sixDigits (35%N :: t) = None.
Proof.
  destruct t as [|a [|b [|c [|d [|e [|f t]]]]]]; reflexivity.
Qed.

(** An optional hash sign in front of further items: taken when it is
    there and the rest matches behind it, left out otherwise. *)
Lemma hash_item (its : list Item) (s : jsstring) :
  matchItems true (opt (only 35%N) :: its) true s
  = match s with
    | x :: t =>
        if N.eqb x 35%N then
          match matchItems true its true t with
          | Some (n, gs) => Some (1 + n, gs)
          | None => matchItems true its true s
          end
        else matchItems true its true s
    | [] => matchItems true its true []
    end.
Proof.
  cbn [matchItems opt cls minRep maxRep captured].
  rewrite (longestRun_ext _ _ hash_matches).
  destruct s as [|x t]; cbn [longestRun backtrack Nat.ltb Nat.leb skipn].
  - destruct (matchItems true its true []) as [[n gs]|]; reflexivity.
  - destruct (N.eqb x 35).
    + rewrite longestRun_zero. cbn [backtrack Nat.ltb Nat.leb skipn].
      destruct (matchItems true its true t) as [[n gs]|]; [reflexivity|].
      destruct (matchItems true its true (x :: t)) as [[n gs]|]; reflexivity.
    + cbn [backtrack Nat.ltb Nat.leb skipn].
      destruct (matchItems true its true (x :: t)) as [[n gs]|]; reflexivity.
Qed.

(** What the pattern of [hexToRgb] matches. *)
Lemma exec_hexRegex (hex : jsstring) :
  exec hexRegex hex
  = match sixDigits (stripHash hex) with
    | Some gs => Some {| index := 0; whole := hex; groups := gs |}
    | None => None
    end.
Proof.
  unfold exec. destruct hex as [|x t]; [reflexivity|].
  cbn [searchFrom]. unfold matchHere.
  cbn [hexRegex items ignoreCase anchorEnd anchorStart].
  rewrite hash_item, !three_pairs. cbn [stripHash].
  destruct (N.eqb_spec x 35) as [-> | Hx].
  - rewrite sixDigits_hash.
    destruct (sixDigits t) as [gs|]; [|reflexivity].
    rewrite firstn_all2 by (simpl; lia). reflexivity.
  - destruct (sixDigits (x :: t)) as [gs|]; [|reflexivity].
    rewrite firstn_all. reflexivity.
Qed.

Lemma sixDigits_wellFormed (hex : jsstring) :
  sixDigits (stripHash hex)
  = if wellFormedHex hex
    then match stripHash hex with
         | [a; b; c; d; e; f] => Some [[a; b]; [c; d]; [e; f]]
         | _ => None
         end
    else None.
Proof.
  unfold wellFormedHex.
  destruct (stripHash hex) as [|a [|b [|c [|d [|e [|f t]]]]]]; try reflexivity.
  destruct t; [|reflexivity].
  unfold sixDigits. cbn [length Nat.eqb andb].
  destruct (forallb isHexDigit [a; b; c; d; e; f]); reflexivity.
Qed.

Lemma pairs_checked :
  forallb (fun x => forallb (pairOk x) (map N.of_nat (seq 0 128)))
          (map N.of_nat (seq 0 128)) = true.
Proof. vm_compute. reflexivity. Qed.

Lemma hex_pair (x y : char) :
  isHexDigit x = true -> isHexDigit y = true ->
  padStart2 (toString16 (parseInt16 [x; y])) = [asciiLower x; asciiLower y]
  /\ parseInt16 [asciiLower x; asciiLower y] = parseInt16 [x; y]
  /\ isHexDigit (asciiLower x) = true /\ isHexDigit (asciiLower y) = true.
Proof.
  intros Hx Hy.
  pose proof (below_by_cases _ 128 pairs_checked x (hex_digit_is_ascii x Hx)) as H.
  cbv beta in H.
  pose proof (below_by_cases _ 128 H y (hex_digit_is_ascii y Hy)) as Hxy.
  unfold pairOk in Hxy. rewrite Hx, Hy in Hxy. cbn [andb] in Hxy.
  apply andb_prop in Hxy as [Hxy H4]. apply andb_prop in Hxy as [Hxy H3].
  apply andb_prop in Hxy as [H1 H2].
  apply str_eqb_eq in H1. apply Z.eqb_eq in H2. auto.
Qed.

(** C9.  For a string of six hex digits of either case, with or without a
    hash sign in front, [rgbToHex] of the channels [hexToRgb] reads prints
    the same digits in lower case behind a hash sign, and that string reads
    back as the same colour; for every other string [hexToRgb] answers
    black. *)
Theorem hex_round_trip :
  (forall hex, wellFormedHex hex = true ->
      let c := hexToRgb hex in
      rgbToHex (r c) (g c) (b c) = canonical hex
      /\ hexToRgb (canonical hex) = c)
  /\ (forall hex, wellFormedHex hex = false -> hexToRgb hex = black).
Proof.
  split.
  - intros hex Hwf. cbv zeta.
    assert (Hcanon : stripHash (canonical hex) = asciiToLowerCase (stripHash hex))
      by reflexivity.
    unfold hexToRgb. rewrite !exec_hexRegex, Hcanon.
    rewrite sixDigits_wellFormed, Hwf.
    unfold wellFormedHex in Hwf. apply andb_prop in Hwf as [Hlen Hhex].
    unfold canonical.
    destruct (stripHash hex) as [|x1 [|x2 [|x3 [|x4 [|x5 [|x6 t]]]]]]; try discriminate.
    destruct t; [|discriminate].
    cbn [forallb] in Hhex.
    repeat (apply andb_prop in Hhex as [?Hd Hhex]).
    destruct (hex_pair x1 x2 Hd Hd0) as [Pab [Vab [La Lb]]].
    destruct (hex_pair x3 x4 Hd1 Hd2) as [Pcd [Vcd [Lc Ld]]].
    destruct (hex_pair x5 x6 Hd3 Hd4) as [Pef [Vef [Le Lf]]].
    cbn [nth groups r g b]. split.
    + unfold rgbToHex. cbn [map concat]. rewrite Pab, Pcd, Pef. reflexivity.
    + cbn [asciiToLowerCase map sixDigits forallb].
      rewrite La, Lb, Lc, Ld, Le, Lf. cbn [andb nth groups].
      rewrite Vab, Vcd, Vef. reflexivity.
  - intros hex Hwf. unfold hexToRgb.
    rewrite exec_hexRegex, sixDigits_wellFormed, Hwf. reflexivity.
Qed.

Lemma hex_round_trip_witness :
  (rgbToHex 255 160 16 = js "#ffa010"
   /\ hexToRgb (js "#ffa010") = {| r := 255; g := 160; b := 16 |})
  /\ hexToRgb (js "#12345") = black.
Proof.
  split.
  - apply (proj1 hex_round_trip (js "FFa010")). vm_compute. reflexivity.
  - apply (proj2 hex_round_trip (js "#12345")). vm_compute. reflexivity.
Defined.

Lemma default_is_own (defaultBackground : jsstring) :
  getProperty (selectedTable defaultBackground) FIZZY_DEFAULT_VAR
  = Str (defaultColour (selectedTable defaultBackground)).
Proof.
  unfold selectedTable. destruct (isLightBackground defaultBackground); reflexivity.
Qed.

(** For [undefined], the empty string and every key that is not a property
    name of [Object.prototype], the lookup answers the colour the selected
    sub-table has under the key, and the colour under the default key when
    it has none. *)
Lemma getFizzyColor_lookup (defaultBackground : jsstring) (cssVar : option jsstring) :
  match cssVar with Some key => inheritedKey key = false | None => True end ->
  getFizzyColor defaultBackground cssVar
  = Str match cssVar with
        | Some (x :: k) =>
            match ownProperty (selectedTable defaultBackground) (x :: k) with
            | Some v => v
            | None => defaultColour (selectedTable defaultBackground)
            end
        | _ => defaultColour (selectedTable defaultBackground)
        end.
Proof.
  intros Hkey. unfold getFizzyColor. fold (selectedTable defaultBackground).
  destruct cssVar as [[|x k]|]; try apply default_is_own.
  unfold getProperty at 1. fold (inheritedKey (x :: k)). rewrite Hkey.
  destruct (ownProperty (selectedTable defaultBackground) (x :: k)); [reflexivity|].
  cbn [nullish]. apply default_is_own.
Qed.

(** The two sub-tables have different colours under every key, and
    different default colours: a lookup on a light background never gives
    what the same lookup gives on a dark one. *)
Lemma tables_differ (light dark : jsstring) (cssVar : option jsstring) :
  isLightBackground light = true -> isLightBackground dark = false ->
  match cssVar with Some key => inheritedKey key = false | None => True end ->
  getFizzyColor light cssVar <> getFizzyColor dark cssVar.
Proof.
  intros Hl Hd Hkey.
  rewrite !getFizzyColor_lookup by exact Hkey.
  unfold selectedTable. rewrite Hl, Hd.
  destruct cssVar as [[|x k]|]; try discriminate.
  unfold ownProperty, FIZZY_COLORS_LIGHT, FIZZY_COLORS_DARK, table.
  cbn [map find fst snd].
  repeat match goal with
         | |- context [str_eqb ?a (x :: k)] => destruct (str_eqb a (x :: k))
         end; discriminate.
Qed.

(** C8, at the key [toString] (any name of a property of
    [Object.prototype] does the same).  Neither sub-table has the key, yet
    the lookup does not answer the colour of the default key: the
    subscript finds the inherited member, which is not nullish, so the
    default is never consulted.  A key that no object has, and [undefined],
    do get the default colour. *)
Theorem inherited_key_misses_default :
  ownProperty FIZZY_COLORS_DARK (js "toString") = None
  /\ isLightBackground (js "#000000") = false
  /\ getFizzyColor (js "#000000") (Some (js "toString")) = Inherited (js "toString")
  /\ getFizzyColor (js "#000000") (Some (js "var(--color-card-9)")) = Str (js "#5a9eed")
  /\ getFizzyColor (js "#000000") None = Str (js "#5a9eed")
  /\ getFizzyColor (js "#ffffff") (Some (js "toString")) = Inherited (js "toString").
Proof. repeat split; vm_compute; reflexivity. Qed.

End ClaimColours.

Set Warnings "-inexact-float".

Module ShadesFacts.
Import JsString Regex RegexFacts Html Theme ThemeSpec ClaimColours Shades Palette ShadesSpec.

Lemma uptoFrom_spec (n : nat) (P : Z -> bool) :
  forall z, uptoFrom z n P = true ->
    forall w, (z <= w < z + Z.of_nat n)%Z -> P w = true.
Proof.
  induction n as [|k IH]; intros z H w Hw; [lia|].
  cbn [uptoFrom] in H. apply andb_prop in H as [Hz Hrest].
  destruct (Z.eq_dec w z) as [-> | Hne]; [exact Hz|].
  apply (IH _ Hrest). lia.
Qed.

Lemma upto_spec (n : nat) (P : Z -> bool) :
  upto n P = true -> forall z, (0 <= z < Z.of_nat n)%Z -> P z = true.
Proof. intros H z Hz. apply (uptoFrom_spec n P 0 H). lia. Qed.

Lemma isByte_range (z : Z) : isByte z = true <-> (0 <= z < 256)%Z.
Proof. unfold isByte. rewrite andb_true_iff, Z.leb_le, Z.ltb_lt. tauto. Qed.

(** Every byte prints as two lower-case hex digits that read back as it,
    and is its own rounding. *)
Lemma bytes_checked :
  upto 256 (fun n =>
    match padStart2 (toString16 n) with
    | [x; y] => isHexDigit x && isHexDigit y && (parseInt16 [x; y] =? n)%Z
    | _ => false
    end && match mathRound (toFloat n) with Whole m => (m =? n)%Z | _ => false end) = true.
Proof. vm_cast_no_check (eq_refl true). Qed.

Lemma byte_prints (n : Z) :
  isByte n = true ->
  exists x y, padStart2 (toString16 n) = [x; y]
              /\ isHexDigit x = true /\ isHexDigit y = true
              /\ parseInt16 [x; y] = n.
Proof.
  intros Hn. apply isByte_range in Hn.
  pose proof (upto_spec _ _ bytes_checked n Hn) as H. cbv beta in H.
  apply andb_prop in H as [H _].
  destruct (padStart2 (toString16 n)) as [|x [|y [|? ?]]]; try discriminate.
  apply andb_prop in H as [H Hv]. apply andb_prop in H as [Hx Hy].
  apply Z.eqb_eq in Hv. exists x, y. auto.
Qed.

Lemma byte_rounds (n : Z) : isByte n = true -> mathRound (toFloat n) = Whole n.
Proof.
  intros Hn. apply isByte_range in Hn.
  pose proof (upto_spec _ _ bytes_checked n Hn) as H. cbv beta in H.
  apply andb_prop in H as [_ H].
  destruct (mathRound (toFloat n)); try discriminate.
  apply Z.eqb_eq in H. congruence.
Qed.

(** The string [rgbToHex] prints for three bytes reads back as them. *)
Lemma hexToRgb_of_bytes (x y z : Z) :
  isByte x = true -> isByte y = true -> isByte z = true ->
  wellFormedHex (Theme.rgbToHex x y z) = true
  /\ hexToRgb (Theme.rgbToHex x y z) = {| r := x; g := y; b := z |}.
Proof.
  intros Hx Hy Hz.
  destruct (byte_prints x Hx) as [a1 [a2 [Pa [Ha1 [Ha2 Va]]]]].
  destruct (byte_prints y Hy) as [b1 [b2 [Pb [Hb1 [Hb2 Vb]]]]].
  destruct (byte_prints z Hz) as [c1 [c2 [Pc [Hc1 [Hc2 Vc]]]]].
  assert (E : Theme.rgbToHex x y z = 35%N :: [a1; a2; b1; b2; c1; c2]).
  { unfold Theme.rgbToHex. cbn [map concat]. rewrite Pa, Pb, Pc. reflexivity. }
  assert (W : wellFormedHex (Theme.rgbToHex x y z) = true).
  { rewrite E. unfold wellFormedHex. cbn [stripHash N.eqb Pos.eqb length Nat.eqb forallb].
    rewrite Ha1, Ha2, Hb1, Hb2, Hc1, Hc2. reflexivity. }
  split; [exact W|].
  unfold hexToRgb. rewrite exec_hexRegex, sixDigits_wellFormed, W.
  rewrite E. cbn [stripHash N.eqb Pos.eqb nth groups]. rewrite Va, Vb, Vc. reflexivity.
Qed.

Lemma pair_values_checked :
  forallb (fun x => forallb (fun y =>
             if isHexDigit x && isHexDigit y then isByte (parseInt16 [x; y]) else true)
             (map N.of_nat (seq 0 128)))
          (map N.of_nat (seq 0 128)) = true.
Proof. vm_cast_no_check (eq_refl true). Qed.

Lemma pair_is_byte (x y : char) :
  isHexDigit x = true -> isHexDigit y = true -> isByte (parseInt16 [x; y]) = true.
Proof.
  intros Hx Hy.
  pose proof (below_by_cases _ 128 pair_values_checked x (hex_digit_is_ascii x Hx)) as H.
  cbv beta in H.
  pose proof (below_by_cases _ 128 H y (hex_digit_is_ascii y Hy)) as Hxy.
  cbv beta in Hxy. rewrite Hx, Hy in Hxy. exact Hxy.
Qed.

(** Whatever the string, [hexToRgb] gives three bytes. *)
Lemma hexToRgb_bytes (hex : jsstring) : bytes (hexToRgb hex) = true.
Proof.
  unfold hexToRgb. rewrite exec_hexRegex, sixDigits_wellFormed.
  destruct (wellFormedHex hex) eqn:W; [|reflexivity].
  unfold wellFormedHex in W. apply andb_prop in W as [_ Hhex].
  destruct (stripHash hex) as [|x1 [|x2 [|x3 [|x4 [|x5 [|x6 t]]]]]]; try reflexivity.
  destruct t; [|reflexivity].
  cbn [forallb] in Hhex. repeat (apply andb_prop in Hhex as [?Hd Hhex]).
  unfold bytes. cbn [nth groups Theme.r Theme.g Theme.b].
  rewrite !pair_is_byte by assumption. reflexivity.
Qed.

Lemma rgbToHex_whole (x y z : float) (r g b : Z) :
  mathRound x = Whole r -> mathRound y = Whole g -> mathRound z = Whole b ->
  Shades.rgbToHex x y z = Theme.rgbToHex r g b.
Proof.
  intros Hx Hy Hz. unfold Shades.rgbToHex, Theme.rgbToHex. cbn [map].
  rewrite Hx, Hy, Hz. reflexivity.
Qed.

Lemma roundsWithin_spec (lo hi : Z) (x : float) :
  roundsWithin lo hi x = true ->
  mathRound x = Whole (rounded x) /\ (lo <= rounded x <= hi)%Z.
Proof.
  unfold roundsWithin, rounded. destruct (mathRound x); try discriminate.
  rewrite andb_true_iff, !Z.leb_le. auto.
Qed.

(** Three channels that round to bytes print as a colour that reads back
    as the rounded channels. *)
Lemma rounded_channels (x y z : float) :
  roundsWithin 0 255 x = true -> roundsWithin 0 255 y = true ->
  roundsWithin 0 255 z = true ->
  wellFormedHex (Shades.rgbToHex x y z) = true
  /\ hexToRgb (Shades.rgbToHex x y z)
     = {| r := rounded x; g := rounded y; b := rounded z |}.
Proof.
  intros Hx Hy Hz.
  apply roundsWithin_spec in Hx as [Ex Rx], Hy as [Ey Ry], Hz as [Ez Rz].
  rewrite (rgbToHex_whole _ _ _ _ _ _ Ex Ey Ez).
  apply hexToRgb_of_bytes; apply isByte_range; lia.
Qed.

(** The colour [rgbToHex] prints for the shades of three bytes. *)
Lemma shade_of_channels (f : Z -> float) (c : Rgb) :
  bytes c = true ->
  (forall x, isByte x = true -> roundsWithin 0 255 (f x) = true) ->
  let s := Shades.rgbToHex (f (Theme.r c)) (f (Theme.g c)) (f (Theme.b c)) in
  wellFormedHex s = true
  /\ hexToRgb s = {| r := rounded (f (Theme.r c));
                     g := rounded (f (Theme.g c));
                     b := rounded (f (Theme.b c)) |}.
Proof.
  intros Hc Hf. unfold bytes in Hc.
  apply andb_prop in Hc as [Hc H3]. apply andb_prop in Hc as [H1 H2].
  apply rounded_channels; apply Hf; assumption.
Qed.

Lemma roundsWithin_weaken (lo hi lo' hi' : Z) (x : float) :
  (lo' <= lo)%Z -> (hi <= hi')%Z ->
  roundsWithin lo hi x = true -> roundsWithin lo' hi' x = true.
Proof.
  unfold roundsWithin. destruct (mathRound x); try discriminate.
  rewrite !andb_true_iff, !Z.leb_le. lia.
Qed.

Lemma roundsWithin_bounds (lo hi : Z) (x : float) :
  roundsWithin lo hi x = true -> (lo <= rounded x <= hi)%Z.
Proof. intros H. apply roundsWithin_spec in H. tauto. Qed.

Lemma percentage_range (p : nat) : p <= 100 -> (0 <= Z.of_nat p < Z.of_nat 101)%Z.
Proof. lia. Qed.

Lemma byte_range (x : Z) : isByte x = true -> (0 <= x < Z.of_nat 256)%Z.
Proof. intros H. apply isByte_range in H. lia. Qed.

Lemma bytes_split (c : Rgb) :
  bytes c = true ->
  (0 <= Theme.r c < 256)%Z /\ (0 <= Theme.g c < 256)%Z /\ (0 <= Theme.b c < 256)%Z.
Proof.
  unfold bytes. intros H. apply andb_prop in H as [H H3].
  apply andb_prop in H as [H1 H2]. rewrite !isByte_range in *. auto.
Qed.

Lemma bytes_print_lower :
  upto 256 (fun n =>
    match padStart2 (toString16 n) with
    | [x; y] => isLowerHexDigit x && isLowerHexDigit y
    | _ => false
    end) = true.
Proof. vm_cast_no_check (eq_refl true). Qed.

Lemma byte_prints_lower (n : Z) :
  isByte n = true ->
  exists x y, padStart2 (toString16 n) = [x; y]
              /\ isLowerHexDigit x = true /\ isLowerHexDigit y = true.
Proof.
  intros Hn. apply isByte_range in Hn.
  pose proof (upto_spec _ _ bytes_print_lower n Hn) as H. cbv beta in H.
  destruct (padStart2 (toString16 n)) as [|x [|y [|? ?]]]; try discriminate.
  apply andb_prop in H as [Hx Hy]. exists x, y. auto.
Qed.

(** Three channels from 0 to 255 print as a hash sign and six lower-case
    digits. *)
Lemma rgbToHex_printed (x y z : Z) :
  isByte x = true -> isByte y = true -> isByte z = true ->
  printedHex (Theme.rgbToHex x y z) = true.
Proof.
  intros Hx Hy Hz.
  destruct (byte_prints_lower x Hx) as [a1 [a2 [Pa [Ha1 Ha2]]]].
  destruct (byte_prints_lower y Hy) as [b1 [b2 [Pb [Hb1 Hb2]]]].
  destruct (byte_prints_lower z Hz) as [c1 [c2 [Pc [Hc1 Hc2]]]].
  unfold Theme.rgbToHex. cbn [map concat]. rewrite Pa, Pb, Pc.
  change (js "#") with [35%N]. cbn [app printedHex length Nat.eqb forallb].
  rewrite Ha1, Ha2, Hb1, Hb2, Hc1, Hc2. reflexivity.
Qed.

(** The shade of a colour prints in that form. *)
Lemma shade_printed (f : Z -> float) (c : Rgb) :
  bytes c = true ->
  (forall x, isByte x = true -> roundsWithin 0 255 (f x) = true) ->
  printedHex (Shades.rgbToHex (f (Theme.r c)) (f (Theme.g c)) (f (Theme.b c))) = true.
Proof.
  intros Hc Hf. unfold bytes in Hc.
  apply andb_prop in Hc as [Hc H3]. apply andb_prop in Hc as [H1 H2].
  destruct (roundsWithin_spec _ _ _ (Hf _ H1)) as [E1 R1].
  destruct (roundsWithin_spec _ _ _ (Hf _ H2)) as [E2 R2].
  destruct (roundsWithin_spec _ _ _ (Hf _ H3)) as [E3 R3].
  rewrite (rgbToHex_whole _ _ _ _ _ _ E1 E2 E3).
  apply rgbToHex_printed; unfold isByte; apply andb_true_intro;
    rewrite Z.leb_le, Z.ltb_lt; lia.
Qed.

End ShadesFacts.

Set Warnings "-inexact-float".

Module ShadeTheorems.
Import JsString Regex RegexFacts Html Theme ThemeSpec ClaimColours Shades Palette ShadesSpec ShadesFacts.

Lemma lighter_checked :
  upto 101 (fun p => upto 256 (fun x =>
    roundsWithin x 255 (lighterChannel (toFloat p / 100) x))) = true.
Proof. vm_cast_no_check (eq_refl true). Qed.

Lemma darker_checked :
  upto 101 (fun p => upto 256 (fun x =>
    roundsWithin 0 x (darkerChannel (1 - toFloat p / 100) x))) = true.
Proof. vm_cast_no_check (eq_refl true). Qed.

Lemma shade_ends_checked :
  upto 256 (fun x =>
    stays (lighterChannel (percentage 0 / 100)) x
    && stays (darkerChannel (1 - percentage 0 / 100)) x
    && (rounded (lighterChannel (percentage 100 / 100) x) =? 255)%Z
    && (rounded (darkerChannel (1 - percentage 100 / 100) x) =? 0)%Z) = true.
Proof. vm_cast_no_check (eq_refl true). Qed.

Lemma lighter_channel (p : nat) (x : Z) :
  p <= 100 -> isByte x = true ->
  roundsWithin x 255 (lighterChannel (percentage p / 100) x) = true.
Proof.
  intros Hp Hx.
  pose proof (upto_spec _ _ lighter_checked _ (percentage_range p Hp)) as H.
  cbv beta in H. exact (upto_spec _ _ H x (byte_range x Hx)).
Qed.

Lemma darker_channel (p : nat) (x : Z) :
  p <= 100 -> isByte x = true ->
  roundsWithin 0 x (darkerChannel (1 - percentage p / 100) x) = true.
Proof.
  intros Hp Hx.
  pose proof (upto_spec _ _ darker_checked _ (percentage_range p Hp)) as H.
  cbv beta in H. exact (upto_spec _ _ H x (byte_range x Hx)).
Qed.

Lemma shade_ends (x : Z) :
  isByte x = true ->
  rounded (lighterChannel (percentage 0 / 100) x) = x
  /\ rounded (darkerChannel (1 - percentage 0 / 100) x) = x
  /\ rounded (lighterChannel (percentage 100 / 100) x) = 255%Z
  /\ rounded (darkerChannel (1 - percentage 100 / 100) x) = 0%Z.
Proof.
  intros Hx.
  pose proof (upto_spec _ _ shade_ends_checked x (byte_range x Hx)) as H.
  cbv beta in H. unfold stays in H.
  apply andb_prop in H as [H H4]. apply andb_prop in H as [H H3].
  apply andb_prop in H as [H1 H2].
  rewrite !Z.eqb_eq in *. auto.
Qed.

Lemma lighter_is_byte (p : nat) (x : Z) :
  p <= 100 -> isByte x = true ->
  roundsWithin 0 255 (lighterChannel (percentage p / 100) x) = true.
Proof.
  intros Hp Hx. apply (roundsWithin_weaken x 255); [apply isByte_range in Hx; lia | lia |].
  apply lighter_channel; assumption.
Qed.

Lemma darker_is_byte (p : nat) (x : Z) :
  p <= 100 -> isByte x = true ->
  roundsWithin 0 255 (darkerChannel (1 - percentage p / 100) x) = true.
Proof.
  intros Hp Hx. apply (roundsWithin_weaken 0 x); [lia | apply isByte_range in Hx; lia |].
  apply darker_channel; assumption.
Qed.

Lemma isByte_of_range (x : Z) : (0 <= x < 256)%Z -> isByte x = true.
Proof. apply isByte_range. Qed.

(** What [lighten] and [darken] print reads back as the rounded channels. *)
Lemma lighten_reads (hex : jsstring) (p : nat) :
  p <= 100 ->
  let f := lighterChannel (percentage p / 100) in
  let c := hexToRgb hex in
  wellFormedHex (lighten hex (percentage p)) = true
  /\ hexToRgb (lighten hex (percentage p))
     = {| r := rounded (f (Theme.r c)); g := rounded (f (Theme.g c));
          b := rounded (f (Theme.b c)) |}.
Proof.
  intros Hp f c. unfold lighten. cbv zeta.
  exact (shade_of_channels f _ (hexToRgb_bytes hex) (fun x => lighter_is_byte p x Hp)).
Qed.

Lemma darken_reads (hex : jsstring) (p : nat) :
  p <= 100 ->
  let f := darkerChannel (1 - percentage p / 100) in
  let c := hexToRgb hex in
  wellFormedHex (darken hex (percentage p)) = true
  /\ hexToRgb (darken hex (percentage p))
     = {| r := rounded (f (Theme.r c)); g := rounded (f (Theme.g c));
          b := rounded (f (Theme.b c)) |}.
Proof.
  intros Hp f c. unfold darken. cbv zeta.
  exact (shade_of_channels f _ (hexToRgb_bytes hex) (fun x => darker_is_byte p x Hp)).
Qed.

Lemma lighten_bounds (hex : jsstring) (p : nat) :
  p <= 100 -> between (hexToRgb hex) (hexToRgb (lighten hex (percentage p))) white.
Proof.
  intros Hp. destruct (lighten_reads hex p Hp) as [_ E]. cbv zeta in E. rewrite E.
  destruct (bytes_split _ (hexToRgb_bytes hex)) as [Hr [Hg Hb]].
  pose proof (roundsWithin_bounds _ _ _ (lighter_channel p _ Hp (isByte_of_range _ Hr))) as Br.
  pose proof (roundsWithin_bounds _ _ _ (lighter_channel p _ Hp (isByte_of_range _ Hg))) as Bg.
  pose proof (roundsWithin_bounds _ _ _ (lighter_channel p _ Hp (isByte_of_range _ Hb))) as Bb.
  unfold between, channelBetween, white. cbn [Theme.r Theme.g Theme.b]. lia.
Qed.

Lemma darken_bounds (hex : jsstring) (p : nat) :
  p <= 100 -> between black (hexToRgb (darken hex (percentage p))) (hexToRgb hex).
Proof.
  intros Hp. destruct (darken_reads hex p Hp) as [_ E]. cbv zeta in E. rewrite E.
  destruct (bytes_split _ (hexToRgb_bytes hex)) as [Hr [Hg Hb]].
  pose proof (roundsWithin_bounds _ _ _ (darker_channel p _ Hp (isByte_of_range _ Hr))) as Br.
  pose proof (roundsWithin_bounds _ _ _ (darker_channel p _ Hp (isByte_of_range _ Hg))) as Bg.
  pose proof (roundsWithin_bounds _ _ _ (darker_channel p _ Hp (isByte_of_range _ Hb))) as Bb.
  unfold between, channelBetween, black. cbn [Theme.r Theme.g Theme.b]. lia.
Qed.

(** X1.  For every string and every whole percentage up to 100, [lighten]
    prints a colour in the form of a hash sign and six lower-case hex
    digits, whose channels lie between those the string reads as and 255;
    at 0 the colour is the one the string reads as, at 100 it is white. *)
Theorem lighten_between_colour_and_white (hex : jsstring) (p : nat) :
  p <= 100 ->
  printedHex (lighten hex (percentage p)) = true
  /\ wellFormedHex (lighten hex (percentage p)) = true
  /\ between (hexToRgb hex) (hexToRgb (lighten hex (percentage p))) white
  /\ (p = 0 -> hexToRgb (lighten hex (percentage p)) = hexToRgb hex)
  /\ (p = 100 -> hexToRgb (lighten hex (percentage p)) = white).
Proof.
  intros Hp. destruct (lighten_reads hex p Hp) as [W E]. cbv zeta in E.
  split.
  { unfold lighten. cbv zeta.
    exact (shade_printed _ _ (hexToRgb_bytes hex) (fun x => lighter_is_byte p x Hp)). }
  split; [exact W|]. split; [apply lighten_bounds; exact Hp|].
  destruct (bytes_split _ (hexToRgb_bytes hex)) as [Hr [Hg Hb]].
  split; intros ->; rewrite E.
  - destruct (shade_ends _ (isByte_of_range _ Hr)) as [-> _].
    destruct (shade_ends _ (isByte_of_range _ Hg)) as [-> _].
    destruct (shade_ends _ (isByte_of_range _ Hb)) as [-> _].
    destruct (hexToRgb hex); reflexivity.
  - destruct (shade_ends _ (isByte_of_range _ Hr)) as [_ [_ [-> _]]].
    destruct (shade_ends _ (isByte_of_range _ Hg)) as [_ [_ [-> _]]].
    destruct (shade_ends _ (isByte_of_range _ Hb)) as [_ [_ [-> _]]].
    reflexivity.
Qed.

Lemma lighten_between_colour_and_white_witness :
  printedHex (lighten (js "#102030") (percentage 50)) = true
  /\ wellFormedHex (lighten (js "#102030") (percentage 50)) = true
  /\ between (hexToRgb (js "#102030")) (hexToRgb (lighten (js "#102030") (percentage 50))) white
  /\ (50 = 0 -> hexToRgb (lighten (js "#102030") (percentage 50)) = hexToRgb (js "#102030"))
  /\ (50 = 100 -> hexToRgb (lighten (js "#102030") (percentage 50)) = white).
Proof. apply (lighten_between_colour_and_white (js "#102030") 50). lia. Defined.

(** X2.  For every string and every whole percentage up to 100, [darken]
    prints a well-formed colour whose channels lie between 0 and those the
    string reads as; at 0 the colour is the one the string reads as, at
    100 it is black. *)
Theorem darken_between_black_and_colour (hex : jsstring) (p : nat) :
  p <= 100 ->
  wellFormedHex (darken hex (percentage p)) = true
  /\ between black (hexToRgb (darken hex (percentage p))) (hexToRgb hex)
  /\ (p = 0 -> hexToRgb (darken hex (percentage p)) = hexToRgb hex)
  /\ (p = 100 -> hexToRgb (darken hex (percentage p)) = black).
Proof.
  intros Hp. destruct (darken_reads hex p Hp) as [W E]. cbv zeta in E.
  split; [exact W|]. split; [apply darken_bounds; exact Hp|].
  destruct (bytes_split _ (hexToRgb_bytes hex)) as [Hr [Hg Hb]].
  split; intros ->; rewrite E.
  - destruct (shade_ends _ (isByte_of_range _ Hr)) as [_ [-> _]].
    destruct (shade_ends _ (isByte_of_range _ Hg)) as [_ [-> _]].
    destruct (shade_ends _ (isByte_of_range _ Hb)) as [_ [-> _]].
    destruct (hexToRgb hex); reflexivity.
  - destruct (shade_ends _ (isByte_of_range _ Hr)) as [_ [_ [_ ->]]].
    destruct (shade_ends _ (isByte_of_range _ Hg)) as [_ [_ [_ ->]]].
    destruct (shade_ends _ (isByte_of_range _ Hb)) as [_ [_ [_ ->]]].
    reflexivity.
Qed.

Lemma darken_between_black_and_colour_witness :
  wellFormedHex (darken (js "#102030") (percentage 50)) = true
  /\ between black (hexToRgb (darken (js "#102030") (percentage 50))) (hexToRgb (js "#102030"))
  /\ (50 = 0 -> hexToRgb (darken (js "#102030") (percentage 50)) = hexToRgb (js "#102030"))
  /\ (50 = 100 -> hexToRgb (darken (js "#102030") (percentage 50)) = black).
Proof. apply (darken_between_black_and_colour (js "#102030") 50). lia. Defined.

(** The five percentages in one pass over the pairs of bytes: each mixed
    channel rounds to an integer between the two, the first at 0 and the
    second at 100; the one at 60 lies between the one at 40 and the second
    byte; and the one at 40 is the second byte only when the two agree. *)
Lemma mixed_checked :
  let a0 := (percentage 0 / 100)%float in
  let a40 := (percentage 40 / 100)%float in
  let a50 := (percentage 50 / 100)%float in
  let a60 := (percentage 60 / 100)%float in
  let a100 := (percentage 100 / 100)%float in
  upto 256 (fun x => upto 256 (fun y =>
    match mathRound (mixedChannel a0 x y), mathRound (mixedChannel a40 x y),
          mathRound (mixedChannel a50 x y), mathRound (mixedChannel a60 x y),
          mathRound (mixedChannel a100 x y) with
    | Whole n0, Whole n40, Whole n50, Whole n60, Whole n100 =>
        ((n0 =? x) && (n100 =? y)
         && (Z.min x y <=? n40) && (n40 <=? Z.max x y)
         && (Z.min x y <=? n50) && (n50 <=? Z.max x y)
         && (Z.min x y <=? n60) && (n60 <=? Z.max x y)
         && (Z.min n40 y <=? n60) && (n60 <=? Z.max n40 y)
         && ((x =? y) || negb (n40 =? y)))%Z
    | _, _, _, _, _ => false
    end)) = true.
Proof. vm_cast_no_check (eq_refl true). Qed.

Lemma mixed_pair (x y : Z) :
  isByte x = true -> isByte y = true ->
  exists n0 n40 n50 n60 n100,
    mathRound (mixedChannel (percentage 0 / 100) x y) = Whole n0
    /\ mathRound (mixedChannel (percentage 40 / 100) x y) = Whole n40
    /\ mathRound (mixedChannel (percentage 50 / 100) x y) = Whole n50
    /\ mathRound (mixedChannel (percentage 60 / 100) x y) = Whole n60
    /\ mathRound (mixedChannel (percentage 100 / 100) x y) = Whole n100
    /\ (n0 = x /\ n100 = y
        /\ Z.min x y <= n40 <= Z.max x y
        /\ Z.min x y <= n50 <= Z.max x y
        /\ Z.min x y <= n60 <= Z.max x y
        /\ Z.min n40 y <= n60 <= Z.max n40 y
        /\ (n40 = y -> x = y))%Z.
Proof.
  intros Hx Hy.
  pose proof mixed_checked as H. cbv zeta in H.
  pose proof (upto_spec _ _ H x (byte_range x Hx)) as H'. cbv beta in H'.
  pose proof (upto_spec _ _ H' y (byte_range y Hy)) as H''. cbv beta in H''.
  clear H H'.
  destruct (mathRound (mixedChannel (percentage 0 / 100) x y)) as [| |n0]; try discriminate.
  destruct (mathRound (mixedChannel (percentage 40 / 100) x y)) as [| |n40]; try discriminate.
  destruct (mathRound (mixedChannel (percentage 50 / 100) x y)) as [| |n50]; try discriminate.
  destruct (mathRound (mixedChannel (percentage 60 / 100) x y)) as [| |n60]; try discriminate.
  destruct (mathRound (mixedChannel (percentage 100 / 100) x y)) as [| |n100]; try discriminate.
  exists n0, n40, n50, n60, n100.
  repeat (apply andb_prop in H'' as [H'' ?]).
  repeat match goal with
         | H : (_ =? _)%Z = true |- _ => apply Z.eqb_eq in H
         | H : (_ <=? _)%Z = true |- _ => apply Z.leb_le in H
         end.
  repeat split; try reflexivity; try assumption.
  intros E. destruct (Z.eqb_spec x y) as [Exy | Nxy]; [exact Exy|].
  cbn [orb] in *. apply Z.eqb_eq in E.
  match goal with H : negb _ = true |- _ => rewrite E in H; discriminate H end.
Qed.

Lemma mixed_channel (p : nat) (x y : Z) :
  In p mixPercents -> isByte x = true -> isByte y = true ->
  let v := mixedChannel (percentage p / 100) x y in
  roundsWithin (Z.min x y) (Z.max x y) v = true
  /\ (p = 0 -> rounded v = x)
  /\ (p = 100 -> rounded v = y).
Proof.
  intros Hp Hx Hy v. subst v.
  destruct (mixed_pair x y Hx Hy)
    as [n0 [n40 [n50 [n60 [n100 [E0 [E40 [E50 [E60 [E100 H]]]]]]]]]].
  destruct H as [H0 [H100 [B40 [B50 [B60 _]]]]].
  unfold roundsWithin, rounded, mixPercents in *.
  cbn [In] in Hp.
  destruct Hp as [<- | [<- | [<- | [<- | [<- | []]]]]];
    match goal with
    | |- context [mathRound ?v] =>
        match goal with E : mathRound v = _ |- _ => rewrite E end
    end;
    (split; [apply andb_true_intro; split; apply Z.leb_le; lia|]);
    split; intros E; try discriminate E; assumption.
Qed.

Lemma mixed_is_byte (p : nat) (x y : Z) :
  In p mixPercents -> isByte x = true -> isByte y = true ->
  roundsWithin 0 255 (mixedChannel (percentage p / 100) x y) = true.
Proof.
  intros Hp Hx Hy.
  apply (roundsWithin_weaken (Z.min x y) (Z.max x y));
    [apply isByte_range in Hx, Hy; lia | apply isByte_range in Hx, Hy; lia |].
  apply mixed_channel; assumption.
Qed.

(** What [mixRgb] prints for two colours of bytes. *)
Lemma mixRgb_between (c1 c2 : Rgb) (p : nat) :
  In p mixPercents -> bytes c1 = true -> bytes c2 = true ->
  wellFormedHex (mixRgb c1 c2 (percentage p)) = true
  /\ between c1 (hexToRgb (mixRgb c1 c2 (percentage p))) c2
  /\ (p = 0 -> hexToRgb (mixRgb c1 c2 (percentage p)) = c1)
  /\ (p = 100 -> hexToRgb (mixRgb c1 c2 (percentage p)) = c2).
Proof.
  intros Hp H1 H2. unfold mixRgb. cbv zeta.
  destruct (bytes_split _ H1) as [Hr1 [Hg1 Hb1]].
  destruct (bytes_split _ H2) as [Hr2 [Hg2 Hb2]].
  apply isByte_of_range in Hr1, Hg1, Hb1, Hr2, Hg2, Hb2.
  destruct (rounded_channels _ _ _
              (mixed_is_byte p _ _ Hp Hr1 Hr2) (mixed_is_byte p _ _ Hp Hg1 Hg2)
              (mixed_is_byte p _ _ Hp Hb1 Hb2)) as [W E].
  split; [exact W|]. rewrite E. clear W E.
  destruct (mixed_channel p _ _ Hp Hr1 Hr2) as [Br [Zr Cr]].
  destruct (mixed_channel p _ _ Hp Hg1 Hg2) as [Bg [Zg Cg]].
  destruct (mixed_channel p _ _ Hp Hb1 Hb2) as [Bb [Zb Cb]].
  cbv zeta in *.
  apply roundsWithin_bounds in Br, Bg, Bb.
  split; [|split].
  - unfold between, channelBetween. cbn [Theme.r Theme.g Theme.b]. lia.
  - intros E. rewrite (Zr E), (Zg E), (Zb E). destruct c1; reflexivity.
  - intros E. rewrite (Cr E), (Cg E), (Cb E). destruct c2; reflexivity.
Qed.

(** X3.  For every two strings and each of the percentages 0, 40, 50, 60
    and 100, [mix] prints a well-formed colour whose channels lie between
    those the two strings read as; at 0 it is the first colour, at 100 the
    second. *)
Theorem mix_between_its_colours (hex1 hex2 : jsstring) (p : nat) :
  In p mixPercents ->
  wellFormedHex (mix hex1 hex2 (percentage p)) = true
  /\ between (hexToRgb hex1) (hexToRgb (mix hex1 hex2 (percentage p))) (hexToRgb hex2)
  /\ (p = 0 -> hexToRgb (mix hex1 hex2 (percentage p)) = hexToRgb hex1)
  /\ (p = 100 -> hexToRgb (mix hex1 hex2 (percentage p)) = hexToRgb hex2).
Proof.
  intros Hp. unfold mix.
  apply mixRgb_between; [exact Hp | apply hexToRgb_bytes | apply hexToRgb_bytes].
Qed.

Lemma mix_between_its_colours_witness :
  wellFormedHex (mix (js "#ffffff") (js "#000000") (percentage 40)) = true
  /\ between (hexToRgb (js "#ffffff"))
             (hexToRgb (mix (js "#ffffff") (js "#000000") (percentage 40)))
             (hexToRgb (js "#000000"))
  /\ (40 = 0 -> hexToRgb (mix (js "#ffffff") (js "#000000") (percentage 40))
                = hexToRgb (js "#ffffff"))
  /\ (40 = 100 -> hexToRgb (mix (js "#ffffff") (js "#000000") (percentage 40))
                  = hexToRgb (js "#000000")).
Proof.
  apply (mix_between_its_colours (js "#ffffff") (js "#000000") 40).
  vm_compute. auto.
Defined.

End ShadeTheorems.

Set Warnings "-inexact-float".

Module PaletteTheorems.
Import JsString Regex RegexFacts Html Theme ThemeSpec ClaimColours.
Import Shades Palette ShadesSpec ShadesFacts ShadeTheorems.

(** From 5 percent on, [darken] moves every channel above 10 and
    [lighten] every channel below 246. *)
Lemma moves_checked :
  uptoFrom 5 96 (fun p =>
    let up := lighterChannel (toFloat p / 100) in
    let down := darkerChannel (1 - toFloat p / 100) in
    upto 246 (fun x => negb (stays up x))
    && uptoFrom 11 245 (fun x => negb (stays down x))) = true.
Proof. vm_cast_no_check (eq_refl true). Qed.

(** Colours with no channel above 10 are dark, colours with no channel
    below 246 are light. *)
Lemma cubes_checked :
  upto 11 (fun x => upto 11 (fun y => upto 11 (fun z =>
    negb (0.5 <? luminance {| r := x; g := y; b := z |})%float)))
  && uptoFrom 246 10 (fun x => uptoFrom 246 10 (fun y => uptoFrom 246 10 (fun z =>
       (0.5 <? luminance {| r := x; g := y; b := z |})%float))) = true.
Proof. vm_cast_no_check (eq_refl true). Qed.

Lemma lighter_moves (p : nat) (x : Z) :
  5 <= p <= 100 -> (0 <= x < 246)%Z ->
  rounded (lighterChannel (percentage p / 100) x) <> x.
Proof.
  intros Hp Hx.
  pose proof (uptoFrom_spec _ _ _ moves_checked (Z.of_nat p) ltac:(lia)) as H.
  cbv beta zeta in H. apply andb_prop in H as [H _].
  pose proof (upto_spec _ _ H x ltac:(lia)) as H'. cbv beta in H'.
  unfold stays in H'. intros E. fold (percentage p) in H'. rewrite E, Z.eqb_refl in H'.
  discriminate.
Qed.

Lemma darker_moves (p : nat) (x : Z) :
  5 <= p <= 100 -> (11 <= x < 256)%Z ->
  rounded (darkerChannel (1 - percentage p / 100) x) <> x.
Proof.
  intros Hp Hx.
  pose proof (uptoFrom_spec _ _ _ moves_checked (Z.of_nat p) ltac:(lia)) as H.
  cbv beta zeta in H. apply andb_prop in H as [_ H].
  pose proof (uptoFrom_spec _ _ _ H x ltac:(lia)) as H'. cbv beta in H'.
  unfold stays in H'. intros E. fold (percentage p) in H'. rewrite E, Z.eqb_refl in H'.
  discriminate.
Qed.

Lemma low_is_dark (x y z : Z) :
  (0 <= x <= 10)%Z -> (0 <= y <= 10)%Z -> (0 <= z <= 10)%Z ->
  (0.5 <? luminance {| r := x; g := y; b := z |})%float = false.
Proof.
  intros Hx Hy Hz. pose proof cubes_checked as H. apply andb_prop in H as [H _].
  pose proof (upto_spec _ _ H x ltac:(lia)) as H1. cbv beta in H1.
  pose proof (upto_spec _ _ H1 y ltac:(lia)) as H2. cbv beta in H2.
  pose proof (upto_spec _ _ H2 z ltac:(lia)) as H3. cbv beta in H3.
  apply negb_true_iff in H3. exact H3.
Qed.

Lemma high_is_light (x y z : Z) :
  (246 <= x < 256)%Z -> (246 <= y < 256)%Z -> (246 <= z < 256)%Z ->
  (0.5 <? luminance {| r := x; g := y; b := z |})%float = true.
Proof.
  intros Hx Hy Hz. pose proof cubes_checked as H. apply andb_prop in H as [_ H].
  pose proof (uptoFrom_spec _ _ _ H x ltac:(lia)) as H1. cbv beta in H1.
  pose proof (uptoFrom_spec _ _ _ H1 y ltac:(lia)) as H2. cbv beta in H2.
  exact (uptoFrom_spec _ _ _ H2 z ltac:(lia)).
Qed.

(** The ternary of the background getters, from 5 percent on. *)
Lemma shifted_sets_off (st : State) (p : nat) :
  5 <= p <= 100 ->
  setsOff st (shifted st (defaultBackground st) (percentage p)).
Proof.
  intros Hp. unfold setsOff, shifted, isLight. cbv zeta.
  set (bg := defaultBackground st).
  destruct (bytes_split _ (hexToRgb_bytes bg)) as [Hr [Hg Hb]].
  destruct (isLightBackground bg) eqn:L.
  - destruct (darken_reads bg p ltac:(lia)) as [W E]. cbv zeta in E.
    split; [exact W|]. split; [|apply darken_bounds; lia].
    intros Same. rewrite E in Same.
    unfold isLightBackground in L.
    destruct (hexToRgb bg) as [x y z] eqn:C. cbn [Theme.r Theme.g Theme.b] in *.
    injection Same as Sr Sg Sb.
    rewrite low_is_dark in L; [discriminate| | |].
    + destruct (Z_le_gt_dec x 10); [lia|]. exfalso. apply (darker_moves p x Hp); [lia|exact Sr].
    + destruct (Z_le_gt_dec y 10); [lia|]. exfalso. apply (darker_moves p y Hp); [lia|exact Sg].
    + destruct (Z_le_gt_dec z 10); [lia|]. exfalso. apply (darker_moves p z Hp); [lia|exact Sb].
  - destruct (lighten_reads bg p ltac:(lia)) as [W E]. cbv zeta in E.
    split; [exact W|]. split; [|apply lighten_bounds; lia].
    intros Same. rewrite E in Same.
    unfold isLightBackground in L.
    destruct (hexToRgb bg) as [x y z] eqn:C. cbn [Theme.r Theme.g Theme.b] in *.
    injection Same as Sr Sg Sb.
    rewrite high_is_light in L; [discriminate| | |].
    + destruct (Z_lt_ge_dec x 246); [|lia]. exfalso. apply (lighter_moves p x Hp); [lia|exact Sr].
    + destruct (Z_lt_ge_dec y 246); [|lia]. exfalso. apply (lighter_moves p y Hp); [lia|exact Sg].
    + destruct (Z_lt_ge_dec z 246); [|lia]. exfalso. apply (lighter_moves p z Hp); [lia|exact Sb].
Qed.

(** X4.  In every state, whatever string the terminal gave as its
    background, the getters [backgroundSubtle], [backgroundMuted] and
    [selected] answer a well-formed colour that differs from the colour the
    background reads as: darker on a light background, lighter on a dark
    one. *)
Theorem background_shades_set_off (st : State) :
  setsOff st (backgroundSubtle st)
  /\ setsOff st (backgroundMuted st)
  /\ setsOff st (selected st).
Proof.
  split; [|split].
  - apply (shifted_sets_off st 5). lia.
  - apply (shifted_sets_off st 12). lia.
  - apply (shifted_sets_off st 15). lia.
Qed.

(** X5.  In every state the getters [muted] and [border] answer a
    well-formed colour.  The channels of [muted] lie between those the
    terminal's foreground and background read as, and those of [border]
    between the channels of [muted] and of the background, so [border] is
    never further from the background than [muted]; and [muted] is not the
    background unless the foreground is. *)
Theorem muted_and_border_between (st : State) :
  let fg := hexToRgb (defaultForeground st) in
  let bg := hexToRgb (defaultBackground st) in
  wellFormedHex (muted st) = true
  /\ wellFormedHex (border st) = true
  /\ between fg (hexToRgb (muted st)) bg
  /\ between (hexToRgb (muted st)) (hexToRgb (border st)) bg
  /\ (fg <> bg -> hexToRgb (muted st) <> bg).
Proof.
  intros fg bg. unfold muted, border, mix.
  change 40%float with (percentage 40). change 60%float with (percentage 60).
  pose proof (hexToRgb_bytes (defaultForeground st)) as Hf.
  pose proof (hexToRgb_bytes (defaultBackground st)) as Hb.
  fold fg in Hf |- *. fold bg in Hb |- *.
  destruct (mixRgb_between fg bg 40 ltac:(vm_compute; auto) Hf Hb) as [W40 [B40 _]].
  destruct (mixRgb_between fg bg 60 ltac:(vm_compute; auto) Hf Hb) as [W60 [B60 _]].
  split; [exact W40|]. split; [exact W60|]. split; [exact B40|].
  destruct (bytes_split _ Hf) as [F1 [F2 F3]].
  destruct (bytes_split _ Hb) as [B1 [B2 B3]].
  apply isByte_of_range in F1, F2, F3, B1, B2, B3.
  destruct (mixed_pair _ _ F1 B1) as [? [r40 [? [r60 [? [_ [Er40 [_ [Er60 [_ Hr]]]]]]]]]].
  destruct (mixed_pair _ _ F2 B2) as [? [g40 [? [g60 [? [_ [Eg40 [_ [Eg60 [_ Hg]]]]]]]]]].
  destruct (mixed_pair _ _ F3 B3) as [? [b40 [? [b60 [? [_ [Eb40 [_ [Eb60 [_ Hbl]]]]]]]]]].
  assert (M40 : hexToRgb (mixRgb fg bg (percentage 40)) = {| r := r40; g := g40; b := b40 |}).
  { unfold mixRgb. cbv zeta. rewrite (rgbToHex_whole _ _ _ _ _ _ Er40 Eg40 Eb40).
    apply hexToRgb_of_bytes; apply isByte_of_range;
      apply isByte_range in F1, F2, F3, B1, B2, B3; lia. }
  assert (M60 : hexToRgb (mixRgb fg bg (percentage 60)) = {| r := r60; g := g60; b := b60 |}).
  { unfold mixRgb. cbv zeta. rewrite (rgbToHex_whole _ _ _ _ _ _ Er60 Eg60 Eb60).
    apply hexToRgb_of_bytes; apply isByte_of_range;
      apply isByte_range in F1, F2, F3, B1, B2, B3; lia. }
  rewrite M40, M60. split.
  - unfold between, channelBetween. cbn [Theme.r Theme.g Theme.b]. lia.
  - intros Hne Same. apply Hne.
    destruct fg as [f1 f2 f3], bg as [k1 k2 k3]. cbn [Theme.r Theme.g Theme.b] in *.
    injection Same as S1 S2 S3. f_equal; [apply Hr | apply Hg | apply Hbl]; assumption.
Qed.

Lemma fillFrom_length (cs : list (option jsstring)) :
  forall from, length (fillFrom from cs) = length cs.
Proof. induction cs as [|c cs IH]; intros from; simpl; [reflexivity | rewrite IH; reflexivity]. Qed.

Lemma fillFrom_nth (cs : list (option jsstring)) :
  forall from i, i < length cs ->
    nth_error (fillFrom from cs) i
    = Some match nth i cs None with
           | Some s => s
           | None => nth (from + i) FALLBACK_PALETTE []
           end.
Proof.
  induction cs as [|c cs IH]; intros from i Hi; simpl in Hi; [lia|].
  destruct i as [|i]; cbn [fillFrom nth_error nth].
  - rewrite Nat.add_0_r. reflexivity.
  - rewrite IH by lia. replace (S from + i) with (from + S i) by lia. reflexivity.
Qed.

Lemma detect_palette_length (reply : Reply) (st : State) :
  length (palette st) = 16 -> length (palette (detectPalette reply st)) = 16.
Proof.
  intros H. destruct reply as [|[result|]]; try exact H.
  cbn [detectPalette palette].
  destruct (detectedPalette result) as [p|]; [|exact H].
  destruct (16 <=? length p) eqn:L; [|exact H].
  apply Nat.leb_le in L. rewrite fillFrom_length, length_firstn. lia.
Qed.

Lemma reachable_sixteen (st : State) : reachable st -> length (palette st) = 16.
Proof.
  induction 1 as [|reply st _ IH]; [reflexivity | apply detect_palette_length; exact IH].
Qed.

(** X6.  The palette has sixteen entries in every state the module can
    reach, whatever the terminal answers.  A call that throws or answers
    nothing leaves the state as it was; an answer whose palette has fewer
    than sixteen slots leaves the palette as it was; an answer with
    sixteen slots or more sets entry [i] to slot [i], and to the fallback's
    entry [i] where the slot is null. *)
Theorem palette_keeps_sixteen_entries :
  (forall st, reachable st -> length (palette st) = 16)
  /\ (forall st, detectPalette Thrown st = st /\ detectPalette (Answered None) st = st)
  /\ (forall st result p,
        detectedPalette result = Some p -> length p < 16 ->
        palette (detectPalette (Answered (Some result)) st) = palette st)
  /\ (forall st result p i,
        detectedPalette result = Some p -> 16 <= length p -> i < 16 ->
        nth_error (palette (detectPalette (Answered (Some result)) st)) i
        = Some match nth i p None with
               | Some s => s
               | None => nth i FALLBACK_PALETTE []
               end).
Proof.
  split; [exact reachable_sixteen|]. split; [intros st; split; reflexivity|]. split.
  - intros st result p Hp Hlen. cbn [detectPalette palette]. rewrite Hp.
    replace (16 <=? length p) with false by (symmetry; apply Nat.leb_gt; exact Hlen).
    reflexivity.
  - intros st result p i Hp Hlen Hi. cbn [detectPalette palette]. rewrite Hp.
    replace (16 <=? length p) with true by (symmetry; apply Nat.leb_le; exact Hlen).
    rewrite fillFrom_nth by (rewrite length_firstn; lia).
    cbn [Nat.add]. f_equal.
    replace (nth i (firstn 16 p) None) with (nth i p None); [reflexivity|].
    rewrite <- (firstn_skipn 16 p) at 1. rewrite app_nth1 by (rewrite length_firstn; lia).
    reflexivity.
Qed.

Lemma orElse_some (a b : option jsstring) :
  truthy b = true -> truthy (orElse a b) = true.
Proof. intros Hb. unfold orElse. destruct (truthy a) eqn:Ha; assumption. Qed.

Lemma element_fallback (index : Z) :
  (0 <= index < 16)%Z -> truthy (element FALLBACK_PALETTE index) = true.
Proof.
  intros H. unfold element.
  replace (index <? 0)%Z with false by (symmetry; apply Z.ltb_ge; lia).
  assert (All : forallb (fun n => truthy (nth_error FALLBACK_PALETTE n)) (seq 0 16) = true)
    by reflexivity.
  rewrite forallb_forall in All. apply All. apply in_seq. lia.
Qed.

Lemma element_outside (array : list jsstring) (index : Z) :
  (index < 0 \/ Z.of_nat (length array) <= index)%Z -> element array index = None.
Proof.
  intros H. unfold element. destruct (index <? 0)%Z eqn:L; [reflexivity|].
  apply Z.ltb_ge in L. apply nth_error_None. lia.
Qed.

Lemma slot_truthy (array : list jsstring) (index : Z) :
  match slot array index with
  | Some c => truthy (element array index) = true /\ element array index = Some c
  | None => truthy (element array index) = false
  end.
Proof. unfold slot. destruct (element array index) as [[|x s]|]; cbn; auto. Qed.

(** X7.  [color] never answers the empty string, whatever integer the
    index is and whatever the palette holds.  In a state the module can
    reach it answers the palette's entry when that is a non-empty string,
    the fallback's entry otherwise for an index from 0 to 15, and white for
    any other index. *)
Theorem color_is_never_empty (st : State) (index : Z) :
  color st index <> []
  /\ (reachable st ->
      color st index
      = match slot (palette st) index with
        | Some c => c
        | None =>
            if ((0 <=? index) && (index <? 16))%Z
            then nth (Z.to_nat index) FALLBACK_PALETTE [] else js "#ffffff"
        end).
Proof.
  split.
  - unfold color.
    pose proof (orElse_some (orElse (element (palette st) index) (element FALLBACK_PALETTE index))
                  (Some (js "#ffffff")) eq_refl) as H.
    destruct (orElse _ (Some (js "#ffffff"))) as [[|x c]|]; try discriminate H.
    discriminate.
  - intros Hst. apply reachable_sixteen in Hst. unfold color.
    pose proof (slot_truthy (palette st) index) as Hs.
    destruct (slot (palette st) index) as [c|].
    + destruct Hs as [Ht Hc]. unfold orElse at 2. rewrite Ht.
      unfold orElse. rewrite Ht, Hc. reflexivity.
    + unfold orElse at 2. rewrite Hs.
      destruct ((0 <=? index) && (index <? 16))%Z eqn:R.
      * apply andb_prop in R as [R1 R2]. apply Z.leb_le in R1. apply Z.ltb_lt in R2.
        pose proof (element_fallback index (conj R1 R2)) as Hf.
        unfold orElse. rewrite Hf. unfold element in *.
        replace (index <? 0)%Z with false in * by (symmetry; apply Z.ltb_ge; lia).
        destruct (nth_error FALLBACK_PALETTE (Z.to_nat index)) as [c|] eqn:E;
          [|discriminate Hf].
        symmetry. apply nth_error_nth. exact E.
      * rewrite (element_outside FALLBACK_PALETTE index).
        -- reflexivity.
        -- apply andb_false_iff in R as [R | R];
             [apply Z.leb_gt in R | apply Z.ltb_ge in R]; cbn [length FALLBACK_PALETTE map]; lia.
Qed.

Lemma fifty_is_a_mix_percent : In 50 mixPercents.
Proof. vm_compute. auto. Qed.

Lemma valueToRgb_bytes (v : Value) : bytes (valueToRgb v) = true.
Proof. destruct v; [apply hexToRgb_bytes | reflexivity | reflexivity]. Qed.

(** X8.  [getFizzyColorDimmed] answers a well-formed colour in every
    state and for every request; its channels lie between those of the
    colour [getFizzyColor] answers, as [hexToRgb] reads it, and those the
    terminal's background reads as. *)
Theorem dimmed_colour_between (st : State) (cssVar : option jsstring) :
  let colour := valueToRgb (getFizzyColor (defaultBackground st) cssVar) in
  wellFormedHex (getFizzyColorDimmed st cssVar) = true
  /\ between colour (hexToRgb (getFizzyColorDimmed st cssVar))
             (hexToRgb (background st)).
Proof.
  intros colour. unfold getFizzyColorDimmed. change 50%float with (percentage 50).
  destruct (mixRgb_between colour (hexToRgb (background st)) 50 fifty_is_a_mix_percent
              (valueToRgb_bytes _) (hexToRgb_bytes _)) as [W [B _]].
  split; assumption.
Qed.

Lemma ownProperty_in (colors : list (jsstring * jsstring)) (key v : jsstring) :
  ownProperty colors key = Some v -> In v (map snd colors).
Proof.
  unfold ownProperty. destruct (find _ colors) as [e|] eqn:F; [|discriminate].
  intros E. injection E as <-. apply find_some in F as [F _]. apply in_map. exact F.
Qed.

Lemma table_colours_well_formed (defaultBackground v : jsstring) :
  In v (map snd (selectedTable defaultBackground)) -> wellFormedHex v = true.
Proof.
  assert (All : forallb wellFormedHex (map snd FIZZY_COLORS_LIGHT) = true
                /\ forallb wellFormedHex (map snd FIZZY_COLORS_DARK) = true)
    by (split; reflexivity).
  destruct All as [L D]. rewrite forallb_forall in L, D.
  unfold selectedTable. destruct (isLightBackground defaultBackground); auto.
Qed.

Lemma default_is_there (defaultBackground : jsstring) :
  ownProperty (selectedTable defaultBackground) FIZZY_DEFAULT_VAR
  = Some (defaultColour (selectedTable defaultBackground)).
Proof. unfold selectedTable. destruct (isLightBackground defaultBackground); reflexivity. Qed.

(** X9.  For a request that names no member every object inherits (no
    request at all and the empty string included), [getFizzyColor] answers
    a string: the well-formed colour the sub-table of the current
    background has under the requested key, or under the default key when
    it has none under the requested one; and a background of the other
    lightness gives a different answer. *)
Theorem fizzy_colour_of_plain_key (defaultBackground : jsstring) (cssVar : option jsstring) :
  plainKey cssVar ->
  let colors := selectedTable defaultBackground in
  (exists colour,
      getFizzyColor defaultBackground cssVar = Str colour
      /\ ownProperty colors (keyRead colors cssVar) = Some colour
      /\ wellFormedHex colour = true)
  /\ (forall other,
        isLightBackground other = negb (isLightBackground defaultBackground) ->
        getFizzyColor other cssVar <> getFizzyColor defaultBackground cssVar).
Proof.
  intros Hplain colors. split.
  - rewrite (getFizzyColor_lookup defaultBackground cssVar Hplain). fold colors.
    assert (Hd : ownProperty colors FIZZY_DEFAULT_VAR = Some (defaultColour colors))
      by apply default_is_there.
    destruct cssVar as [[|x k]|]; cbn [keyRead].
    + exists (defaultColour colors). split; [reflexivity|].
      replace (ownProperty colors []) with (@None jsstring)
        by (unfold colors, selectedTable;
            destruct (isLightBackground defaultBackground); reflexivity).
      split; [exact Hd|].
      apply (table_colours_well_formed defaultBackground), (ownProperty_in _ _ _ Hd).
    + destruct (ownProperty colors (x :: k)) as [v|] eqn:E.
      * exists v. split; [reflexivity|]. split; [exact E|].
        apply (table_colours_well_formed defaultBackground), (ownProperty_in _ _ _ E).
      * exists (defaultColour colors). split; [reflexivity|]. split; [exact Hd|].
        apply (table_colours_well_formed defaultBackground), (ownProperty_in _ _ _ Hd).
    + exists (defaultColour colors). split; [reflexivity|]. split; [exact Hd|].
      apply (table_colours_well_formed defaultBackground), (ownProperty_in _ _ _ Hd).
  - intros other Hother.
    destruct (isLightBackground defaultBackground) eqn:L; cbn [negb] in Hother.
    + intros E. symmetry in E. revert E. apply tables_differ; assumption.
    + apply tables_differ; assumption.
Qed.

Lemma fizzy_colour_of_plain_key_witness :
  (exists colour,
      getFizzyColor (js "#000000") (Some (js "var(--color-card-3)")) = Str colour
      /\ ownProperty (selectedTable (js "#000000"))
           (keyRead (selectedTable (js "#000000")) (Some (js "var(--color-card-3)")))
         = Some colour
      /\ wellFormedHex colour = true)
  /\ (forall other,
        isLightBackground other = negb (isLightBackground (js "#000000")) ->
        getFizzyColor other (Some (js "var(--color-card-3)"))
        <> getFizzyColor (js "#000000") (Some (js "var(--color-card-3)"))).
Proof.
  apply (fizzy_colour_of_plain_key (js "#000000") (Some (js "var(--color-card-3)"))).
  vm_compute. reflexivity.
Defined.

Lemma padStart2_length (s : jsstring) : 2 <= length (padStart2 s).
Proof. unfold padStart2, char. rewrite length_app, repeat_length. lia. Qed.

Lemma padStart2_keeps (s : jsstring) (c : char) : In c s -> In c (padStart2 s).
Proof. intros H. unfold padStart2. apply in_or_app. right. exact H. Qed.

Lemma toHexDigits_length (fuel : nat) :
  forall n acc, length acc <= length (toHexDigits fuel n acc).
Proof.
  induction fuel as [|fuel IH]; intros n acc; cbn [toHexDigits]; [lia|].
  destruct (n / 16 =? 0)%N; [simpl; lia|].
  etransitivity; [|apply IH]. simpl. lia.
Qed.

Lemma toString16_long (z : Z) : (256 <= z)%Z -> 3 <= length (toString16 z).
Proof.
  intros Hz. unfold toString16.
  replace (z <? 0)%Z with false by (symmetry; apply Z.ltb_ge; lia).
  set (n := Z.to_N z). assert (Hn : (256 <= n)%N) by (unfold n; lia).
  assert (Hlog : (8 <= N.log2 n)%N)
    by (change 8%N with (N.log2 256); apply N.log2_le_mono; exact Hn).
  destruct (N.to_nat (N.log2 n)) as [|[|f]] eqn:F; try lia.
  cbn [toHexDigits].
  assert (Q1 : (16 <= n / 16)%N) by (apply N.div_le_lower_bound; lia).
  assert (Q2 : (1 <= n / 16 / 16)%N) by (apply N.div_le_lower_bound; lia).
  assert (H1 : (n / 16 =? 0)%N = false) by (apply N.eqb_neq; lia).
  assert (H2 : (n / 16 / 16 =? 0)%N = false) by (apply N.eqb_neq; lia).
  rewrite H1, H2.
  destruct (n / 16 / 16 / 16 =? 0)%N; [simpl; lia|].
  etransitivity; [|apply toHexDigits_length]. simpl. lia.
Qed.

Lemma toString16_minus (z : Z) : (z < 0)%Z -> In 45%N (toString16 z).
Proof.
  intros Hz. unfold toString16.
  replace (z <? 0)%Z with true by (symmetry; apply Z.ltb_lt; exact Hz).
  left. reflexivity.
Qed.

Lemma forallb_missing (p : char -> bool) (s : jsstring) (c : char) :
  In c s -> p c = false -> forallb p s = false.
Proof.
  intros Hin Hp. destruct (forallb p s) eqn:F; [|reflexivity].
  rewrite forallb_forall in F. rewrite (F c Hin) in Hp. discriminate.
Qed.

(** What is printed for a channel that is no byte spoils the colour. *)
Lemma not_a_byte (z : Z) :
  isByte z = false ->
  3 <= length (padStart2 (toString16 z)) \/ In 45%N (padStart2 (toString16 z)).
Proof.
  intros H. unfold isByte in H. apply andb_false_iff in H as [H | H].
  - right. apply padStart2_keeps, toString16_minus. apply Z.leb_gt in H. exact H.
  - left. apply Z.ltb_ge in H. pose proof (toString16_long z H) as L.
    unfold padStart2, char in *. rewrite length_app. lia.
Qed.

Lemma printed_not_well_formed (x y z : Z) :
  isByte x && isByte y && isByte z = false ->
  wellFormedHex (Theme.rgbToHex x y z) = false.
Proof.
  intros H. unfold Theme.rgbToHex. change (js "#") with [35%N].
  cbn [map concat app]. unfold wellFormedHex. cbn [stripHash N.eqb Pos.eqb].
  rewrite app_nil_r.
  pose proof (padStart2_length (toString16 x)) as Lx.
  pose proof (padStart2_length (toString16 y)) as Ly.
  pose proof (padStart2_length (toString16 z)) as Lz.
  assert (Hx := not_a_byte x). assert (Hy := not_a_byte y). assert (Hz := not_a_byte z).
  revert Lx Ly Lz Hx Hy Hz.
  generalize (padStart2 (toString16 x)) (padStart2 (toString16 y)) (padStart2 (toString16 z)).
  intros px py pz Lx Ly Lz Hx Hy Hz.
  assert (Bad : 7 <= length (px ++ py ++ pz) \/ In 45%N (px ++ py ++ pz)).
  { unfold char in *. rewrite !length_app, !in_app_iff.
    apply andb_false_iff in H as [H | H]; [apply andb_false_iff in H as [H | H]|].
    - destruct (Hx H); [left; lia | right; auto].
    - destruct (Hy H); [left; lia | right; auto].
    - destruct (Hz H); [left; lia | right; auto]. }
  destruct Bad as [Long | Minus].
  - replace (length (px ++ py ++ pz) =? 6) with false; [reflexivity|].
    symmetry. apply Nat.eqb_neq. lia.
  - rewrite (forallb_missing _ _ _ Minus eq_refl). apply andb_false_r.
Qed.

(** X10.  The string [rgbToHex] prints for three integer channels reads
    back through [hexToRgb] as the same three channels when each is from 0
    to 255, and as black when one of them is not; on channels from 0 to
    255 rounding changes nothing. *)
Theorem printed_colour_reads_back (x y z : Z) :
  hexToRgb (Theme.rgbToHex x y z)
  = (if isByte x && isByte y && isByte z then {| r := x; g := y; b := z |} else black)
  /\ (isByte x && isByte y && isByte z = true ->
      Shades.rgbToHex (toFloat x) (toFloat y) (toFloat z) = Theme.rgbToHex x y z).
Proof.
  destruct (isByte x && isByte y && isByte z) eqn:B.
  - apply andb_prop in B as [B Hz]. apply andb_prop in B as [Hx Hy]. split.
    + apply hexToRgb_of_bytes; assumption.
    + intros _. apply rgbToHex_whole; apply byte_rounds; assumption.
  - split; [|discriminate].
    unfold hexToRgb. rewrite exec_hexRegex, sixDigits_wellFormed.
    rewrite (printed_not_well_formed x y z B). reflexivity.
Qed.

End PaletteTheorems.

Module TagScanFacts.
Import JsString Regex RegexFacts Html HtmlSpec TagScan.

Lemma leading_behind (p : char -> bool) (s : jsstring) : leading p s ++ behind p s = s.
Proof.
  induction s as [|c s IH]; [reflexivity|]. simpl.
  destruct (p c); [simpl; rewrite IH|]; reflexivity.
Qed.

Lemma longestRun_leading (p : char -> bool) (s : jsstring) :
  longestRun p None s = length (leading p s).
Proof.
  induction s as [|c s IH]; [reflexivity|]. simpl.
  destruct (p c); [simpl; rewrite IH|]; reflexivity.
Qed.

Lemma firstn_leading (p : char -> bool) (s : jsstring) :
  firstn (length (leading p s)) s = leading p s.
Proof.
  rewrite <- (leading_behind p s) at 2. rewrite firstn_app, Nat.sub_diag, firstn_all.
  cbn [firstn]. apply app_nil_r.
Qed.

Lemma skipn_leading (p : char -> bool) (s : jsstring) :
  skipn (length (leading p s)) s = behind p s.
Proof.
  rewrite <- (leading_behind p s) at 2. rewrite skipn_app, Nat.sub_diag, skipn_all.
  reflexivity.
Qed.

Lemma leading_all (p : char -> bool) (s : jsstring) : forallb p (leading p s) = true.
Proof.
  induction s as [|c s IH]; [reflexivity|]. simpl.
  destruct (p c) eqn:E; [simpl; rewrite E, IH|]; reflexivity.
Qed.

Lemma behind_head (p : char -> bool) (s : jsstring) :
  match behind p s with
  | c :: _ => p c = false
  | [] => True
  end.
Proof.
  induction s as [|c s IH]; [exact I|]. simpl.
  destruct (p c) eqn:E; [exact IH | exact E].
Qed.

(** A prefix inside [p] that ends where [p] does is the leading one. *)
Lemma leading_app (p : char -> bool) (a s : jsstring) :
  forallb p a = true ->
  match s with c :: _ => p c = false | [] => True end ->
  leading p (a ++ s) = a /\ behind p (a ++ s) = s.
Proof.
  intros Ha Hs. induction a as [|x a IH]; simpl.
  - destruct s as [|c s]; [auto|]. simpl. rewrite Hs. auto.
  - simpl in Ha. apply andb_prop in Ha as [Hx Ha]. rewrite Hx.
    destruct (IH Ha) as [-> ->]. auto.
Qed.

Lemma skipn_inside (p : char -> bool) (s : jsstring) (j : nat) :
  j < length (leading p s) ->
  exists c t, skipn j s = c :: t /\ p c = true.
Proof.
  revert j. induction s as [|x s IH]; intros j Hj; simpl in Hj; [lia|].
  destruct (p x) eqn:E; [|simpl in Hj; lia].
  destruct j as [|j]; [exists x, s; auto|].
  simpl in Hj. apply IH. lia.
Qed.

(** When every shorter length fails, only the longest is tried. *)
Lemma backtrack_top {A : Type} (attempt : nat -> option A) (lo : nat) :
  forall k, (forall j, lo <= j < k -> attempt j = None) ->
    backtrack k lo attempt = if k <? lo then None else attempt k.
Proof.
  induction k as [|k IH]; intros H; cbn [backtrack].
  - destruct (0 <? lo); [reflexivity|]. destruct (attempt 0); reflexivity.
  - destruct (S k <? lo) eqn:E; [reflexivity|].
    destruct (attempt (S k)) eqn:Ea; [reflexivity|].
    rewrite IH by (intros j Hj; apply H; lia).
    destruct (k <? lo) eqn:E'; [reflexivity|].
    apply H. apply Nat.ltb_ge in E'. lia.
Qed.

Lemma noneOf_matches (x c : char) : classMatches false (noneOf [x]) c = isNot x c.
Proof.
  pose proof (only_matches x c) as H. unfold classMatches in *.
  cbn [negated ranges noneOf only map] in *. cbn [xorb] in H.
  unfold isNot. rewrite <- H. destruct (inRanges _ c || _); reflexivity.
Qed.

Lemma name_matches (c : char) :
  classMatches false {| negated := false; ranges := wordRanges ++ [(45, 45)]%N |} c
  = isNameChar c.
Proof.
  unfold classMatches, isNameChar. cbn [negated ranges xorb andb].
  rewrite orb_false_r. reflexivity.
Qed.

Lemma matchItems_cons (ic : bool) (it : Item) (its : list Item) (atEnd : bool)
    (s : jsstring) :
  matchItems ic (it :: its) atEnd s
  = backtrack (longestRun (classMatches ic (cls it)) (maxRep it) s) (minRep it)
      (fun k =>
         match matchItems ic its atEnd (skipn k s) with
         | Some (n, gs) => Some (k + n, if captured it then firstn k s :: gs else gs)
         | None => None
         end).
Proof. reflexivity. Qed.

(** The match of one given code unit in front of further items. *)
Lemma char_item (c : char) (its : list Item) (atEnd : bool) (s : jsstring) :
  matchItems false (one (only c) :: its) atEnd s
  = match s with
    | x :: t =>
        if N.eqb c x then
          match matchItems false its atEnd t with
          | Some (n, gs) => Some (S n, gs)
          | None => None
          end
        else None
    | [] => None
    end.
Proof.
  rewrite matchItems_cons. cbn [one cls minRep maxRep captured].
  destruct s as [|x t]; [reflexivity|].
  cbn [longestRun]. rewrite only_matches.
  destruct (N.eqb c x); [|reflexivity].
  rewrite longestRun_zero. cbn [backtrack Nat.ltb Nat.leb skipn].
  destruct (matchItems false its atEnd t) as [[n gs]|]; reflexivity.
Qed.

(** A greedy item without upper bound in front of a code unit outside its
    class takes its longest run, or nothing matches. *)
Lemma run_then_char (it : Item) (c : char) (its : list Item) (atEnd : bool) (s : jsstring) :
  maxRep it = None ->
  classMatches false (cls it) c = false ->
  let p := classMatches false (cls it) in
  matchItems false (it :: one (only c) :: its) atEnd s
  = if length (leading p s) <? minRep it then None
    else match behind p s with
         | x :: t =>
             if N.eqb c x then
               match matchItems false its atEnd t with
               | Some (n, gs) =>
                   Some (length (leading p s) + S n,
                         if captured it then leading p s :: gs else gs)
               | None => None
               end
             else None
         | [] => None
         end.
Proof.
  intros Hmax Hc p. rewrite matchItems_cons. fold p. rewrite Hmax, longestRun_leading.
  rewrite backtrack_top.
  - destruct (length (leading p s) <? minRep it); [reflexivity|].
    rewrite char_item, skipn_leading, firstn_leading.
    destruct (behind p s) as [|x t]; [reflexivity|].
    destruct (N.eqb c x); [|reflexivity].
    destruct (matchItems false its atEnd t) as [[n gs]|]; reflexivity.
  - intros j [_ Hj].
    rewrite char_item.
    destruct (skipn_inside p s j Hj) as [x [t [-> Hx]]].
    destruct (N.eqb_spec c x) as [-> | _]; [|reflexivity].
    unfold p in Hx. rewrite Hx in Hc. discriminate.
Qed.

Lemma leading_ext (p q : char -> bool) (s : jsstring) :
  (forall c, p c = q c) -> leading p s = leading q s /\ behind p s = behind q s.
Proof.
  intros H. induction s as [|x t [IH1 IH2]]; [auto|]. simpl.
  rewrite H, IH1, IH2. auto.
Qed.

Lemma closing_match (s : jsstring) :
  matchItems false closing false s
  = match behind (isNot GT) s with
    | _ :: _ => Some (S (length (leading (isNot GT) s)), [leading (isNot GT) s])
    | [] => None
    end.
Proof.
  unfold closing.
  rewrite (run_then_char (group (star (noneOf [GT]))) GT [] false s eq_refl eq_refl).
  cbv zeta. cbn [group star cls minRep captured matchItems Nat.ltb Nat.leb].
  destruct (leading_ext _ _ s (noneOf_matches GT)) as [-> ->].
  pose proof (behind_head (isNot GT) s) as Hh.
  destruct (behind (isNot GT) s) as [|x t]; [reflexivity|].
  unfold isNot in Hh. apply negb_false_iff in Hh. rewrite Hh.
  rewrite Nat.add_1_r. reflexivity.
Qed.

Lemma behind_nil_skipn (p : char -> bool) (s : jsstring) (j : nat) :
  behind p s = [] -> behind p (skipn j s) = [].
Proof.
  revert j. induction s as [|x t IH]; intros j H; [rewrite skipn_nil; reflexivity|].
  destruct j as [|j]; [exact H|]. simpl in H |- *.
  destruct (p x); [apply IH; exact H | discriminate].
Qed.

Lemma behind_behind (p q : char -> bool) (s : jsstring) (j : nat) :
  (forall c, q c = true -> p c = true) ->
  j <= length (leading q s) ->
  behind p (behind q s) = [] -> behind p (skipn j s) = [].
Proof.
  intros Hqp. revert j. induction s as [|x t IH]; intros j Hj H.
  - rewrite skipn_nil. reflexivity.
  - destruct j as [|j].
    + simpl in H |- *. destruct (q x) eqn:Eq.
      * rewrite (Hqp x Eq). apply (IH 0); [lia | exact H].
      * exact H.
    + simpl in Hj, H |- *. destruct (q x) eqn:Eq; [|simpl in Hj; lia].
      simpl in Hj. apply IH; [lia | exact H].
Qed.

Lemma name_not_gt (c : char) : isNameChar c = true -> isNot GT c = true.
Proof.
  intros H. unfold isNot. destruct (N.eqb_spec GT c) as [<- | _]; [|reflexivity].
  vm_compute in H. discriminate.
Qed.

(** The name and the end of the pattern: the name is the longest run of
    name characters. *)
Lemma name_match (s : jsstring) :
  matchItems false
    (group (plus {| negated := false; ranges := wordRanges ++ [(45, 45)]%N |}) :: closing)
    false s
  = match leading isNameChar s with
    | [] => None
    | x :: n =>
        let r := behind isNameChar s in
        match behind (isNot GT) r with
        | _ :: _ =>
            Some (length (x :: n) + S (length (leading (isNot GT) r)),
                  [x :: n; leading (isNot GT) r])
        | [] => None
        end
    end.
Proof.
  rewrite matchItems_cons. cbn [group plus cls minRep maxRep captured].
  rewrite (longestRun_ext _ _ name_matches), longestRun_leading.
  destruct (behind (isNot GT) (behind isNameChar s)) as [|g r] eqn:Hb.
  - (* no [>] behind the name: no length works *)
    replace (backtrack _ 1 _) with (@None (nat * list jsstring)).
    + destruct (leading isNameChar s); reflexivity.
    + symmetry.
      assert (H : forall k, k <= length (leading isNameChar s) ->
                  backtrack k 1
                    (fun k0 =>
                       match matchItems false closing false (skipn k0 s) with
                       | Some (n, gs) => Some (k0 + n, firstn k0 s :: gs)
                       | None => None
                       end) = None).
      { induction k as [|k IH]; intros Hk; [reflexivity|].
        cbn [backtrack]. destruct (S k <? 1); [reflexivity|].
        rewrite closing_match.
        rewrite (behind_behind (isNot GT) isNameChar s (S k) name_not_gt Hk Hb).
        apply IH. lia. }
      apply H. lia.
  - destruct (leading isNameChar s) as [|x n] eqn:Hl; [reflexivity|].
    cbv zeta.
    apply backtrack_first; [simpl; lia|].
    rewrite <- Hl, skipn_leading, firstn_leading, closing_match, Hb. reflexivity.
Qed.

(** The optional slash in front of the name. *)
Lemma slash_match (s : jsstring) :
  let its := group (plus {| negated := false; ranges := wordRanges ++ [(45, 45)]%N |})
             :: closing in
  matchItems false (group (opt (only SLASH)) :: its) false s
  = match s with
    | c :: t =>
        if N.eqb SLASH c then
          match matchItems false its false t with
          | Some (n, gs) => Some (S n, [SLASH] :: gs)
          | None => None
          end
        else
          match matchItems false its false s with
          | Some (n, gs) => Some (n, [] :: gs)
          | None => None
          end
    | [] => None
    end.
Proof.
  intros its. rewrite matchItems_cons. cbn [group opt cls minRep maxRep captured].
  destruct s as [|c t].
  - cbn [longestRun backtrack Nat.ltb Nat.leb skipn firstn]. unfold its.
    rewrite name_match. reflexivity.
  - cbn [longestRun]. rewrite only_matches.
    destruct (N.eqb_spec SLASH c) as [<- | Hc].
    + rewrite longestRun_zero. cbn [backtrack Nat.ltb Nat.leb skipn firstn].
      destruct (matchItems false its false t) as [[n gs]|]; [reflexivity|].
      unfold its. rewrite name_match. reflexivity.
    + cbn [backtrack Nat.ltb Nat.leb skipn firstn].
      destruct (matchItems false its false (c :: t)) as [[n gs]|]; reflexivity.
Qed.

Lemma scanTag_markup (s : jsstring) (t : Tag) : scanTag s = Some t -> markup t = s.
Proof.
  unfold scanTag, markup, tagText. intros H.
  pose proof (leading_behind (isNot LT) s) as Hs.
  pose proof (behind_head (isNot LT) s) as Hlt.
  destruct (behind (isNot LT) s) as [|lt afterLt]; [discriminate|].
  unfold isNot in Hlt. apply negb_false_iff, N.eqb_eq in Hlt. subst lt.
  set (afterSlash := match afterLt with
                     | c :: t0 => if N.eqb SLASH c then t0 else afterLt
                     | [] => []
                     end) in *.
  set (sl := match afterLt with
             | c :: _ => if N.eqb SLASH c then [SLASH] else []
             | [] => []
             end) in *.
  assert (Hsl : sl ++ afterSlash = afterLt).
  { unfold sl, afterSlash. destruct afterLt as [|c t0]; [reflexivity|].
    destruct (N.eqb_spec SLASH c) as [<- | _]; reflexivity. }
  pose proof (leading_behind isNameChar afterSlash) as Hn.
  destruct (leading isNameChar afterSlash) as [|x n]; [discriminate|].
  pose proof (leading_behind (isNot GT) (behind isNameChar afterSlash)) as Ha.
  pose proof (behind_head (isNot GT) (behind isNameChar afterSlash)) as Hgt.
  destruct (behind (isNot GT) (behind isNameChar afterSlash)) as [|gt r]; [discriminate|].
  unfold isNot in Hgt. apply negb_false_iff, N.eqb_eq in Hgt. subst gt.
  injection H as <-. unfold lead, slash, name, attrs, rest.
  etransitivity; [|exact Hs]. f_equal.
  rewrite <- app_comm_cons. f_equal.
  rewrite <- !app_assoc.
  etransitivity; [|exact Hsl]. f_equal.
  etransitivity; [|exact Hn]. f_equal.
  exact Ha.
Qed.

Lemma searchFrom_anchored (re : RegExp) (s : jsstring) :
  anchorStart re = true ->
  exec re s
  = match matchHere re s with
    | Some (n, gs) => Some {| index := 0; whole := firstn n s; groups := gs |}
    | None => None
    end.
Proof.
  intros Ha. unfold exec. destruct s; cbn [searchFrom];
    destruct (matchHere re _) as [[n gs]|]; try reflexivity; rewrite Ha; reflexivity.
Qed.

(** What the items of the pattern match, in terms of the scan. *)
Lemma tagRegex_items (s : jsstring) :
  matchHere tagRegex s
  = match scanTag s with
    | Some t => Some (length (lead t ++ tagText t), groups (matchOf t))
    | None => None
    end.
Proof.
  unfold matchHere. cbn [tagRegex items ignoreCase anchorEnd].
  rewrite (run_then_char (group (star (noneOf [LT]))) LT _ false s eq_refl eq_refl).
  cbv zeta. cbn [group star cls minRep captured Nat.ltb Nat.leb].
  destruct (leading_ext _ _ s (noneOf_matches LT)) as [-> ->].
  unfold scanTag.
  pose proof (behind_head (isNot LT) s) as Hlt.
  destruct (behind (isNot LT) s) as [|lt afterLt]; [reflexivity|].
  unfold isNot in Hlt. apply negb_false_iff in Hlt. rewrite Hlt.
  fold closing. rewrite slash_match. cbv zeta.
  destruct afterLt as [|c t0]; [reflexivity|].
  destruct (N.eqb SLASH c); rewrite name_match;
    (destruct (leading isNameChar _) as [|x n]; [reflexivity|]);
    cbv zeta;
    (destruct (behind (isNot GT) _) as [|gt r]; [reflexivity|]);
    cbn [matchOf groups lead slash name attrs tagText];
    unfold tagText; cbn [slash name attrs lead]; do 2 f_equal; unfold char;
    repeat (rewrite length_app || cbn [length app]); lia.
Qed.

(** The tag pattern is the one-pass scan. *)
Lemma exec_tagRegex_scan (s : jsstring) :
  exec tagRegex s
  = match scanTag s with
    | Some t => Some (matchOf t)
    | None => None
    end.
Proof.
  rewrite (searchFrom_anchored tagRegex s eq_refl), tagRegex_items.
  destruct (scanTag s) as [t|] eqn:Hscan; [|reflexivity].
  apply scanTag_markup in Hscan. unfold matchOf. f_equal. f_equal.
  rewrite <- Hscan. unfold markup.
  rewrite app_assoc, firstn_app, Nat.sub_diag, firstn_all. cbn [firstn].
  apply app_nil_r.
Qed.

(** A string with the shape of a tag scans as that tag. *)
Lemma scanTag_shaped (t : Tag) : tagShaped t -> scanTag (markup t) = Some t.
Proof.
  intros [Hb [Hs [Hn [Hname [Ha Hnext]]]]].
  destruct t as [b sl nm at_ r]. cbn [lead slash name attrs rest] in *.
  unfold scanTag, markup, tagText. cbn [lead slash name attrs rest].
  assert (Hbefore : forallb (isNot LT) b = true).
  { apply forallb_forall. intros c Hc. unfold isNot.
    destruct (N.eqb_spec LT c) as [<- | _]; [contradiction | reflexivity]. }
  destruct (leading_app (isNot LT) b (LT :: sl ++ nm ++ at_ ++ [GT] ++ r) Hbefore eq_refl)
    as [E1 E2].
  cbn [app] in E1, E2 |- *. rewrite <- !app_assoc. cbn [app].
  rewrite E1, E2.
  assert (Hattrs : forallb (isNot GT) at_ = true).
  { apply forallb_forall. intros c Hc. unfold isNot.
    destruct (N.eqb_spec GT c) as [<- | _]; [contradiction | reflexivity]. }
  assert (Hafter : match at_ ++ GT :: r with c :: _ => isNameChar c = false | [] => True end).
  { destruct at_ as [|c a]; [reflexivity | exact Hnext]. }
  destruct (leading_app isNameChar nm (at_ ++ GT :: r) Hname Hafter) as [N1 N2].
  destruct (leading_app (isNot GT) at_ (GT :: r) Hattrs eq_refl) as [A1 A2].
  destruct nm as [|x n]; [contradiction|].
  assert (Hx : N.eqb SLASH x = false).
  { cbn [forallb] in Hname. apply andb_prop in Hname as [Hx _].
    destruct (N.eqb_spec SLASH x) as [<- | _]; [|reflexivity].
    vm_compute in Hx. discriminate. }
  cbn [app] in N1, N2.
  destruct Hs as [-> | ->]; cbn [app].
  - rewrite Hx. rewrite N1, N2, A1, A2. reflexivity.
  - rewrite N.eqb_refl. rewrite N1, N2, A1, A2. reflexivity.
Qed.

End TagScanFacts.

Module ParserFacts.
Import JsString Regex RegexFacts Html HtmlSpec HtmlTermination ReplaceFacts ClaimEntities.
Import TagScan TagScanFacts.

Lemma scanTag_shape (s : jsstring) (t : Tag) : scanTag s = Some t -> tagShaped t.
Proof.
  unfold scanTag. intros H.
  destruct (behind (isNot LT) s) as [|lt afterLt]; [discriminate|].
  assert (Hslash : forall sl,
            sl = match afterLt with
                 | c :: _ => if N.eqb SLASH c then [SLASH] else []
                 | [] => []
                 end -> sl = [] \/ sl = [SLASH]).
  { intros sl ->. destruct afterLt as [|c t0]; [left; reflexivity|].
    destruct (N.eqb SLASH c); [right | left]; reflexivity. }
  set (afterSlash := match afterLt with
                     | c :: t0 => if N.eqb SLASH c then t0 else afterLt
                     | [] => []
                     end) in *.
  pose proof (leading_all isNameChar afterSlash) as Hname.
  destruct (leading isNameChar afterSlash) as [|x n]; [discriminate|].
  pose proof (behind_head isNameChar afterSlash) as Hnext.
  pose proof (leading_behind (isNot GT) (behind isNameChar afterSlash)) as Hsplit.
  destruct (behind (isNot GT) (behind isNameChar afterSlash)) as [|gt r]; [discriminate|].
  injection H as <-. unfold tagShaped, lead, slash, name, attrs, rest.
  assert (Hnot : forall x0 u, ~ In x0 (leading (isNot x0) u)).
  { intros x0 u Hin. pose proof (leading_all (isNot x0) u) as Hall.
    rewrite forallb_forall in Hall. specialize (Hall x0 Hin).
    unfold isNot in Hall. rewrite N.eqb_refl in Hall. discriminate. }
  split; [apply Hnot|]. split; [apply Hslash; reflexivity|].
  split; [discriminate|]. split; [exact Hname|]. split; [apply Hnot|].
  destruct (leading (isNot GT) (behind isNameChar afterSlash)) as [|c a] eqn:El; [exact I|].
  rewrite <- Hsplit in Hnext. exact Hnext.
Qed.

Lemma skipn_app_length (a b : jsstring) : skipn (length a) (a ++ b) = b.
Proof. rewrite skipn_app, Nat.sub_diag, skipn_all. reflexivity. Qed.

(** One pass of the loop over markup that scans as the tag [t]. *)
Lemma iteration_scanned (env : Env) (s : jsstring) (st : StyleState) (defaultFg : jsstring)
    (t : Tag) :
  scanTag s = Some t ->
  iteration env s st defaultFg
  = let nodes := leadNodes env t st defaultFg in
    let tagName := lowerName env t in
    if str_eqb tagName (js "br") then Next (nodes ++ [lineBreak defaultFg]) (rest t)
    else if str_eqb tagName (js "hr") then Next (nodes ++ [rule env]) (rest t)
    else if str_eqb (slash t) [SLASH] then Next nodes (rest t)
    else match findMatchingClose env (rest t) tagName with
         | None => Next nodes (rest t)
         | Some closeIndex =>
             Enter nodes tagName (attrs t)
                   (slice (rest t) 0 closeIndex)
                   (sliceFrom (rest t) (closeIndex + length (closeTagOf tagName)))
         end.
Proof.
  intros H. unfold iteration. rewrite exec_tagRegex_scan, H.
  cbn [matchOf groups whole nth]. cbv zeta.
  assert (E : sliceFrom s (length (lead t ++ tagText t)) = rest t).
  { rewrite <- (scanTag_markup s t H) at 1. unfold markup, sliceFrom.
    rewrite app_assoc. apply skipn_app_length. }
  rewrite E. reflexivity.
Qed.

Lemma iteration_unscanned (env : Env) (s : jsstring) (st : StyleState) (defaultFg : jsstring) :
  scanTag s = None ->
  iteration env s st defaultFg
  = Stop (if 0 <? length (decodeHtmlEntities s)
          then [textNode env (decodeHtmlEntities s) st defaultFg] else []).
Proof. intros H. unfold iteration. rewrite exec_tagRegex_scan, H. reflexivity. Qed.

Lemma no_lt_no_tag (s : jsstring) : ~ In LT s -> scanTag s = None.
Proof.
  intros H. unfold scanTag.
  pose proof (leading_behind (isNot LT) s) as Hs.
  pose proof (behind_head (isNot LT) s) as Hh.
  destruct (behind (isNot LT) s) as [|c r]; [reflexivity|].
  unfold isNot in Hh. apply negb_false_iff, N.eqb_eq in Hh. subst c.
  exfalso. apply H. rewrite <- Hs. apply in_or_app. right. left. reflexivity.
Qed.

(** Replacement by a non-empty text leaves no non-empty string empty. *)
Lemma replaceAll_nonempty (re : RegExp) (rep s : jsstring) :
  rep <> [] -> s <> [] -> replaceAll re rep s <> [].
Proof.
  intros Hrep Hs. destruct s as [|c s']; [congruence|].
  unfold replaceAll. cbn [replaceFrom].
  destruct (matchHere re (c :: s')) as [[n gs]|]; [|discriminate].
  destruct rep; [congruence | discriminate].
Qed.

Lemma replaceFrom_shorter (name : string) (c : char) :
  js name <> [] ->
  forall s k, length (replaceFrom (entity name) [c] k s) <= length s.
Proof.
  intros Hne. induction s as [|x s IH]; intros k.
  - destruct k; cbn [replaceFrom].
    + rewrite matchHere_entity. destruct (js name) as [|y e]; [congruence|]. reflexivity.
    + reflexivity.
  - destruct k as [|k]; cbn [replaceFrom].
    + rewrite matchHere_entity.
      destruct (startsWith (js name) (x :: s)) eqn:E.
      * destruct (length (js name)) as [|n] eqn:L.
        -- destruct (js name); [congruence | discriminate].
        -- cbn [app length]. specialize (IH n). lia.
      * cbn [length]. specialize (IH 0). lia.
    + specialize (IH k). cbn [length]. lia.
Qed.

Lemma decode_nonempty (t : jsstring) : t <> [] -> decodeHtmlEntities t <> [].
Proof.
  intros H. unfold decodeHtmlEntities. cbv zeta.
  repeat (apply replaceAll_nonempty; [discriminate|]). exact H.
Qed.

Lemma decode_shorter (t : jsstring) : length (decodeHtmlEntities t) <= length t.
Proof.
  unfold decodeHtmlEntities, replaceAll. cbv zeta.
  etransitivity; [apply (replaceFrom_shorter "&nbsp;" 32%N); discriminate|].
  etransitivity; [apply (replaceFrom_shorter "&#39;" SQUOTE); discriminate|].
  etransitivity; [apply (replaceFrom_shorter "&quot;" DQUOTE); discriminate|].
  etransitivity; [apply (replaceFrom_shorter "&amp;" 38%N); discriminate|].
  etransitivity; [apply (replaceFrom_shorter "&gt;" 62%N); discriminate|].
  apply (replaceFrom_shorter "&lt;" 60%N); discriminate.
Qed.

Lemma decode_free (t : jsstring) : freeOf escapes t -> decodeHtmlEntities t = t.
Proof.
  intros H.
  assert (Ho : forall name, In (js name) escapes -> ~ occursIn (js name) t).
  { intros name Hin. apply includes_absent. apply H. exact Hin. }
  unfold decodeHtmlEntities. cbv zeta.
  rewrite (replaceAll_absent "&lt;") by (apply Ho; vm_compute; auto 10).
  rewrite (replaceAll_absent "&gt;") by (apply Ho; vm_compute; auto 10).
  rewrite (replaceAll_absent "&amp;") by (apply Ho; vm_compute; auto 10).
  rewrite (replaceAll_absent "&quot;") by (apply Ho; vm_compute; auto 10).
  rewrite (replaceAll_absent "&#39;") by (apply Ho; vm_compute; auto 10).
  rewrite (replaceAll_absent "&nbsp;") by (apply Ho; vm_compute; auto 10).
  reflexivity.
Qed.

End ParserFacts.

Module ParserTheorems.
Import JsString Regex RegexFacts Html HtmlSpec HtmlTermination ReplaceFacts ClaimEntities.
Import TagScan TagScanFacts ParserFacts.

(** X11.  The tag pattern, with its backtracking, finds what one pass over
    the string finds: the text up to the first [<], a slash if one follows,
    the longest run of name characters, which may not be empty, and the
    attribute text up to the first [>].  A string scans as a tag exactly
    when it is made of such pieces, so a [<] that no name follows, or a
    name that no [>] follows, leaves the pattern without a match however
    many tags come later. *)
Theorem tag_pattern_is_one_pass_scan (s : jsstring) :
  exec tagRegex s
  = match scanTag s with
    | Some t => Some (matchOf t)
    | None => None
    end
  /\ (forall t, scanTag s = Some t <-> tagShaped t /\ markup t = s).
Proof.
  split; [apply exec_tagRegex_scan|].
  intros t. split.
  - intros H. split; [exact (scanTag_shape s t H) | exact (scanTag_markup s t H)].
  - intros [Hshape <-]. apply scanTag_shaped. exact Hshape.
Qed.

Lemma scanned_nonempty (s : jsstring) (t : Tag) : scanTag s = Some t -> s <> [].
Proof. intros H ->. discriminate H. Qed.

Lemma parse_next (env : Env) (html : jsstring) (st : StyleState) (defaultFg : jsstring)
    (ltype : ListType) (counter : nat) (nodes : list TextNode) (remaining : jsstring) :
  html <> [] ->
  iteration env html st defaultFg = Next nodes remaining ->
  parseHtmlContent env html st defaultFg ltype counter
  = thenParse env nodes remaining st defaultFg ltype counter.
Proof.
  intros Hne Hit. rewrite (parseHtmlContent_unfold env html) by exact Hne.
  unfold parseStep. rewrite Hit. reflexivity.
Qed.

(** X12.  Markup in which the pattern finds no tag is one run of text,
    the whole of it entity-decoded, under the ambient style; the counter
    of the list context is left alone. *)
Theorem text_without_a_tag (env : Env) (html : jsstring) (st : StyleState)
    (defaultFg : jsstring) (ltype : ListType) (counter : nat) :
  html <> [] ->
  ~ In LT html \/ scanTag html = None ->
  parseHtmlContent env html st defaultFg ltype counter
  = ([textNode env (decodeHtmlEntities html) st defaultFg], counter).
Proof.
  intros Hne H.
  assert (Hscan : scanTag html = None) by (destruct H; [apply no_lt_no_tag|]; assumption).
  rewrite (parseHtmlContent_unfold env html) by exact Hne.
  unfold parseStep. rewrite (iteration_unscanned env html st defaultFg Hscan).
  pose proof (decode_nonempty html Hne) as Hd.
  destruct (decodeHtmlEntities html); [congruence | reflexivity].
Qed.

Lemma text_without_a_tag_witness :
  parseHtmlContent demoEnv (js "1 < 2 <b>x</b>") initialState white ListNull 0
  = ([textNode demoEnv (decodeHtmlEntities (js "1 < 2 <b>x</b>")) initialState white], 0).
Proof.
  apply (text_without_a_tag demoEnv (js "1 < 2 <b>x</b>")).
  - discriminate.
  - right. vm_compute. reflexivity.
Defined.

Lemma str_eqb_neq (a b : jsstring) : a <> b -> str_eqb a b = false.
Proof.
  intros H. destruct (str_eqb a b) eqn:E; [|reflexivity].
  apply str_eqb_eq in E. contradiction.
Qed.

(** X13.  A tag named br, in whatever case and form (opening, closing
    or with a slash or attributes behind the name), stands for one run of
    a newline in the default colour, and one named hr for the run of the
    rule in the muted colour; the text in front of the tag comes first and
    the parser goes on behind the tag. *)
Theorem line_break_and_rule (env : Env) (html : jsstring) (t : Tag) (st : StyleState)
    (defaultFg : jsstring) (ltype : ListType) (counter : nat) :
  scanTag html = Some t ->
  lowerName env t = js "br" \/ lowerName env t = js "hr" ->
  parseHtmlContent env html st defaultFg ltype counter
  = thenParse env
      (leadNodes env t st defaultFg
       ++ [if str_eqb (lowerName env t) (js "br") then lineBreak defaultFg else rule env])
      (rest t) st defaultFg ltype counter.
Proof.
  intros Hscan Hname. apply parse_next; [exact (scanned_nonempty _ _ Hscan)|].
  rewrite (iteration_scanned env html st defaultFg t Hscan). cbv zeta.
  destruct Hname as [-> | ->]; reflexivity.
Qed.

Lemma line_break_and_rule_witness :
  parseHtmlContent demoEnv (js "a</BR >b") initialState white ListNull 0
  = thenParse demoEnv
      (leadNodes demoEnv
         {| lead := js "a"; slash := js "/"; name := js "BR"; attrs := js " ";
            rest := js "b" |} initialState white
       ++ [if str_eqb (lowerName demoEnv
                         {| lead := js "a"; slash := js "/"; name := js "BR";
                            attrs := js " "; rest := js "b" |}) (js "br")
           then lineBreak white else rule demoEnv])
      (rest {| lead := js "a"; slash := js "/"; name := js "BR"; attrs := js " ";
               rest := js "b" |}) initialState white ListNull 0.
Proof.
  apply (line_break_and_rule demoEnv (js "a</BR >b")
           {| lead := js "a"; slash := js "/"; name := js "BR"; attrs := js " ";
              rest := js "b" |}).
  - vm_compute. reflexivity.
  - left. vm_compute. reflexivity.
Defined.

Lemma findMatchingClose_never (env : Env) (remaining tagName : jsstring) :
  neverClosed env tagName remaining -> findMatchingClose env remaining tagName = None.
Proof.
  intros H. unfold findMatchingClose. cbn [findLoop].
  destruct ((0 <? 1)%Z && (0 <? length remaining)); [|reflexivity].
  unfold indexOf. cbn [skipn Nat.min].
  pose proof (indexOfFrom_occurs (toLowerCase env (closeTagOf tagName))
                (toLowerCase env remaining) 0) as Ho.
  destruct (indexOfFrom _ 0 _); [|reflexivity].
  exfalso. apply H. apply Ho. exact I.
Qed.

(** X14.  A closing tag, and an opening tag behind which no closing tag
    of its name occurs, are dropped: the text in front is pushed and the
    parser goes on behind the tag as if the tag were not there (the names
    br and hr apart). *)
Theorem unmatched_tags_are_dropped (env : Env) (html : jsstring) (t : Tag) (st : StyleState)
    (defaultFg : jsstring) (ltype : ListType) (counter : nat) :
  scanTag html = Some t ->
  lowerName env t <> js "br" -> lowerName env t <> js "hr" ->
  slash t = [SLASH] \/ neverClosed env (lowerName env t) (rest t) ->
  parseHtmlContent env html st defaultFg ltype counter
  = thenParse env (leadNodes env t st defaultFg) (rest t) st defaultFg ltype counter.
Proof.
  intros Hscan Hbr Hhr H. apply parse_next; [exact (scanned_nonempty _ _ Hscan)|].
  rewrite (iteration_scanned env html st defaultFg t Hscan). cbv zeta.
  rewrite (str_eqb_neq _ _ Hbr), (str_eqb_neq _ _ Hhr).
  destruct (str_eqb (slash t) [SLASH]) eqn:Es; [reflexivity|].
  destruct H as [Hs | Hnever].
  - rewrite Hs in Es. discriminate.
  - rewrite (findMatchingClose_never env _ _ Hnever). reflexivity.
Qed.

Lemma unmatched_tags_are_dropped_witness :
  parseHtmlContent demoEnv (js "</b>hello") initialState white ListNull 0
  = thenParse demoEnv
      (leadNodes demoEnv
         {| lead := []; slash := js "/"; name := js "b"; attrs := [];
            rest := js "hello" |} initialState white)
      (rest {| lead := []; slash := js "/"; name := js "b"; attrs := [];
               rest := js "hello" |}) initialState white ListNull 0.
Proof.
  apply (unmatched_tags_are_dropped demoEnv (js "</b>hello")
           {| lead := []; slash := js "/"; name := js "b"; attrs := [];
              rest := js "hello" |}).
  - vm_compute. reflexivity.
  - vm_compute. discriminate.
  - vm_compute. discriminate.
  - left. reflexivity.
Defined.

Lemma indexOfFrom_starts (needle : jsstring) :
  forall s idx i, indexOfFrom needle idx s = Some i ->
    idx <= i /\ startsWith needle (skipn (i - idx) s) = true.
Proof.
  induction s as [|c s IH]; intros idx i H; cbn [indexOfFrom] in H.
  - destruct (startsWith needle []) eqn:E; [|discriminate].
    injection H as <-. rewrite Nat.sub_diag. auto.
  - destruct (startsWith needle (c :: s)) eqn:E.
    + injection H as <-. rewrite Nat.sub_diag. auto.
    + apply IH in H as [Hle Hs]. split; [lia|].
      replace (i - idx) with (S (i - S idx)) by lia. exact Hs.
Qed.

Lemma indexOf_starts (hay needle : jsstring) (pos i : nat) :
  indexOf hay needle pos = Some i ->
  startsWith needle (skipn i hay) = true /\ i <= length hay.
Proof.
  unfold indexOf. intros H.
  pose proof (indexOfFrom_bounds needle _ _ _ H) as [Hlo Hhi].
  apply indexOfFrom_starts in H as [Hle Hs].
  rewrite skipn_skipn in Hs. rewrite length_skipn in Hhi.
  destruct (Nat.le_gt_cases pos (length hay)) as [Hp | Hp].
  - rewrite Nat.min_l in * by exact Hp.
    replace (i - pos + pos) with i in Hs by lia. split; [exact Hs | lia].
  - rewrite Nat.min_r in * by lia.
    split; [|lia].
    rewrite skipn_all2 in Hs by lia. rewrite skipn_all2 by lia. exact Hs.
Qed.

Lemma findLoop_sound (env : Env) (html tagName : jsstring) :
  forall fuel depth pos i,
    findLoop env fuel html tagName depth pos = Some (Some i) ->
    startsWith (toLowerCase env (closeTagOf tagName)) (skipn i (toLowerCase env html)) = true
    /\ i <= length (toLowerCase env html).
Proof.
  induction fuel as [|fuel IH]; intros depth pos i H; cbn [findLoop] in H; [discriminate|].
  destruct ((0 <? depth)%Z && (pos <? length html)); [|discriminate].
  destruct (indexOf _ _ pos) as [nextClose|] eqn:E; [|discriminate].
  destruct (_ =? 0)%Z.
  - injection H as <-. exact (indexOf_starts _ _ _ _ E).
  - exact (IH _ _ _ H).
Qed.

(** X15.  The index [findMatchingClose] answers is one at which the
    lower-cased markup goes on with the lower-cased closing tag, and when
    that closing tag occurs nowhere the answer is none. *)
Theorem matching_close_is_a_closing_tag (env : Env) (html tagName : jsstring) :
  (forall i, findMatchingClose env html tagName = Some i ->
     startsWith (toLowerCase env (closeTagOf tagName)) (skipn i (toLowerCase env html)) = true
     /\ i <= length (toLowerCase env html))
  /\ (neverClosed env tagName html -> findMatchingClose env html tagName = None).
Proof.
  split; [|apply findMatchingClose_never].
  intros i H. unfold findMatchingClose in H.
  destruct (findLoop env _ html tagName 1 0) as [r|] eqn:E; [|discriminate].
  subst r. exact (findLoop_sound env html tagName _ _ _ _ E).
Qed.

(** X16.  Decoding leaves text without any of the six escapes as it is;
    it never makes a text longer, and never makes a text empty that was
    not. *)
Theorem decoding_plain_text (t : jsstring) :
  (freeOf escapes t -> decodeHtmlEntities t = t)
  /\ length (decodeHtmlEntities t) <= length t
  /\ (t <> [] -> decodeHtmlEntities t <> []).
Proof.
  split; [apply decode_free|]. split; [apply decode_shorter | apply decode_nonempty].
Qed.

End ParserTheorems.

Module RunInvariants.
Import JsString Regex RegexFacts Html HtmlSpec HtmlTermination ReplaceFacts ClaimEntities.
Import TagScan TagScanFacts ParserFacts.

Section Invariant.
Variable env : Env.

(** A property of runs that may depend on the ambient style and default
    colour of the call that pushes them. *)
Variable P : StyleState -> jsstring -> TextNode -> Prop.

Hypothesis pushed_ok :
  forall html st defaultFg, Forall (P st defaultFg) (pushed (iteration env html st defaultFg)).
Hypothesis action_ok :
  forall tagName tagAttrs st defaultFg ltype counter,
    let act := tagAction env tagName tagAttrs st defaultFg ltype counter in
    Forall (P st defaultFg) (before act) /\ Forall (P st defaultFg) (after act).
Hypothesis descent_ok :
  forall tagName tagAttrs st defaultFg ltype counter d r,
    descent (tagAction env tagName tagAttrs st defaultFg ltype counter) = Some d ->
    P (subState d) (subFg d) r -> P st defaultFg r.

Lemma parse_invariant :
  forall n html, length html <= n ->
    forall st defaultFg ltype counter,
      Forall (P st defaultFg) (fst (parseHtmlContent env html st defaultFg ltype counter)).
Proof.
  induction n as [|n IH]; intros html Hlen st defaultFg ltype counter.
  - destruct html; [|simpl in Hlen; lia]. rewrite parseHtmlContent_nil. constructor.
  - destruct html as [|x html']; [rewrite parseHtmlContent_nil; constructor|].
    set (html := x :: html') in *.
    rewrite parseHtmlContent_unfold by discriminate.
    unfold parseStep.
    pose proof (iteration_progresses env html st defaultFg) as Hp.
    pose proof (pushed_ok html st defaultFg) as Hpush.
    destruct (iteration env html st defaultFg)
      as [nodes | nodes remaining | nodes tagName tagAttrs innerHtml remaining] eqn:Hit;
      cbn [progresses pushed fst] in *.
    + exact Hpush.
    + apply Forall_app. split; [exact Hpush|].
      apply IH. apply consumes_shorter in Hp. lia.
    + destruct Hp as [Hrem Hin].
      pose proof (action_ok tagName tagAttrs st defaultFg ltype counter) as [Hbefore Hafter].
      pose proof (descent_ok tagName tagAttrs st defaultFg ltype counter) as Hdesc.
      cbv zeta in Hbefore, Hafter.
      set (act := tagAction env tagName tagAttrs st defaultFg ltype counter) in *.
      assert (Hinner : Forall (P st defaultFg) (fst (parseBody env act innerHtml ltype))).
      { unfold parseBody. destruct (descent act) as [d|] eqn:Ed; [|constructor].
        assert (Hsub : forall lt c,
                  Forall (P st defaultFg)
                    (fst (parseHtmlContent env innerHtml (subState d) (subFg d) lt c))).
        { intros lt c. eapply Forall_impl; [intros r; apply (Hdesc d r eq_refl)|].
          apply IH. lia. }
        destruct (subContext d) as [|t]; cbn [fst]; apply Hsub. }
      repeat (apply Forall_app; split); try assumption.
      apply IH. apply consumes_shorter in Hrem. lia.
Qed.

End Invariant.

(** The cases of the [switch], one goal each. *)
Ltac tag_cases tagName :=
  unfold tagAction; cbv zeta;
  repeat match goal with
         | |- context [if isTag tagName ?names then _ else _] =>
             destruct (isTag tagName names)
         end.

Lemma collapse_nonempty (t : jsstring) :
  t <> [] -> replaceAll spacesRegex (js " ") t <> [].
Proof. apply replaceAll_nonempty. discriminate. Qed.

Lemma segmentNodes_cases (env : Env) (t : jsstring) (st : StyleState) (defaultFg : jsstring) :
  segmentNodes env t st defaultFg = []
  \/ exists t', t' <> [] /\ segmentNodes env t st defaultFg = [textNode env t' st defaultFg].
Proof.
  unfold segmentNodes. cbv zeta.
  destruct ((0 <? length t) && _) eqn:E; [|left; reflexivity].
  apply andb_prop in E as [E _]. apply Nat.ltb_lt in E.
  assert (Ht : t <> []) by (destruct t; [simpl in E; lia | discriminate]).
  right. destruct (code st).
  - exists t. auto.
  - exists (replaceAll spacesRegex (js " ") t). split; [apply collapse_nonempty; exact Ht|].
    reflexivity.
Qed.

(** The runs one pass pushes: markup text that is not empty, under the
    ambient style, and after it at most one of the two fixed runs. *)
Lemma pushed_cases (env : Env) (html : jsstring) (st : StyleState) (defaultFg : jsstring) :
  exists texts fixed,
    pushed (iteration env html st defaultFg) = texts ++ fixed
    /\ Forall (fun r => exists t, t <> [] /\ r = textNode env t st defaultFg) texts
    /\ (fixed = [] \/ fixed = [lineBreak defaultFg] \/ fixed = [rule env]).
Proof.
  unfold iteration.
  destruct (exec tagRegex html) as [m|].
  - cbv zeta.
    set (seg := segmentNodes env _ st defaultFg).
    assert (Hseg : Forall (fun r => exists t, t <> [] /\ r = textNode env t st defaultFg) seg).
    { subst seg. destruct (segmentNodes_cases env (decodeHtmlEntities (nth 0 (groups m) []))
                             st defaultFg) as [-> | [t' [Ht ->]]];
        [constructor | constructor; [exists t'; auto | constructor]]. }
    destruct (str_eqb _ (js "br")); [exists seg, [lineBreak defaultFg]; auto|].
    destruct (str_eqb _ (js "hr")); [exists seg, [rule env]; auto|].
    destruct (str_eqb _ [SLASH]);
      [exists seg, []; rewrite app_nil_r; auto|].
    destruct (findMatchingClose _ _ _); exists seg, []; rewrite app_nil_r; auto.
  - cbv zeta. cbn [pushed].
    destruct (0 <? length (decodeHtmlEntities html)) eqn:E.
    + exists [textNode env (decodeHtmlEntities html) st defaultFg], [].
      split; [reflexivity|]. split; [|auto].
      constructor; [|constructor]. exists (decodeHtmlEntities html). split; [|reflexivity].
      apply Nat.ltb_lt in E. destruct (decodeHtmlEntities html); [simpl in E; lia | discriminate].
    + exists [], []. auto.
Qed.

Lemma literal_cases (P : TextNode -> Prop) (nodes : list TextNode) :
  Forall P nodes -> forall r, In r nodes -> P r.
Proof. intros H r Hr. rewrite Forall_forall in H. exact (H r Hr). Qed.

Lemma numbered_nonempty (n : nat) : numberToString n ++ js ". " <> [].
Proof. intros H. apply app_eq_nil in H as [_ H]. discriminate. Qed.

Lemma attachmentNodes_cases (env : Env) (tagAttrs defaultFg : jsstring) :
  attachmentNodes env tagAttrs defaultFg = []
  \/ exists icon label,
       attachmentNodes env tagAttrs defaultFg
       = [ literal [NEWLINE] defaultFg; literal [icon; 32%N] (accent env);
           literal (js "[" ++ label ++ js "]") (secondary env);
           literal [NEWLINE] defaultFg ].
Proof.
  unfold attachmentNodes. cbv zeta.
  destruct (_ && optStartsWith "image/" _); [left; reflexivity|].
  destruct (_ && optStartsWith "video/" _); [right; eauto|].
  destruct (truthy _); [right; eauto | left; reflexivity].
Qed.

Lemma attachmentNodes_exact (env : Env) (tagAttrs defaultFg : jsstring) :
  attachmentNodes env tagAttrs defaultFg = []
  \/ exists icon label,
       (icon = 61501%N \/ icon = 61638%N)
       /\ attachmentNodes env tagAttrs defaultFg
          = [ literal [NEWLINE] defaultFg; literal [icon; 32%N] (accent env);
              literal (js "[" ++ label ++ js "]") (secondary env);
              literal [NEWLINE] defaultFg ].
Proof.
  unfold attachmentNodes. cbv zeta.
  destruct (_ && optStartsWith "image/" _); [left; reflexivity|].
  destruct (_ && optStartsWith "video/" _); [right; eauto 6|].
  destruct (truthy _); [right; eauto 6 | left; reflexivity].
Qed.

(** The colour of the call a [case] makes is one of the caller's. *)
Lemma descent_colour (env : Env) tagName tagAttrs st defaultFg ltype counter d :
  descent (tagAction env tagName tagAttrs st defaultFg ltype counter) = Some d ->
  In (subFg d) (palette env defaultFg).
Proof.
  tag_cases tagName; try destruct ltype; cbn [descent recurse];
    intros H; try discriminate H; injection H as <-; cbn [subFg palette In]; auto 10.
Qed.

(** The style of the call a [case] makes has at least the caller's flags. *)
Lemma descent_style (env : Env) tagName tagAttrs st defaultFg ltype counter d :
  descent (tagAction env tagName tagAttrs st defaultFg ltype counter) = Some d ->
  atLeast st (subState d).
Proof.
  tag_cases tagName; try destruct ltype; cbn [descent recurse];
    intros H; try discriminate H; injection H as <-; cbn [subState];
    unfold atLeast, setBold, setItalic, setStrikethrough, setCode;
    cbn [bold italic strikethrough code]; auto.
Qed.

Lemma getAttributes_mono (env : Env) (st st' : StyleState) :
  atLeast st st' -> N.lor (getAttributes env st) (getAttributes env st') = getAttributes env st'.
Proof.
  intros [Hb [Hi [Hs _]]]. unfold getAttributes. cbv zeta.
  apply N.bits_inj. intros n. rewrite N.lor_spec.
  destruct (bold st); [rewrite (Hb eq_refl)|];
    (destruct (italic st); [rewrite (Hi eq_refl)|]);
    (destruct (strikethrough st); [rewrite (Hs eq_refl)|]);
    try destruct (bold st'); try destruct (italic st'); try destruct (strikethrough st');
    rewrite ?N.lor_spec, ?N.bits_0;
    destruct (N.testbit (BOLD env) n), (N.testbit (ITALIC env) n),
             (N.testbit (STRIKETHROUGH env) n); reflexivity.
Qed.

Lemma text_runs_ok (env : Env) (P : TextNode -> Prop) (st : StyleState)
    (defaultFg : jsstring) (html : jsstring) :
  (forall t, t <> [] -> P (textNode env t st defaultFg)) ->
  P (lineBreak defaultFg) -> P (rule env) ->
  Forall P (pushed (iteration env html st defaultFg)).
Proof.
  intros Ht Hbr Hhr.
  destruct (pushed_cases env html st defaultFg) as [texts [fixed [-> [Htexts Hfixed]]]].
  apply Forall_app. split.
  - eapply Forall_impl; [|exact Htexts]. intros r [t [Hne ->]]. apply Ht. exact Hne.
  - destruct Hfixed as [-> | [-> | ->]]; repeat constructor; assumption.
Qed.

(** The runs of a [case], before and after the body's: runs of punctuation
    with text and a colour of the caller's. *)
Lemma action_runs (env : Env) tagName tagAttrs st defaultFg ltype counter :
  let act := tagAction env tagName tagAttrs st defaultFg ltype counter in
  forall r, In r (before act) \/ In r (after act) ->
    attributes r = None /\ text r <> [] /\ In (fg r) (palette env defaultFg).
Proof.
  cbv zeta.
  assert (Hlit : forall t c, t <> [] -> In c (palette env defaultFg) ->
            forall r, r = literal t c ->
              attributes r = None /\ text r <> [] /\ In (fg r) (palette env defaultFg)).
  { intros t c Ht Hc r ->. cbn [literal attributes text fg]. auto. }
  assert (Hatt : forall r, In r (attachmentNodes env tagAttrs defaultFg) ->
            attributes r = None /\ text r <> [] /\ In (fg r) (palette env defaultFg)).
  { intros r Hr.
    destruct (attachmentNodes_cases env tagAttrs defaultFg) as [E | [icon [label E]]];
      rewrite E in Hr; [destruct Hr|].
    cbn [In] in Hr.
    destruct Hr as [<- | [<- | [<- | [<- | []]]]];
      cbn [literal attributes text fg palette In]; repeat split;
      try discriminate; auto 10. }
  tag_cases tagName; try destruct ltype; cbn [before after In];
    try destruct (extractHref tagAttrs) as [h|]; try destruct (truthy (Some h));
    cbn [In];
    intros r Hr;
    repeat match goal with
           | H : _ \/ _ |- _ => destruct H as [H | H]
           | H : False |- _ => destruct H
           end;
    try (apply Hatt; assumption);
    subst r; cbn [literal attributes text fg palette In]; repeat split;
    try discriminate; try apply numbered_nonempty; auto 10.
Qed.

(** The runs of a [case] are punctuation. *)
Lemma action_punctuation (env : Env) tagName tagAttrs st defaultFg ltype counter :
  let act := tagAction env tagName tagAttrs st defaultFg ltype counter in
  forall r, In r (before act) \/ In r (after act) ->
    attributes r = None /\ punctuation (text r).
Proof.
  cbv zeta.
  assert (Hatt : forall r, In r (attachmentNodes env tagAttrs defaultFg) ->
            attributes r = None /\ punctuation (text r)).
  { intros r Hr.
    destruct (attachmentNodes_exact env tagAttrs defaultFg) as [E | [icon [label [Hicon E]]]];
      rewrite E in Hr; [destruct Hr|].
    cbn [In] in Hr.
    destruct Hr as [<- | [<- | [<- | [<- | []]]]];
      cbn [literal attributes text]; (split; [reflexivity|]).
    - left. cbn [In]. auto 10.
    - left. destruct Hicon as [-> | ->]; cbn [In]; auto 10.
    - right. right. right. exists label. reflexivity.
    - left. cbn [In]. auto 10. }
  tag_cases tagName; try destruct ltype; cbn [before after In];
    try destruct (extractHref tagAttrs) as [h|]; try destruct (truthy (Some h));
    cbn [In];
    intros r Hr;
    repeat match goal with
           | H : _ \/ _ |- _ => destruct H as [H | H]
           | H : False |- _ => destruct H
           end;
    try (apply Hatt; assumption);
    subst r; cbn [literal attributes text]; (split; [reflexivity|]);
    first [ left; cbn [In]; solve [auto 10]
          | right; left; eexists; reflexivity
          | right; right; left; eexists; reflexivity ].
Qed.

(** The attributes of a state hold the bit of each of its flags. *)
Lemma getAttributes_flags (env : Env) (st : StyleState) :
  (bold st = true -> N.lor (BOLD env) (getAttributes env st) = getAttributes env st)
  /\ (italic st = true -> N.lor (ITALIC env) (getAttributes env st) = getAttributes env st)
  /\ (strikethrough st = true
      -> N.lor (STRIKETHROUGH env) (getAttributes env st) = getAttributes env st).
Proof.
  unfold getAttributes. cbv zeta.
  destruct (bold st), (italic st), (strikethrough st); repeat split; intros H;
    try discriminate H; apply N.bits_inj; intros n;
    rewrite ?N.lor_spec, ?N.bits_0;
    destruct (N.testbit (BOLD env) n), (N.testbit (ITALIC env) n),
             (N.testbit (STRIKETHROUGH env) n); reflexivity.
Qed.

End RunInvariants.

Module RunTheorems.
Import JsString Regex RegexFacts Html HtmlSpec HtmlTermination ReplaceFacts ClaimEntities.
Import TagScan TagScanFacts ParserFacts RunInvariants.

Lemma palette_of_descent (env : Env) (defaultFg sub c : jsstring) :
  In sub (palette env defaultFg) -> In c (palette env sub) -> In c (palette env defaultFg).
Proof.
  intros Hsub Hc. cbn [palette In] in Hc.
  destruct Hc as [<- | Hc]; [exact Hsub|].
  cbn [palette In]. right. exact Hc.
Qed.

(** X17.  No run of the parser is empty, and every run has the caller's
    default colour, the code colour, or one of the four colours of the
    theme the parser reads: muted, primary, secondary, accent. *)
Theorem runs_have_text_and_colour (env : Env) (html : jsstring) (st : StyleState)
    (defaultFg : jsstring) (ltype : ListType) (counter : nat) (r : TextNode) :
  In r (fst (parseHtmlContent env html st defaultFg ltype counter)) ->
  text r <> [] /\ In (fg r) (palette env defaultFg).
Proof.
  revert r. apply literal_cases.
  apply (parse_invariant env
           (fun _ fgc r => text r <> [] /\ In (fg r) (palette env fgc))) with (n := length html);
    [| | |lia].
  - intros h s fgc. apply text_runs_ok.
    + intros t Ht. cbn [textNode text fg palette In]. split; [exact Ht|].
      destruct (code s); auto.
    + cbn [lineBreak literal text fg palette In]. split; [discriminate | auto].
    + cbn [rule literal text fg palette In]. split; [discriminate | auto].
  - intros tagName tagAttrs s fgc lt c. cbv zeta.
    split; apply Forall_forall; intros x Hx;
      [ destruct (action_runs env tagName tagAttrs s fgc lt c x (or_introl Hx)) as [_ H]
      | destruct (action_runs env tagName tagAttrs s fgc lt c x (or_intror Hx)) as [_ H] ];
      exact H.
  - intros tagName tagAttrs s fgc lt c d x Hd [Ht Hc]. split; [exact Ht|].
    eapply palette_of_descent; [exact (descent_colour env _ _ _ _ _ _ _ Hd) | exact Hc].
Qed.

Lemma runs_have_text_and_colour_witness :
  text (literal (js "1. ") (accent demoEnv)) <> []
  /\ In (fg (literal (js "1. ") (accent demoEnv))) (palette demoEnv white).
Proof.
  apply (runs_have_text_and_colour demoEnv (js "<ol><li>a</li></ol>") initialState white
           ListNull 0).
  vm_compute. auto.
Defined.

(** X18.  Style is never lost on the way down.  Every run the parser
    returns for markup parsed under a style state is either punctuation
    pushed with a colour only (the newline, the rule, a bullet or number,
    the bar of a quotation, the brackets and target of a link, the icon
    and bracketed name of an attachment), or a run with attributes; the
    attributes then hold the bold bit if the state is bold, the italic bit
    if it is italic and the strikethrough bit if it is struck through, and
    the run has the code colour if the state has the code flag, however
    the markup nests. *)
Theorem runs_carry_the_style (env : Env) (html : jsstring) (st : StyleState)
    (defaultFg : jsstring) (ltype : ListType) (counter : nat) (r : TextNode) :
  In r (fst (parseHtmlContent env html st defaultFg ltype counter)) ->
  carries env st r.
Proof.
  revert r. apply literal_cases.
  apply (parse_invariant env (fun s _ r => carries env s r)) with (n := length html);
    [| | |lia].
  - intros h s fgc. apply text_runs_ok.
    + intros t _. right. exists (getAttributes env s). split; [reflexivity|].
      destruct (getAttributes_flags env s) as [Hb [Hi Hs]].
      repeat split; try assumption.
      intros Hc. cbn [textNode fg]. rewrite Hc. reflexivity.
    + left. split; [reflexivity|]. left. cbn [lineBreak literal text In]. auto 10.
    + left. split; [reflexivity|]. left. cbn [rule literal text In]. auto 10.
  - intros tagName tagAttrs s fgc lt c. cbv zeta.
    split; apply Forall_forall; intros x Hx; left;
      [ exact (action_punctuation env tagName tagAttrs s fgc lt c x (or_introl Hx))
      | exact (action_punctuation env tagName tagAttrs s fgc lt c x (or_intror Hx)) ].
  - intros tagName tagAttrs s fgc lt c d x Hd [Hnone | [a [Ha [Hb [Hi [Hs Hcode]]]]]];
      [left; exact Hnone | right].
    destruct (descent_style env _ _ _ _ _ _ _ Hd) as [Sb [Si [Ss Sc]]].
    exists a. split; [exact Ha|]. repeat split; auto.
Qed.

Lemma runs_carry_the_style_witness :
  carries demoEnv (setBold initialState)
    {| text := js "y"; fg := white; attributes := Some 5%N |}.
Proof.
  apply (runs_carry_the_style demoEnv (js "x<i>y</i>") (setBold initialState) white
           ListNull 0).
  vm_compute. auto.
Defined.

End RunTheorems.

Module PlaceholderTheorems.
Import JsString Placeholder.

Lemma sliceTo_length (s : jsstring) (to : Z) :
  (0 <= to)%Z -> Z.of_nat (length (sliceTo s to)) = Z.min to (Z.of_nat (length s)).
Proof.
  intros H. unfold sliceTo.
  replace (to <? 0)%Z with false by (symmetry; apply Z.ltb_ge; exact H).
  rewrite length_firstn. lia.
Qed.

(** X19.  In a box at least 7 cells wide the placeholder's text never has
    more than width - 4 code units: a text that fits is shown as it is,
    a longer one is cut to its first width - 7 code units and three
    dots.  In a narrower box a text that does not fit is not made to
    fit: what is shown is longer than width - 4. *)
Theorem placeholder_text_fits (altText : option jsstring) (width : Z) :
  let alt := altTextOr altText in
  let shown := truncatedAlt altText width in
  ((Z.of_nat (length alt) <= width - 4)%Z -> shown = alt)
  /\ ((7 <= width)%Z ->
      (Z.of_nat (length shown) <= width - 4)%Z
      /\ ((width - 4 < Z.of_nat (length alt))%Z ->
          shown = firstn (Z.to_nat (width - 7)) alt ++ js "..."))
  /\ ((width < 7)%Z -> (width - 4 < Z.of_nat (length alt))%Z ->
      (width - 4 < Z.of_nat (length shown))%Z).
Proof.
  intros alt shown. subst shown. unfold truncatedAlt. fold alt. cbv zeta.
  destruct (width - 4 <? Z.of_nat (length alt))%Z eqn:E.
  - apply Z.ltb_lt in E. split; [lia|]. split.
    + intros Hw. split.
      * rewrite length_app, Nat2Z.inj_add, sliceTo_length by lia.
        change (Z.of_nat (length (js "..."))) with 3%Z. lia.
      * intros _. unfold sliceTo.
        replace (width - 7 <? 0)%Z with false by (symmetry; apply Z.ltb_ge; lia).
        reflexivity.
    + intros Hw _. rewrite length_app, Nat2Z.inj_add.
      change (Z.of_nat (length (js "..."))) with 3%Z.
      unfold sliceTo.
      replace (width - 7 <? 0)%Z with true by (symmetry; apply Z.ltb_lt; lia).
      rewrite length_firstn. lia.
  - apply Z.ltb_ge in E. split; [reflexivity|]. split; [|lia].
    intros Hw. split; [exact E | lia].
Qed.

End PlaceholderTheorems.

Module CacheTheorems.
Import DetailsCache.

Lemma get_set_same (Details : Type) (cache : Cache Details) (key : N) (value : Details) :
  get Details (set Details cache key value) key = Some value.
Proof.
  unfold get. induction cache as [|e cache IH]; cbn [set find fst snd].
  - rewrite N.eqb_refl. reflexivity.
  - destruct (N.eqb (fst e) key) eqn:E; cbn [find fst snd].
    + rewrite N.eqb_refl. reflexivity.
    + rewrite E. exact IH.
Qed.

Lemma get_set_other (Details : Type) (cache : Cache Details) (key other : N)
    (value : Details) :
  other <> key ->
  get Details (set Details cache key value) other = get Details cache other.
Proof.
  intros Hne. unfold get. induction cache as [|e cache IH]; cbn [set find fst snd].
  - replace (N.eqb key other) with false; [reflexivity|].
    symmetry. apply N.eqb_neq. congruence.
  - destruct (N.eqb (fst e) key) eqn:E; cbn [find fst snd].
    + apply N.eqb_eq in E.
      replace (N.eqb key other) with false by (symmetry; apply N.eqb_neq; congruence).
      replace (N.eqb (fst e) other) with false by (symmetry; apply N.eqb_neq; congruence).
      reflexivity.
    + destruct (N.eqb (fst e) other); [reflexivity | exact IH].
Qed.

(** X20.  Details once answered for a number are answered again from the
    cache, whatever the service would answer by then, and the cache stays
    as it is; an answer of null is not kept, so the next call asks the
    service again; a call leaves the details kept for other numbers alone;
    and after the cache is cleared the answer is the service's.  This holds
    for fetchCardDetails with clearCardCache and for fetchPRDetails with
    clearPRCache alike. *)
Theorem details_are_cached (Details : Type) (fetch again : N -> option Details)
    (cache : Cache Details) (number : N) :
  let first := fetchDetails Details fetch cache number in
  (forall details, fst first = Some details ->
     fetchDetails Details again (snd first) number = (Some details, snd first))
  /\ (fst first = None -> snd first = cache
      /\ fst (fetchDetails Details again (snd first) number) = again number)
  /\ (forall other, other <> number ->
        get Details (snd first) other = get Details cache other)
  /\ fst (fetchDetails Details fetch (clear Details cache) number) = fetch number.
Proof.
  cbv zeta. unfold fetchDetails, has.
  destruct (get Details cache number) as [kept|] eqn:G; cbn [fst snd].
  - split.
    { intros details E. injection E as <-. rewrite G. reflexivity. }
    split; [discriminate|]. split; [reflexivity|].
    unfold clear. cbn [get find]. destruct (fetch number); reflexivity.
  - destruct (fetch number) as [card|] eqn:F; cbn [fst snd].
    + split.
      { intros details E. injection E as <-. rewrite get_set_same. reflexivity. }
      split; [discriminate|]. split; [intros other Hne; apply get_set_other; exact Hne|].
      reflexivity.
    + split; [discriminate|]. split.
      { intros _. split; [reflexivity|]. rewrite G. destruct (again number); reflexivity. }
      split; reflexivity.
Qed.

End CacheTheorems.

Module ElapsedTheorems.
Import JsString Elapsed ElapsedSpec.

Lemma nested_floor (x a b : Z) : (0 < a)%Z -> (0 < b)%Z -> (x / a / b = x / (a * b))%Z.
Proof. intros Ha Hb. apply Z.div_div; lia. Qed.

Lemma floor_brackets (x size : Z) :
  (0 < size)%Z -> (x / size * size <= x < (x / size + 1) * size)%Z.
Proof.
  intros H. pose proof (Z.div_mod x size ltac:(lia)) as E.
  pose proof (Z.mod_pos_bound x size H). nia.
Qed.

Ltac decide_ltb :=
  repeat match goal with
         | |- context [(?a <? ?b)%Z] =>
             first [ replace (a <? b)%Z with true by (symmetry; apply Z.ltb_lt; lia)
                   | replace (a <? b)%Z with false by (symmetry; apply Z.ltb_ge; lia) ]
         | |- context [(?a =? ?b)%Z] =>
             first [ replace (a =? b)%Z with true by (symmetry; apply Z.eqb_eq; lia)
                   | replace (a =? b)%Z with false by (symmetry; apply Z.eqb_neq; lia) ]
         end.

(** X21.  getRelativeTime counts whole units, rounding down.  Less than a
    minute ago, a date in the future included, is just now; below an hour
    the label counts the minutes, below a day the hours, below 7 days the
    days, below 28 days the weeks of 7 days, and from 28 days on the months
    of 30 days: the count n in the label is the one with n units passed and
    n + 1 not yet.  So after 28 or 29 days the label is 0mo ago.  A date
    that is none gives the label NaNmo ago. *)
Theorem relative_time_counts_whole_units (diffMs : Z) :
  safeDifference diffMs ->
  let label := getRelativeTime (Some diffMs) in
  (((diffMs < minute)%Z /\ label = js "just now")
   \/ ((minute <= diffMs < hour)%Z /\ counts label diffMs (diffMs / minute) "m ago" minute)
   \/ ((hour <= diffMs < day)%Z /\ counts label diffMs (diffMs / hour) "h ago" hour)
   \/ ((day <= diffMs < 7 * day)%Z /\ counts label diffMs (diffMs / day) "d ago" day)
   \/ ((7 * day <= diffMs < 28 * day)%Z
       /\ counts label diffMs (diffMs / (7 * day)) "w ago" (7 * day))
   \/ ((28 * day <= diffMs)%Z
       /\ counts label diffMs (diffMs / (30 * day)) "mo ago" (30 * day)))
  /\ ((28 * day <= diffMs < 30 * day)%Z -> label = js "0mo ago")
  /\ getRelativeTime None = js "NaNmo ago".
Proof.
  intros _. cbv zeta. unfold getRelativeTime, counts. cbv zeta.
  assert (Hm : (diffMs / 60000 * 60000 <= diffMs < (diffMs / 60000 + 1) * 60000)%Z)
    by (apply floor_brackets; lia).
  assert (Hh : (diffMs / 60000 / 60 = diffMs / hour)%Z) by (apply nested_floor; lia).
  assert (Hd : (diffMs / 60000 / 60 / 24 = diffMs / day)%Z).
  { rewrite Hh. unfold day. rewrite Z.mul_comm. apply nested_floor; unfold hour, minute; lia. }
  assert (Hw : (diffMs / 60000 / 60 / 24 / 7 = diffMs / (7 * day))%Z).
  { rewrite Hd. rewrite Z.mul_comm. apply nested_floor; unfold day, hour, minute; lia. }
  assert (Hmo : (diffMs / 60000 / 60 / 24 / 30 = diffMs / (30 * day))%Z).
  { rewrite Hd. rewrite Z.mul_comm. apply nested_floor; unfold day, hour, minute; lia. }
  rewrite Hw, Hmo, Hd, Hh.
  pose proof (floor_brackets diffMs hour ltac:(unfold hour, minute; lia)) as Bh.
  pose proof (floor_brackets diffMs day ltac:(unfold day, hour, minute; lia)) as Bd.
  pose proof (floor_brackets diffMs (7 * day) ltac:(unfold day, hour, minute; lia)) as Bw.
  pose proof (floor_brackets diffMs (30 * day) ltac:(unfold day, hour, minute; lia)) as Bmo.
  change 60000%Z with minute in *.
  unfold day, hour, minute in *.
  split; [|split; [|reflexivity]].
  - destruct (Z_lt_ge_dec diffMs 60000) as [C1 | C1].
    { left. split; [exact C1|]. decide_ltb. reflexivity. }
    right. destruct (Z_lt_ge_dec diffMs (60 * 60000)) as [C2 | C2].
    { left. split; [lia|]. decide_ltb. split; [reflexivity | exact Hm]. }
    right. destruct (Z_lt_ge_dec diffMs (24 * (60 * 60000))) as [C3 | C3].
    { left. split; [lia|]. decide_ltb. split; [reflexivity | exact Bh]. }
    right. destruct (Z_lt_ge_dec diffMs (7 * (24 * (60 * 60000)))) as [C4 | C4].
    { left. split; [lia|]. decide_ltb. split; [reflexivity | exact Bd]. }
    right. destruct (Z_lt_ge_dec diffMs (28 * (24 * (60 * 60000)))) as [C5 | C5].
    { left. split; [lia|]. decide_ltb. split; [reflexivity | exact Bw]. }
    right. split; [lia|]. decide_ltb. split; [reflexivity | exact Bmo].
  - intros C. decide_ltb.
    replace (diffMs / (30 * (24 * (60 * 60000))))%Z with 0%Z; [reflexivity|].
    symmetry. apply Z.div_small. lia.
Qed.

Lemma relative_time_counts_whole_units_witness :
  safeDifference 5400000 /\ getRelativeTime (Some 5400000%Z) = js "1h ago".
Proof.
  split; [reflexivity|].
  destruct (relative_time_counts_whole_units 5400000) as [H _]; [reflexivity|].
  unfold counts, day, hour, minute in H.
  destruct H as [[C _]|[[C _]|[[_ [L _]]|[[C _]|[[C _]|[C _]]]]]]; try lia.
  rewrite L. reflexivity.
Defined.

End ElapsedTheorems.

Module MatchFacts.
Import JsString Regex RegexSpec RegexFacts Html TagScan TagScanFacts MatchSpec.

Lemma matchItems_captures (ic atEnd : bool) :
  forall its s n gs, matchItems ic its atEnd s = Some (n, gs) -> capturesFit ic its gs.
Proof.
  induction its as [|it its IH]; intros s n gs H.
  - simpl in H. destruct atEnd; [destruct s|]; try discriminate;
      injection H as <- <-; constructor.
  - rewrite matchItems_cons in H. apply backtrack_some in H as [j [Hj Hr]].
    destruct (matchItems ic its atEnd (skipn j s)) as [[n' gs']|] eqn:E; [|discriminate].
    injection Hr as <- <-. apply IH in E. unfold capturesFit. cbn [filter].
    destruct (captured it); [|exact E].
    constructor; [|exact E]. split.
    + rewrite length_firstn.
      pose proof (longestRun_le (classMatches ic (cls it)) s (maxRep it)). lia.
    + apply forallb_forall.
      pose proof (longestRun_prefix _ s (maxRep it) j (proj2 Hj)) as F.
      rewrite Forall_forall in F. exact F.
Qed.

(** What a search answers is a match at some position of the string. *)
Lemma searchFrom_sound (re : RegExp) :
  forall s idx m, searchFrom re idx s = Some m ->
    exists k n, index m = idx + k /\ k <= length s
                /\ matchHere re (skipn k s) = Some (n, groups m)
                /\ whole m = firstn n (skipn k s).
Proof.
  induction s as [|c s IH]; intros idx m H; cbn [searchFrom] in H.
  - destruct (matchHere re []) as [[n gs]|] eqn:E.
    + injection H as <-. exists 0, n. cbn [index groups whole skipn length].
      rewrite E. repeat split; lia.
    + destruct (anchorStart re); discriminate.
  - destruct (matchHere re (c :: s)) as [[n gs]|] eqn:E.
    + injection H as <-. exists 0, n. cbn [index groups whole skipn length].
      rewrite E. repeat split; lia.
    + destruct (anchorStart re); [discriminate|].
      apply IH in H as [k [n [Hi [Hk [Hm Hw]]]]].
      exists (S k), n. cbn [skipn length]. repeat split; [lia | lia | exact Hm | exact Hw].
Qed.

Lemma matchAllFrom_sound (re : RegExp) :
  forall s skip idx m, In m (matchAllFrom re skip idx s) ->
    exists k n, k <= length s
                /\ matchHere re (skipn k s) = Some (n, groups m)
                /\ whole m = firstn n (skipn k s).
Proof.
  induction s as [|c s IH]; intros skip idx m H.
  - destruct skip as [|skip]; cbn [matchAllFrom] in H; [|contradiction].
    destruct (matchHere re []) as [[n gs]|] eqn:E; [|contradiction].
    destruct H as [<-|[]]. exists 0, n. cbn [groups whole skipn length].
    rewrite E. repeat split; lia.
  - destruct skip as [|skip]; cbn [matchAllFrom] in H.
    + destruct (matchHere re (c :: s)) as [[n gs]|] eqn:E.
      * destruct H as [<-|H].
        { exists 0, n. cbn [groups whole skipn length]. rewrite E. repeat split; lia. }
        apply IH in H as [k [n' [Hk [Hm Hw]]]].
        exists (S k), n'. cbn [skipn length]. repeat split; [lia | exact Hm | exact Hw].
      * apply IH in H as [k [n' [Hk [Hm Hw]]]].
        exists (S k), n'. cbn [skipn length]. repeat split; [lia | exact Hm | exact Hw].
    + apply IH in H as [k [n' [Hk [Hm Hw]]]].
      exists (S k), n'. cbn [skipn length]. repeat split; [lia | exact Hm | exact Hw].
Qed.

Lemma filter_lit (p : jsstring) : filter captured (lit p) = [].
Proof. induction p as [|c p IH]; [reflexivity | exact IH]. Qed.

(** The first capture of a pattern with one group. *)
Lemma one_capture (ic : bool) (its : list Item) (gs : list jsstring) (it : Item) :
  capturesFit ic its gs -> filter captured its = [it] ->
  minRep it <= length (nth 0 gs [])
  /\ forallb (classMatches ic (cls it)) (nth 0 gs []) = true.
Proof.
  unfold capturesFit. intros H E. rewrite E in H.
  inversion H as [|x g l l' Hx Hl]; subst. exact Hx.
Qed.

Lemma group1_of_match (re : RegExp) (t : jsstring) (n : nat) (gs : list jsstring)
    (it : Item) :
  matchHere re t = Some (n, gs) -> filter captured (items re) = [it] ->
  minRep it <= length (nth 0 gs [])
  /\ forallb (classMatches (ignoreCase re) (cls it)) (nth 0 gs []) = true.
Proof.
  intros H E. unfold matchHere in H. apply matchItems_captures in H.
  exact (one_capture _ _ _ _ H E).
Qed.

(** A literal stretch in front of further items. *)
Lemma lit_then (p : jsstring) (its : list Item) (atEnd : bool) :
  forall s,
    matchItems false (lit p ++ its) atEnd s
    = if startsWith p s
      then match matchItems false its atEnd (skipn (length p) s) with
           | Some (n, gs) => Some (length p + n, gs)
           | None => None
           end
      else None.
Proof.
  induction p as [|c p IH]; intros s.
  - cbn [lit map app startsWith length skipn Nat.add].
    destruct (matchItems false its atEnd s) as [[n gs]|]; reflexivity.
  - change (lit (c :: p) ++ its) with (one (only c) :: (lit p ++ its)).
    rewrite char_item. destruct s as [|x t]; [reflexivity|].
    cbn [startsWith length skipn]. unfold char_eqb.
    destruct (N.eqb c x); [|reflexivity]. cbn [andb].
    rewrite IH. destruct (startsWith p t); [|reflexivity].
    destruct (matchItems false its atEnd (skipn (length p) t)) as [[n gs]|]; reflexivity.
Qed.

Lemma digitClass_matches (c : char) : classMatches false digitClass c = isDigit c.
Proof. unfold classMatches, isDigit. cbn [negated ranges digitClass xorb andb]. rewrite orb_false_r. reflexivity. Qed.

(** The digits at the end of a pattern, captured or not, are the longest
    run. *)
Lemma digits_item (g : bool) (u : jsstring) :
  matchItems false
    [{| cls := digitClass; minRep := 1; maxRep := None; captured := g |}] false u
  = match leading isDigit u with
    | [] => None
    | d => Some (length d, if g then [d] else [])
    end.
Proof.
  rewrite matchItems_cons. cbn [cls minRep maxRep captured matchItems].
  rewrite (longestRun_ext _ _ digitClass_matches), longestRun_leading.
  pose proof (firstn_leading isDigit u) as F.
  destruct (leading isDigit u) as [|x d]; [reflexivity|].
  rewrite (backtrack_first _ 1 _ (length (x :: d), if g then [x :: d] else []));
    [reflexivity | simpl; lia |].
  rewrite F, Nat.add_0_r. reflexivity.
Qed.



(** The decimal digits of a number read back as the number. *)
Lemma parseInt_digits_acc (d : Decimal.uint) :
  forall acc : nat,
    fold_left (fun a c => (10 * a + (c - 48))%N) (digitsOfUint d) (N.of_nat acc)
    = N.of_nat (Nat.of_uint_acc d acc).
Proof.
  induction d; intros acc; cbn [digitsOfUint fold_left Nat.of_uint_acc];
    [reflexivity | ..];
    rewrite <- IHd; f_equal; rewrite Nat.tail_mul_spec; lia.
Qed.

Lemma parseInt_numberToString (n : nat) :
  Image.parseInt (numberToString n) = N.of_nat n.
Proof.
  unfold Image.parseInt, numberToString.
  change 0%N with (N.of_nat 0).
  rewrite (parseInt_digits_acc (Nat.to_uint n) 0).
  change (Nat.of_uint_acc (Nat.to_uint n) 0) with (Nat.of_uint (Nat.to_uint n)).
  rewrite Unsigned.of_to. reflexivity.
Qed.

Lemma digitsOfUint_digits (d : Decimal.uint) : forallb isDigit (digitsOfUint d) = true.
Proof. induction d; cbn [digitsOfUint forallb]; [reflexivity | ..]; rewrite IHd; reflexivity. Qed.

Lemma digitsOfUint_nil (d : Decimal.uint) : digitsOfUint d = [] -> d = Decimal.Nil.
Proof. destruct d; cbn [digitsOfUint]; [reflexivity | ..]; discriminate. Qed.

Lemma numberToString_nonempty (n : nat) : numberToString n <> [].
Proof.
  unfold numberToString. intros H. apply digitsOfUint_nil in H.
  pose proof (Unsigned.of_to n) as E. rewrite H in E. cbn in E. subst n.
  vm_compute in H. discriminate H.
Qed.

End MatchFacts.

Module BranchTheorems.
Import JsString Regex RegexSpec RegexFacts Html Image TagScan TagScanFacts.
Import MatchSpec MatchFacts DescriptorSpec Fizzy.

Lemma searchFrom_here (re : RegExp) (s : jsstring) (idx n : nat) (gs : list jsstring) :
  matchHere re s = Some (n, gs) ->
  searchFrom re idx s = Some {| index := idx; whole := firstn n s; groups := gs |}.
Proof. intros H. destruct s; cbn [searchFrom]; rewrite H; reflexivity. Qed.

Lemma parse_number_then (n : nat) (t : jsstring) :
  match t with c :: _ => isDigit c = false | [] => True end ->
  parseCardFromBranch (js "card-" ++ numberToString n ++ t) = Some (N.of_nat n).
Proof.
  intros Ht. unfold parseCardFromBranch, exec.
  assert (M : matchHere cardBranchRegex (js "card-" ++ numberToString n ++ t)
              = Some (5 + length (numberToString n), [numberToString n])).
  { unfold matchHere, cardBranchRegex. cbn [items ignoreCase anchorEnd].
    rewrite lit_then, startsWith_app.
    change (length (js "card-")) with 5.
    change (skipn 5 (js "card-" ++ numberToString n ++ t)) with (numberToString n ++ t).
    change (group (plus digitClass))
      with {| cls := digitClass; minRep := 1; maxRep := None; captured := true |}.
    rewrite digits_item.
    destruct (leading_app isDigit (numberToString n) t (digitsOfUint_digits _) Ht) as [-> _].
    pose proof (numberToString_nonempty n).
    destruct (numberToString n); [contradiction | reflexivity]. }
  rewrite (searchFrom_here _ _ 0 _ _ M). unfold group1. cbn [groups nth].
  rewrite parseInt_numberToString. reflexivity.
Qed.

(** X22.  The number of a card is read back from the branch name made for
    it, whatever the card's title is: parseCardFromBranch of
    branchFromCard(card, n) is n. *)
Theorem branch_name_reads_back (toLowerCase : jsstring -> jsstring) (title : jsstring)
    (n : nat) :
  safeInteger n ->
  parseCardFromBranch (branchFromCard toLowerCase title n) = Some (N.of_nat n).
Proof.
  intros _. unfold branchFromCard. cbv zeta.
  apply (parse_number_then n (js "-" ++ _)). reflexivity.
Qed.

Lemma branch_name_reads_back_witness :
  safeInteger 42
  /\ parseCardFromBranch (branchFromCard asciiToLowerCase (js "Fix the login page") 42)
     = Some 42%N.
Proof.
  split; [reflexivity|].
  apply (branch_name_reads_back asciiToLowerCase (js "Fix the login page") 42).
  reflexivity.
Defined.

(** *** The slug *)







Lemma dash_is_slugChar (c : char) : isDash c = true -> isSlugChar c = true.
Proof. unfold isDash. intros H. apply N.eqb_eq in H. subst c. reflexivity. Qed.











End BranchTheorems.

Module DescriptorTheorems.
Import JsString Regex RegexSpec RegexFacts Html Image TagScan TagScanFacts.
Import MatchSpec MatchFacts DescriptorSpec CardPage.

Lemma outside_quotes (ic : bool) (c : char) :
  classMatches ic (noneOf quotes) c = true -> c <> DQUOTE /\ c <> SQUOTE.
Proof.
  intros H. split; intros ->; revert H; destruct ic; vm_compute; discriminate.
Qed.

Lemma value_fits (ic : bool) (g : jsstring) :
  1 <= length g /\ forallb (classMatches ic (noneOf quotes)) g = true ->
  g <> [] /\ quoteFree g.
Proof.
  intros [Hlen Hall]. split; [destruct g; [simpl in Hlen; lia | discriminate]|].
  rewrite forallb_forall in Hall.
  split; intros Hin; apply Hall in Hin; apply outside_quotes in Hin; tauto.
Qed.

Lemma attribute_match (name : string) (tag : jsstring) (m : Match) :
  exec (attributeRegex name) tag = Some m -> group1 m <> [] /\ quoteFree (group1 m).
Proof.
  intros H. apply searchFrom_sound in H as [k [n [_ [_ [Hm _]]]]].
  apply (value_fits false). unfold group1.
  apply (group1_of_match _ _ _ _ (group (plus (noneOf quotes))) Hm).
  unfold attributeRegex, pattern. cbn [items].
  rewrite !filter_app, !filter_lit. reflexivity.
Qed.

Lemma image_match (html : jsstring) (m : Match) :
  In m (matchAll imgRegex html) -> group1 m <> [] /\ quoteFree (group1 m).
Proof.
  intros H. apply matchAllFrom_sound in H as [k [n [_ [Hm _]]]].
  apply (value_fits true). unfold group1.
  apply (group1_of_match _ _ _ _ (group (plus (noneOf quotes))) Hm).
  unfold imgRegex, patternI. cbn [items].
  rewrite !filter_app, !filter_lit. reflexivity.
Qed.

Ltac no_quote :=
  split; intros H; vm_compute in H;
  repeat (destruct H as [H|H]; [discriminate H|]); exact H.

Lemma absolute_filled (u : jsstring) :
  u <> [] -> quoteFree u -> absolute u <> [] /\ quoteFree (absolute u).
Proof.
  intros Hne [Hd Hs]. unfold absolute. destruct (startsWith (js "/") u); [|split; [exact Hne | split; assumption]].
  assert (Ho : quoteFree origin) by no_quote.
  destruct Ho as [Hod Hos].
  split; [discriminate|].
  split; intros Hin; apply in_app_or in Hin; tauto.
Qed.

Lemma attributeOr_filled (name : string) (tag : jsstring) :
  attributeOr name tag (js "image") <> [] /\ quoteFree (attributeOr name tag (js "image")).
Proof.
  unfold attributeOr. destruct (exec (attributeRegex name) tag) as [m|] eqn:E.
  - exact (attribute_match _ _ _ E).
  - split; [discriminate | no_quote].
Qed.

Lemma attachmentImage_filled (m : Match) : Forall filled (attachmentImage m).
Proof.
  unfold attachmentImage. cbv zeta.
  destruct (exec (attributeRegex "url") (whole m)) as [urlMatch|] eqn:E; [|constructor].
  constructor; [|constructor].
  destruct (attribute_match _ _ _ E) as [Hne Hq].
  destruct (absolute_filled _ Hne Hq) as [Ha Hb].
  destruct (attributeOr_filled "filename" (whole m)) as [Hc Hd].
  unfold filled. cbn [url alt]. tauto.
Qed.

Lemma plainImage_filled (images : list ImageInfo) (m : Match) :
  Forall filled images -> group1 m <> [] /\ quoteFree (group1 m) ->
  Forall filled (plainImage images m).
Proof.
  intros Himgs [Hne Hq]. unfold plainImage. cbv zeta.
  destruct (keepsImage images (group1 m)); [|exact Himgs].
  apply Forall_app. split; [exact Himgs|]. constructor; [|constructor].
  destruct (absolute_filled _ Hne Hq) as [Ha Hb].
  destruct (attributeOr_filled "alt" (whole m)) as [Hc Hd].
  unfold filled. cbn [url alt]. tauto.
Qed.

Lemma fold_plainImage_filled (ms : list Match) :
  forall images, Forall filled images ->
    (forall m, In m ms -> group1 m <> [] /\ quoteFree (group1 m)) ->
    Forall filled (fold_left plainImage ms images).
Proof.
  induction ms as [|m ms IH]; intros images Himgs Hms; [exact Himgs|].
  cbn [fold_left]. apply IH.
  - apply plainImage_filled; [exact Himgs | apply Hms; left; reflexivity].
  - intros m' Hin. apply Hms. right. exact Hin.
Qed.

(** X24.  Every descriptor extractImageUrls returns has a URL and an
    alternative text that are not empty and hold no quote character,
    whatever the markup is. *)
Theorem image_descriptors_are_filled (html : jsstring) :
  Forall filled (extractImageUrls html).
Proof.
  unfold extractImageUrls. cbv zeta. apply fold_plainImage_filled.
  - apply Forall_flat_map. apply Forall_forall. intros m _. apply attachmentImage_filled.
  - intros m Hin. exact (image_match html m Hin).
Qed.

(** The pattern of the test and the pattern with the group match at the
    same places. *)
Lemma matchHere_card (s : jsstring) :
  matchHere cardTestRegex s
  = match matchHere cardPathRegex s with
    | Some (n, _) => Some (n, [])
    | None => None
    end.
Proof.
  unfold matchHere, cardTestRegex, cardPathRegex, pattern. cbn [items ignoreCase anchorEnd].
  rewrite !lit_then. destruct (startsWith (js "/cards/") s); [|reflexivity].
  change (group (plus digitClass))
    with {| cls := digitClass; minRep := 1; maxRep := None; captured := true |}.
  change (plus digitClass)
    with {| cls := digitClass; minRep := 1; maxRep := None; captured := false |}.
  rewrite !digits_item.
  destruct (leading isDigit (skipn (length (js "/cards/")) s)); reflexivity.
Qed.

Lemma searchFrom_card :
  forall s idx,
    match searchFrom cardPathRegex idx s with
    | Some _ => searchFrom cardTestRegex idx s <> None
    | None => searchFrom cardTestRegex idx s = None
    end.
Proof.
  induction s as [|c s IH]; intros idx; cbn [searchFrom]; rewrite matchHere_card.
  - destruct (matchHere cardPathRegex []) as [[n gs]|]; [discriminate | reflexivity].
  - destruct (matchHere cardPathRegex (c :: s)) as [[n gs]|]; [discriminate|].
    cbn [anchorStart cardPathRegex cardTestRegex pattern]. apply IH.
Qed.

(** X25.  The card number the extension reads from a path is a run of
    digits, not empty, that stands behind /cards/ in the path with no
    further digit behind it; the page is a card page exactly when there is
    such a number, and a path without /cards/ has none. *)
Theorem card_number_is_the_run_of_digits (pathname : jsstring) :
  match getCardNumber pathname with
  | Some d =>
      isCardPage pathname = true
      /\ d <> [] /\ forallb isDigit d = true
      /\ exists before after,
           pathname = before ++ js "/cards/" ++ d ++ after
           /\ match after with c :: _ => isDigit c = false | [] => True end
  | None =>
      isCardPage pathname = false
  end
  /\ (includes pathname (js "/cards/") = false -> getCardNumber pathname = None).
Proof.
  assert (Hsome : forall m, exec cardPathRegex pathname = Some m ->
            group1 m <> [] /\ forallb isDigit (group1 m) = true
            /\ exists before after,
                 pathname = before ++ js "/cards/" ++ group1 m ++ after
                 /\ match after with c :: _ => isDigit c = false | [] => True end).
  { intros m H. apply searchFrom_sound in H as [k [n [_ [_ [Hm _]]]]].
    unfold matchHere, cardPathRegex, pattern in Hm. cbn [items ignoreCase anchorEnd] in Hm.
    rewrite lit_then in Hm.
    destruct (startsWith (js "/cards/") (skipn k pathname)) eqn:Es; [|discriminate].
    apply startsWith_prefix in Es as [u Eu].
    rewrite Eu in Hm. change (length (js "/cards/")) with 7 in Hm.
    change (skipn 7 (js "/cards/" ++ u)) with u in Hm.
    change (group (plus digitClass))
      with {| cls := digitClass; minRep := 1; maxRep := None; captured := true |} in Hm.
    rewrite digits_item in Hm.
    pose proof (leading_all isDigit u) as Hall.
    pose proof (leading_behind isDigit u) as Hsplit.
    pose proof (behind_head isDigit u) as Hhead.
    destruct (leading isDigit u) as [|x d] eqn:El; [discriminate|].
    injection Hm as _ Hg. unfold group1. rewrite <- Hg. cbn [nth].
    split; [discriminate|]. split; [exact Hall|].
    exists (firstn k pathname), (behind isDigit u). split; [|exact Hhead].
    rewrite <- (firstn_skipn k pathname) at 1. rewrite Eu. f_equal. f_equal.
    symmetry. exact Hsplit. }
  unfold getCardNumber, isCardPage.
  pose proof (searchFrom_card pathname 0) as Htest. unfold exec.
  unfold exec in Hsome.
  destruct (searchFrom cardPathRegex 0 pathname) as [m|] eqn:E.
  - destruct (Hsome m eq_refl) as [Hne [Hd Hex]].
    split.
    + split; [|tauto].
      destruct (searchFrom cardTestRegex 0 pathname); [reflexivity | contradiction].
    + intros Hinc. exfalso. apply ReplaceFacts.includes_absent in Hinc. apply Hinc.
      destruct Hex as [before [after [Hp _]]].
      exists before, (group1 m ++ after). exact Hp.
  - rewrite Htest. split; [reflexivity | intros _; reflexivity].
Qed.

End DescriptorTheorems.

Module CardAgeTheorems.
Import JsString Elapsed ElapsedSpec ElapsedTheorems.

(** X26.  formatRelativeTime counts whole days, rounding down: the first
    day is TODAY, the second YESTERDAY, then the label counts the days up
    to 6, the weeks of 7 days up to 29 days, the months of 30 days up to
    364 days and the years of 365 days from there on; the count n in the
    label is the one with n units passed and n + 1 not yet.  A date in the
    future is counted in days too, with a negative count, and a date that
    is none gives the label NaN YEARS AGO. *)
Theorem card_age_counts_whole_units (diffMs : Z) :
  safeDifference diffMs ->
  let label := formatRelativeTime (Some diffMs) in
  (((0 <= diffMs < day)%Z /\ label = js "TODAY")
   \/ ((day <= diffMs < 2 * day)%Z /\ label = js "YESTERDAY")
   \/ ((diffMs < 0 \/ 2 * day <= diffMs < 7 * day)%Z
       /\ counts label diffMs (diffMs / day) " DAYS AGO" day)
   \/ ((7 * day <= diffMs < 30 * day)%Z
       /\ counts label diffMs (diffMs / (7 * day)) " WEEKS AGO" (7 * day))
   \/ ((30 * day <= diffMs < 365 * day)%Z
       /\ counts label diffMs (diffMs / (30 * day)) " MONTHS AGO" (30 * day))
   \/ ((365 * day <= diffMs)%Z
       /\ counts label diffMs (diffMs / (365 * day)) " YEARS AGO" (365 * day)))
  /\ formatRelativeTime None = js "NaN YEARS AGO".
Proof.
  intros _. cbv zeta. split; [|reflexivity].
  unfold formatRelativeTime, counts. cbv zeta.
  change (1000 * 60 * 60 * 24)%Z with day.
  assert (Hday : (0 < day)%Z) by (unfold day, hour, minute; lia).
  assert (Hw : (diffMs / day / 7 = diffMs / (7 * day))%Z).
  { rewrite (Z.mul_comm 7). apply nested_floor; lia. }
  assert (Hmo : (diffMs / day / 30 = diffMs / (30 * day))%Z).
  { rewrite (Z.mul_comm 30). apply nested_floor; lia. }
  assert (Hy : (diffMs / day / 365 = diffMs / (365 * day))%Z).
  { rewrite (Z.mul_comm 365). apply nested_floor; lia. }
  rewrite Hw, Hmo, Hy.
  pose proof (floor_brackets diffMs day Hday) as Bd.
  pose proof (floor_brackets diffMs (7 * day) ltac:(lia)) as Bw.
  pose proof (floor_brackets diffMs (30 * day) ltac:(lia)) as Bmo.
  pose proof (floor_brackets diffMs (365 * day) ltac:(lia)) as By.
  set (days := (diffMs / day)%Z) in *.
  destruct (Z_lt_ge_dec diffMs 0) as [C0 | C0].
  { right. right. left. split; [lia|].
    assert (days < 0)%Z by nia. decide_ltb. split; [reflexivity | exact Bd]. }
  destruct (Z_lt_ge_dec diffMs day) as [C1 | C1].
  { left. split; [lia|]. assert (days = 0)%Z by nia. decide_ltb. reflexivity. }
  right. destruct (Z_lt_ge_dec diffMs (2 * day)) as [C2 | C2].
  { left. split; [lia|]. assert (days = 1)%Z by nia. decide_ltb. reflexivity. }
  right. destruct (Z_lt_ge_dec diffMs (7 * day)) as [C3 | C3].
  { left. split; [lia|]. assert (2 <= days < 7)%Z by nia. decide_ltb.
    split; [reflexivity | exact Bd]. }
  right. destruct (Z_lt_ge_dec diffMs (30 * day)) as [C4 | C4].
  { left. split; [lia|]. assert (7 <= days < 30)%Z by nia. decide_ltb.
    split; [reflexivity | exact Bw]. }
  right. destruct (Z_lt_ge_dec diffMs (365 * day)) as [C5 | C5].
  { left. split; [lia|]. assert (30 <= days < 365)%Z by nia. decide_ltb.
    split; [reflexivity | exact Bmo]. }
  right. split; [lia|]. assert (365 <= days)%Z by nia. decide_ltb.
  split; [reflexivity | exact By].
Qed.

Lemma card_age_counts_whole_units_witness :
  safeDifference (-5000) /\ formatRelativeTime (Some (-5000)%Z) = js "-1 DAYS AGO".
Proof.
  split; [reflexivity|].
  destruct (card_age_counts_whole_units (-5000)) as [H _]; [reflexivity|].
  unfold counts, day, hour, minute in H.
  destruct H as [[C _]|[[C _]|[[_ [L _]]|[[C _]|[[C _]|[C _]]]]]]; try lia.
  rewrite L. reflexivity.
Defined.

End CardAgeTheorems.
